(** * The mixed-language utterance pipeline and the tolerant extractor

    A shallow embedding of
      - [src/services/geminiService.ts]  (GeminiService and the web VoiceService),
      - [services/voiceService.ts]       (the native VoiceService),
    together with the part of the JavaScript string library the two files
    call (regular expressions over character classes, [replace], [split],
    [trim], [match], [test]). *)

From Stdlib Require Import String Ascii List ZArith Bool Lia.
Import ListNotations.
Local Open Scope Z_scope.
Set Warnings "-register-all".


(** ** JavaScript strings and regular expressions *)

Module JS.

(** A JavaScript string is a sequence of UTF-16 code units. *)
Definition jsstring := list Z.

(** ASCII literals of the sources, as code units. *)
Definition lit (s : string) : jsstring :=
  map (fun a => Z.of_N (N_of_ascii a)) (list_ascii_of_string s).

(** The class [\s]: WhiteSpace and LineTerminator of ECMAScript; the same
    code units are the ones [String.prototype.trim] removes. *)
Definition is_space (c : Z) : bool :=
  ((9 <=? c) && (c <=? 13)) || (c =? 32) || (c =? 160) || (c =? 0x1680)
  || ((0x2000 <=? c) && (c <=? 0x200A)) || (c =? 0x2028) || (c =? 0x2029)
  || (c =? 0x202F) || (c =? 0x205F) || (c =? 0x3000) || (c =? 0xFEFF).

(** The regular expressions of the two services are sequences of
    single-unit classes, greedy starred classes and the anchors. *)
Inductive atom :=
| One (p : Z -> bool)     (* a literal or a class [...] *)
| Star (p : Z -> bool)    (* a class followed by the greedy [*] *)
| Bol                     (* ^ without the m flag *)
| Eol.                    (* $ without the m flag *)

Definition regex := list atom.

Definition chr (c : Z) : atom := One (Z.eqb c).
Definition chars (s : string) : regex := map chr (lit s).
(** [p+] is [p p*]. *)
Definition plus (p : Z -> bool) : regex := [One p; Star p].

(** [exec r bos s]: the backtracking matcher anchored at the head of [s];
    [bos] tells whether the head of [s] is the start of the subject.  The
    result lists how many code units each atom consumed, in the order the
    engine finds them (a starred class tries the longest run first). *)
Fixpoint exec (r : regex) (bos : bool) (s : jsstring) {struct r}
  : option (list nat) :=
  match r with
  | [] => Some []
  | One p :: r' =>
      match s with
      | c :: s' => if p c then option_map (cons 1%nat) (exec r' false s') else None
      | [] => None
      end
  | Star p :: r' =>
      (fix star (bos : bool) (s : jsstring) {struct s} : option (list nat) :=
         let leave := option_map (cons 0%nat) (exec r' bos s) in
         match s with
         | c :: s' =>
             if p c then
               match star false s' with
               | Some (n :: ls) => Some (S n :: ls)
               | _ => leave
               end
             else leave
         | [] => leave
         end) bos s
  | Bol :: r' => if bos then option_map (cons 0%nat) (exec r' bos s) else None
  | Eol :: r' =>
      match s with
      | [] => option_map (cons 0%nat) (exec r' bos s)
      | _ :: _ => None
      end
  end.

Definition total (ls : list nat) : nat := fold_right Nat.add 0%nat ls.

(** The leftmost match: its start index and the atoms' lengths. *)
Fixpoint search_from (r : regex) (bos : bool) (s : jsstring)
  : option (nat * list nat) :=
  match exec r bos s with
  | Some ls => Some (0%nat, ls)
  | None =>
      match s with
      | [] => None
      | _ :: s' =>
          match search_from r false s' with
          | Some (i, ls) => Some (S i, ls)
          | None => None
          end
      end
  end.

Definition search (r : regex) (s : jsstring) := search_from r true s.

(** [re.test(s)] *)
Definition test (r : regex) (s : jsstring) : bool :=
  match search r s with Some _ => true | None => false end.

Definition substring (s : jsstring) (from len : nat) : jsstring :=
  firstn len (skipn from s).

(** [s.match(re)] without the g flag, for a pattern whose atoms
    [g_from .. g_from + g_len - 1] are enclosed in its one capturing group:
    the pair of element 0 (the whole match) and element 1 (the group). *)
Definition match_group (r : regex) (g_from g_len : nat) (s : jsstring)
  : option (jsstring * jsstring) :=
  match search r s with
  | Some (i, ls) =>
      Some (substring s i (total ls),
            substring s (i + total (firstn g_from ls))
                        (total (firstn g_len (skipn g_from ls))))
  | None => None
  end.

(** [s.match(re)] without the g flag, element 0 only. *)
Definition match_whole (r : regex) (s : jsstring) : option jsstring :=
  match search r s with
  | Some (i, ls) => Some (substring s i (total ls))
  | None => None
  end.

(** [s.replace(re, by)] with the g flag.  [skip] counts the code units of
    the current match that are still to be passed over.  After an empty
    match the engine copies one code unit and resumes behind it. *)
Fixpoint replace_from (r : regex) (by_ : jsstring) (bos : bool) (skip : nat)
  (s : jsstring) {struct s} : jsstring :=
  match skip with
  | S k =>
      match s with
      | [] => []
      | _ :: s' => replace_from r by_ false k s'
      end
  | O =>
      match exec r bos s with
      | Some ls =>
          by_ ++
          match s with
          | [] => []
          | c :: s' =>
              match total ls with
              | O => c :: replace_from r by_ false 0 s'
              | S k => replace_from r by_ false k s'
              end
          end
      | None =>
          match s with
          | [] => []
          | c :: s' => c :: replace_from r by_ false 0 s'
          end
      end
  end.

Definition replace_all (r : regex) (by_ s : jsstring) : jsstring :=
  replace_from r by_ true 0 s.

(** [s.split(re)] for a pattern that is one capturing group, so that every
    separator is spliced into the result.  [piece] is the text since the end
    of the last separator; [skip] as in [replace_from].  A match is not
    attempted at the end of the subject, and an empty match at the start of
    a piece does not split. *)
Fixpoint split_from (r : regex) (bos : bool) (skip : nat) (piece : jsstring)
  (s : jsstring) {struct s} : list jsstring :=
  match s with
  | [] => [piece]
  | c :: s' =>
      match skip with
      | S k => split_from r false k piece s'
      | O =>
          match exec r bos s with
          | Some ls =>
              match total ls with
              | O =>
                  match piece with
                  | [] => split_from r false 0 [c] s'
                  | _ :: _ => piece :: [] :: split_from r false 0 [c] s'
                  end
              | S k => piece :: firstn (S k) s :: split_from r false k [] s'
              end
          | None => split_from r false 0 (piece ++ [c]) s'
          end
      end
  end.

Definition split_captured (r : regex) (s : jsstring) : list jsstring :=
  match s with
  | [] => match exec r true [] with Some _ => [] | None => [[]] end
  | _ :: _ => split_from r true 0 [] s
  end.

(** [s.trim()] *)
Fixpoint trim_start (s : jsstring) : jsstring :=
  match s with
  | c :: s' => if is_space c then trim_start s' else s
  | [] => []
  end.

Definition trim_end (s : jsstring) : jsstring := rev (trim_start (rev s)).

Definition trim (s : jsstring) : jsstring := trim_end (trim_start s).

(** [s.startsWith(prefix)] and [s.includes(needle)] *)
Fixpoint starts_with (prefix s : jsstring) : bool :=
  match prefix, s with
  | [], _ => true
  | p :: prefix', c :: s' => (p =? c) && starts_with prefix' s'
  | _ :: _, [] => false
  end.

Fixpoint includes (needle s : jsstring) : bool :=
  starts_with needle s ||
  match s with
  | [] => false
  | _ :: s' => includes needle s'
  end.

(** [a === b] on strings *)
Fixpoint same (a b : jsstring) : bool :=
  match a, b with
  | [], [] => true
  | x :: a', y :: b' => (x =? y) && same a' b'
  | _, _ => false
  end.

(** A JavaScript number.  A finite value is carried as the fraction it
    denotes; the services only ever ask whether a number is zero or
    positive, so the sign of zero is not kept. *)
Inductive number :=
| NaN
| Infinity (negative : bool)
| Fin (num : Z) (den : positive).

Definition is_zero (x : number) : bool :=
  match x with Fin n _ => n =? 0 | _ => false end.

(** [x > 0] *)
Definition positive_number (x : number) : bool :=
  match x with
  | NaN => false
  | Infinity negative => negb negative
  | Fin n _ => 0 <? n
  end.

Definition of_length {A} (l : list A) : number := Fin (Z.of_nat (length l)) 1.

End JS.

(** ** The web client: [VoiceService] of [src/services/geminiService.ts] *)

Module Web.
Import JS.

Inductive Lang := en_US | ru_RU.

Definition Lang_eqb (a b : Lang) : bool :=
  match a, b with
  | en_US, en_US | ru_RU, ru_RU => true
  | _, _ => false
  end.

(** An element of [groups].  [lang] is [None] for JavaScript's [null]: the
    last push stores [currentLang!], and the [!] is erased at run time. *)
Record group := { lang : option Lang; text : jsstring }.

(** [/\([^)]*\)/g] *)
Definition re_parenthesized : regex :=
  [chr 40; Star (fun c => negb (c =? 41)); chr 41].

(** [/\s+/g] and the splitter [/(\s+)/] *)
Definition re_spaces : regex := plus is_space.

(** [/^\s+$/] *)
Definition re_blank : regex := [Bol] ++ plus is_space ++ [Eol].

(** The class [[а-яА-ЯёЁ]]: U+0430..U+044F, U+0410..U+042F, U+0451, U+0401. *)
Definition russian_letter (c : Z) : bool :=
  ((0x430 <=? c) && (c <=? 0x44F)) || ((0x410 <=? c) && (c <=? 0x42F))
  || (c =? 0x451) || (c =? 0x401).

Definition re_russian : regex := [One russian_letter].

Definition cleanedText (text : jsstring) : jsstring :=
  trim (replace_all re_spaces [32] (replace_all re_parenthesized [] text)).

Definition words (text : jsstring) : list jsstring :=
  split_captured re_spaces (cleanedText text).

Definition isRussian (w : jsstring) : bool := test re_russian w.

(** The variables of the grouping loop. *)
Record loop := { groups : list group; currentLang : option Lang; buffer : jsstring }.

Definition start : loop := {| groups := []; currentLang := None; buffer := [] |}.

(** One iteration of [for (const word of words)]. *)
Definition visit (st : loop) (word : jsstring) : loop :=
  if test re_blank word then
    {| groups := groups st; currentLang := currentLang st;
       buffer := buffer st ++ word |}
  else
    let lang := if isRussian word then ru_RU else en_US in
    match currentLang st with
    | None =>
        {| groups := groups st; currentLang := Some lang; buffer := word |}
    | Some current =>
        if Lang_eqb lang current then
          {| groups := groups st; currentLang := currentLang st;
             buffer := buffer st ++ word |}
        else
          {| groups := groups st ++ [{| lang := Some current; text := buffer st |}];
             currentLang := Some lang; buffer := word |}
    end.

(** [if (buffer) groups.push(...)] *)
Definition flush (st : loop) : list group :=
  match buffer st with
  | [] => groups st
  | _ :: _ => groups st ++ [{| lang := currentLang st; text := buffer st |}]
  end.

Definition group_words (ws : list jsstring) : list group :=
  flush (fold_left visit ws start).

(** The segmentation phase of [speak]: the value of [groups] after the loop. *)
Definition segment (text : jsstring) : list group := group_words (words text).

(** *** The synthesis phase *)

(** A [SpeechSynthesisVoice], by the two properties [getVoice] reads: its
    [name], and its [lang], here [locale]. *)
Record voice := { name : jsstring; locale : jsstring }.

Definition getVoice (voices : list voice) (l : option Lang) : option voice :=
  match l with
  | Some ru_RU => find (fun v => starts_with (lit "ru") (locale v)) voices
  | _ =>
      match find (fun v => starts_with (lit "en") (locale v)
                           && includes (lit "Natural") (name v)) voices with
      | Some v => Some v
      | None => find (fun v => starts_with (lit "en") (locale v)) voices
      end
  end.

Record utterance := {
  u_text : jsstring;
  u_lang : option Lang;
  u_voice : option voice;
  u_rate : number;
  u_pitch : number;
  u_volume : number
}.

Definition utter (voices : list voice) (g : group) : utterance :=
  {| u_text := text g; u_lang := lang g; u_voice := getVoice voices (lang g);
     u_rate := Fin 9 10; u_pitch := Fin 1 1; u_volume := Fin 1 1 |}.

(** What one call of [speak] closes over; [j_onEnd] tells whether the
    caller passed the callback. *)
Record job := { j_groups : list group; j_onEnd : bool; j_voices : list voice }.

(** The calls received by [window.speechSynthesis].  A spoken utterance is
    labelled with the job and the index of the group it was made for. *)
Inductive call :=
| cancel
| speak_utterance (j i : nat) (u : utterance).

(** The service together with what it has handed out: the closures of the
    [speak] calls so far, the backend calls in the order they were made, the
    jobs whose [onEnd] has run, and the utterances whose [onend] listener
    has not fired yet. *)
Record world := {
  jobs : list job;
  calls : list call;
  ended : list nat;
  listening : list (nat * nat)
}.

Definition boot : world :=
  {| jobs := []; calls := []; ended := []; listening := [] |}.

Definition run_onEnd (j : nat) (provided : bool) (w : world) : world :=
  if provided then
    {| jobs := jobs w; calls := calls w; ended := ended w ++ [j];
       listening := listening w |}
  else w.

(** [speakGroup(i)] in the closure of job [j]. *)
Definition speakGroup (j i : nat) (w : world) : world :=
  match nth_error (jobs w) j with
  | None => w
  | Some jb =>
      match nth_error (j_groups jb) i with
      | None => run_onEnd j (j_onEnd jb) w
      | Some g =>
          {| jobs := jobs w;
             calls := calls w ++ [speak_utterance j i (utter (j_voices jb) g)];
             ended := ended w;
             listening := listening w ++ [(j, i)] |}
      end
  end.

(** [speak(text, onEnd)]; [voices] is what [getVoices()] answers. *)
Definition speak (text : jsstring) (onEnd : bool) (voices : list voice)
  (w : world) : world :=
  let j := length (jobs w) in
  let gs := segment text in
  let w' := {| jobs := jobs w ++ [{| j_groups := gs; j_onEnd := onEnd; j_voices := voices |}];
               calls := calls w ++ [cancel];
               ended := ended w;
               listening := listening w |} in
  if (0 <? length gs)%nat then speakGroup j 0 w' else run_onEnd j onEnd w'.

(** [stopSpeaking()] *)
Definition stopSpeaking (w : world) : world :=
  {| jobs := jobs w; calls := calls w ++ [cancel]; ended := ended w;
     listening := listening w |}.

Definition same_utterance (a b : nat * nat) : bool :=
  (fst a =? fst b)%nat && (snd a =? snd b)%nat.

(** The backend fires [end] on utterance [i] of job [j]: its listener runs
    [speakGroup(i + 1)].  An utterance that was never spoken, or whose
    [end] has fired, has no event to deliver. *)
Definition utterance_end (j i : nat) (w : world) : world :=
  if existsb (same_utterance (j, i)) (listening w) then
    speakGroup j (i + 1)
      {| jobs := jobs w; calls := calls w; ended := ended w;
         listening := filter (fun u => negb (same_utterance (j, i) u)) (listening w) |}
  else w.

(** What can happen to the service: its two methods are called, or the
    backend signals the completion of an utterance.  What the backend does
    with the utterances it holds when it is told to cancel is its own
    affair, and shows in the events that follow. *)
Inductive event :=
| Speak (text : jsstring) (onEnd : bool) (voices : list voice)
| Stop
| End_ (j i : nat).

Definition step (w : world) (e : event) : world :=
  match e with
  | Speak text onEnd voices => speak text onEnd voices w
  | Stop => stopSpeaking w
  | End_ j i => utterance_end j i w
  end.

Definition run (es : list event) : world := fold_left step es boot.

(** The utterances handed to the backend for job [j], in call order. *)
Definition spoken (j : nat) (w : world) : list utterance :=
  flat_map (fun c => match c with
                     | speak_utterance j' _ u => if (j' =? j)%nat then [u] else []
                     | cancel => []
                     end) (calls w).

End Web.

(** ** The native client: [VoiceService] of [services/voiceService.ts] *)

Module Native.
Import JS.

(** Here the tag is a plain string, ['ru'] or ['en']; [None] is [null]. *)
Record group := { lang : option jsstring; text : jsstring }.

(** The four patterns are those of the web client, letter for letter. *)
Definition re_parenthesized : regex :=
  [chr 40; Star (fun c => negb (c =? 41)); chr 41].

Definition re_spaces : regex := plus is_space.

Definition re_blank : regex := [Bol] ++ plus is_space ++ [Eol].

Definition russian_letter (c : Z) : bool :=
  ((0x430 <=? c) && (c <=? 0x44F)) || ((0x410 <=? c) && (c <=? 0x42F))
  || (c =? 0x451) || (c =? 0x401).

Definition re_russian : regex := [One russian_letter].

Definition cleanedText (text : jsstring) : jsstring :=
  trim (replace_all re_spaces [32] (replace_all re_parenthesized [] text)).

Definition words (text : jsstring) : list jsstring :=
  split_captured re_spaces (cleanedText text).

Definition isRussian (w : jsstring) : bool := test re_russian w.

Record loop := { groups : list group; currentLang : option jsstring; buffer : jsstring }.

Definition start : loop := {| groups := []; currentLang := None; buffer := [] |}.

Definition visit (st : loop) (word : jsstring) : loop :=
  if test re_blank word then
    {| groups := groups st; currentLang := currentLang st;
       buffer := buffer st ++ word |}
  else
    let lang := if isRussian word then lit "ru" else lit "en" in
    match currentLang st with
    | None =>
        {| groups := groups st; currentLang := Some lang; buffer := word |}
    | Some current =>
        if same lang current then
          {| groups := groups st; currentLang := currentLang st;
             buffer := buffer st ++ word |}
        else
          {| groups := groups st ++ [{| lang := Some current; text := buffer st |}];
             currentLang := Some lang; buffer := word |}
    end.

Definition flush (st : loop) : list group :=
  match buffer st with
  | [] => groups st
  | _ :: _ => groups st ++ [{| lang := currentLang st; text := buffer st |}]
  end.

Definition group_words (ws : list jsstring) : list group :=
  flush (fold_left visit ws start).

Definition segment (text : jsstring) : list group := group_words (words text).

(** The calls received by [expo-speech]. *)
Inductive call :=
| stop
| speak_text (text language : jsstring) (rate pitch : number).

(** [group.lang === 'ru' ? 'ru-RU' : 'en-US'] *)
Definition language (g : group) : jsstring :=
  match lang g with
  | Some l => if same l (lit "ru") then lit "ru-RU" else lit "en-US"
  | None => lit "en-US"
  end.

(** [speak(text)]: [Speech.speak] returns at once, so the loop hands every
    group to the library, which queues them. *)
Definition speak (text : jsstring) : list call :=
  stop :: map (fun g => speak_text (Native.text g) (language g) (Fin 9 10) (Fin 1 1))
              (segment text).

End Native.

(** ** [GeminiService] of [src/services/geminiService.ts] *)

Module Gemini.
Import JS.

(** The values [JSON.parse] can produce, and [undefined]. *)
Inductive value :=
| VUndefined
| VNull
| VBool (b : bool)
| VNumber (x : number)
| VString (s : jsstring)
| VArray (xs : list value)
| VObject (props : list (jsstring * value)).

Inductive error :=
| Error (message : jsstring)
| SyntaxError
| TypeError.

(** How an evaluation ends; for an [async] function, how its promise settles. *)
Inductive completion (A : Type) :=
| Return (a : A)
| Throw (e : error).
Arguments Return {A} a.
Arguments Throw {A} e.

Definition bind {A B} (c : completion A) (k : A -> completion B) : completion B :=
  match c with
  | Return a => k a
  | Throw e => Throw e
  end.

Notation "x <- c ;; k" := (bind c (fun x => k))
  (at level 61, c at next level, right associativity).

(** [try { body } catch (error) { return fallback }] *)
Definition try_catch {A} (body : completion A) (fallback : A) : completion A :=
  match body with
  | Return a => Return a
  | Throw _ => Return fallback
  end.

(** The own property [key] of a parsed object, which has one entry per key. *)
Fixpoint own (key : jsstring) (props : list (jsstring * value)) : value :=
  match props with
  | [] => VUndefined
  | (k, v) :: rest => if same k key then v else own key rest
  end.

(** [v.key] for the keys the service reads: the field names of the two
    records, and [length]. *)
Definition get (v : value) (key : jsstring) : completion value :=
  match v with
  | VUndefined | VNull => Throw TypeError
  | VBool _ | VNumber _ => Return VUndefined
  | VString s =>
      Return (if same key (lit "length") then VNumber (of_length s) else VUndefined)
  | VArray xs =>
      Return (if same key (lit "length") then VNumber (of_length xs) else VUndefined)
  | VObject props => Return (own key props)
  end.

(** ToBoolean *)
Definition truthy (v : value) : bool :=
  match v with
  | VUndefined | VNull => false
  | VBool b => b
  | VNumber NaN => false
  | VNumber x => negb (is_zero x)
  | VString [] => false
  | VString (_ :: _) => true
  | VArray _ | VObject _ => true
  end.

(** [a || b] *)
Definition or_else (a b : value) : value := if truthy a then a else b.

(** [VictorAIResponse]; a field that is left out, or set to [undefined],
    reads as [VUndefined]. *)
Record VictorAIResponse := {
  response : value;
  corrections : value;
  vocabularyTip : value;
  pronunciationTip : value;
  followUpQuestion : value
}.

Record WordData := { phonetic : value; examples : value; translation : value }.

(** [/\{[\s\S]*\}/] *)
Definition any_unit (c : Z) : bool := is_space c || negb (is_space c).

Definition re_braces : regex := [chr 123; Star any_unit; chr 125].

(** [/```json\s*(\{[\s\S]*\})\s*```/]; the group is atoms 8, 9 and 10. *)
Definition re_fenced : regex :=
  chars "```json" ++ [Star is_space] ++ [chr 123; Star any_unit; chr 125]
  ++ [Star is_space] ++ chars "```".

(** Strategy 1 and strategy 2: what each pattern offers to the parser. *)
Definition strategy1 (responseText : jsstring) : option jsstring :=
  match_whole re_braces responseText.

Definition strategy2 (responseText : jsstring) : option jsstring :=
  match match_group re_fenced 8 3 responseText with
  | Some (_, inner) => Some inner
  | None => None
  end.

(** [jsonMatch[0]] when the two [match] calls are over, [None] for [null]. *)
Definition jsonMatch (responseText : jsstring) : option jsstring :=
  match strategy1 responseText with
  | Some whole => Some whole
  | None => strategy2 responseText
  end.

Definition default_response : value :=
  VString (lit "I'm here to help you learn Russian!").
Definition default_followUp : value :=
  VString (lit "What Russian phrase would you like to learn?").

(** The record returned by the [catch] clause. *)
Definition apology : VictorAIResponse :=
  {| response := VString (lit "I'm sorry, I had trouble processing that. Could you try again? I'm here to help you learn Russian!");
     corrections := VUndefined;
     vocabularyTip := VUndefined;
     pronunciationTip := VUndefined;
     followUpQuestion := VString (lit "What Russian words or phrases would you like to practice today?") |}.

Definition empty_word : WordData :=
  {| phonetic := VString []; examples := VArray []; translation := VString [] |}.

Section Service.

(** The built-ins the service relies on: [JSON.parse] ([None] when it
    throws its SyntaxError), and the conversions [>] applies to an operand
    that is a string, or an array or object (which may throw). *)
Variable JSON_parse : jsstring -> option value.
Variable StringToNumber : jsstring -> number.
Variable ObjectToNumber : value -> completion number.

(** [v > 0] *)
Definition greater_than_zero (v : value) : completion bool :=
  match v with
  | VUndefined => Return false
  | VNull => Return false
  | VBool b => Return b
  | VNumber x => Return (positive_number x)
  | VString s => Return (positive_number (StringToNumber s))
  | VArray _ | VObject _ => x <- ObjectToNumber v ;; Return (positive_number x)
  end.

Definition parse (json : jsstring) : completion value :=
  match JSON_parse json with
  | Some v => Return v
  | None => Throw SyntaxError
  end.

(** The object literal returned from the [try] block. *)
Definition victor_fields (parsedResponse : value) : completion VictorAIResponse :=
  r <- get parsedResponse (lit "response") ;;
  c <- get parsedResponse (lit "corrections") ;;
  nonempty <- (if truthy c
               then (n <- get c (lit "length") ;; greater_than_zero n)
               else Return false) ;;
  v <- get parsedResponse (lit "vocabularyTip") ;;
  p <- get parsedResponse (lit "pronunciationTip") ;;
  f <- get parsedResponse (lit "followUpQuestion") ;;
  Return {| response := or_else r default_response;
            corrections := if nonempty then c else VUndefined;
            vocabularyTip := or_else v VUndefined;
            pronunciationTip := or_else p VUndefined;
            followUpQuestion := or_else f default_followUp |}.

(** [generateVictorAIResponse].  [model] is [None] while the service is not
    initialised; otherwise it holds how
    [(await this.model.generateContent(prompt)).response.text()] ends. *)
Definition generateVictorAIResponse (model : option (completion jsstring))
  : completion VictorAIResponse :=
  match model with
  | None => Throw (Error (lit "Gemini AI not initialized. Please provide an API key."))
  | Some generated =>
      try_catch
        (responseText <- generated ;;
         match jsonMatch responseText with
         | None => Throw (Error (lit "Invalid response format from AI"))
         | Some json =>
             parsedResponse <- parse json ;;
             victor_fields parsedResponse
         end)
        apology
  end.

Definition word_fields (parsed : value) : completion WordData :=
  p <- get parsed (lit "phonetic") ;;
  e <- get parsed (lit "examples") ;;
  t <- get parsed (lit "translation") ;;
  Return {| phonetic := or_else p (VString []);
            examples := or_else e (VArray []);
            translation := or_else t (VString []) |}.

(** [fetchWordData] *)
Definition fetchWordData (model : option (completion jsstring))
  : completion WordData :=
  match model with
  | None => Throw (Error (lit "Gemini AI not initialized. Please provide an API key."))
  | Some generated =>
      try_catch
        (responseText <- generated ;;
         match jsonMatch responseText with
         | None => Throw (Error (lit "No JSON found in response: " ++ responseText))
         | Some json =>
             parsed <- parse json ;;
             word_fields parsed
         end)
        empty_word
  end.

End Service.

End Gemini.

(** ** Vocabulary of the statements *)

Module Terms.
Import JS.

Definition no_space (w : jsstring) : Prop := Forall (fun c => is_space c = false) w.

(** The text of a sequence of runs, glued in order. *)
Definition web_text (gs : list Web.group) : jsstring := concat (map Web.text gs).
Definition native_text (gs : list Native.group) : jsstring := concat (map Native.text gs).

(** The native tag of a web tag, and a web run under the native tags. *)
Definition tag (l : Web.Lang) : jsstring :=
  match l with
  | Web.ru_RU => lit "ru"
  | Web.en_US => lit "en"
  end.

Definition retag (g : Web.group) : Native.group :=
  {| Native.lang := option_map tag (Web.lang g); Native.text := Web.text g |}.

Definition retag_loop (st : Web.loop) : Native.loop :=
  {| Native.groups := map retag (Web.groups st);
     Native.currentLang := option_map tag (Web.currentLang st);
     Native.buffer := Web.buffer st |}.

(** The class of a token. *)
Definition token_lang (w : jsstring) : Web.Lang :=
  if existsb Web.russian_letter w then Web.ru_RU else Web.en_US.

(** "Привет, how are you?" *)
Definition privet_how_are_you : jsstring :=
  [0x41F; 0x440; 0x438; 0x432; 0x435; 0x442; 44] ++ lit " how are you?".

(** "Привет," and "Привет, " *)
Definition privet_comma : jsstring := [0x41F; 0x440; 0x438; 0x432; 0x435; 0x442; 44].
Definition privet_comma_space : jsstring := privet_comma ++ [32].

(** The groups of a job, each with its index. *)
Definition numbered (gs : list Web.group) : list (nat * Web.group) :=
  combine (seq 0 (length gs)) gs.

(** The backend call [speakGroup] makes for group [i] of the first job. *)
Definition issue (voices : list Web.voice) (ig : nat * Web.group) : Web.call :=
  Web.speak_utterance 0 (fst ig) (Web.utter voices (snd ig)).

(** The service after [speak(text, onEnd)] on a fresh page and the
    completion signals of the first [k] runs. *)
Definition stage (text : jsstring) (onEnd : bool) (voices : list Web.voice)
  (k : nat) : Web.world :=
  let gs := Web.segment text in
  {| Web.jobs := [{| Web.j_groups := gs; Web.j_onEnd := onEnd; Web.j_voices := voices |}];
     Web.calls := Web.cancel :: map (issue voices) (firstn (S k) (numbered gs));
     Web.ended := if (length gs <=? k)%nat && onEnd then [0%nat] else [];
     Web.listening := if (k <? length gs)%nat then [(0%nat, k)] else [] |}.

(** A completion signal, as an event. *)
Definition signal (u : nat * nat) : Web.event := Web.End_ (fst u) (snd u).

(** The runs of a text as the utterances the backend is to receive. *)
Definition utterances (voices : list Web.voice) (text : jsstring) : list Web.utterance :=
  map (Web.utter voices) (Web.segment text).

(** The first job after [stop]: nothing of it is pending but run 2, its
    [onEnd] has not run, and runs 1 and 2 are all the backend has seen. *)
Definition stopped (w : Web.world) : Prop :=
  (1 <= length (Web.jobs w))%nat
  /\ (forall i, In (0%nat, i) (Web.listening w) -> i = 1%nat)
  /\ ~ In 0%nat (Web.ended w)
  /\ (forall i u, In (Web.speak_utterance 0 i u) (Web.calls w) -> (i <= 1)%nat).

(** [speakGroup(2)] has run in the closure of the first [speak] call: its
    run 3 has been handed to the backend or, where the text has no run 3,
    its [onEnd] has run if the caller gave one. *)
Definition resumed (jb : Web.job) (w : Web.world) : Prop :=
  match nth_error (Web.j_groups jb) 2 with
  | Some g => In (Web.speak_utterance 0 2 (Web.utter (Web.j_voices jb) g)) (Web.calls w)
  | None => Web.j_onEnd jb = true -> In 0%nat (Web.ended w)
  end.

(** The closure a call of [speak] makes, if the event is one. *)
Definition closure (e : Web.event) : list Web.job :=
  match e with
  | Web.Speak text onEnd voices =>
      [{| Web.j_groups := Web.segment text; Web.j_onEnd := onEnd; Web.j_voices := voices |}]
  | _ => []
  end.

(** "ё привет (aside)  hello  мир": three runs. *)
Definition three_runs : jsstring :=
  [0x451; 32; 0x43F; 0x440; 0x438; 0x432; 0x435; 0x442; 32]
  ++ lit "(aside)  hello  " ++ [0x43C; 0x438; 0x440].

(** Both strategies fail on a completion: whatever either pattern offers
    is rejected by the parser. *)
Definition strategies_fail (JSON_parse : jsstring -> option Gemini.value)
  (responseText : jsstring) : Prop :=
  (forall json, Gemini.strategy1 responseText = Some json -> JSON_parse json = None)
  /\ (forall json, Gemini.strategy2 responseText = Some json -> JSON_parse json = None).

(** [a || undefined] *)
Definition or_undefined (v : Gemini.value) : Gemini.value :=
  if Gemini.truthy v then v else Gemini.VUndefined.

(** *** Sample completions *)

Definition quoted (s : string) : jsstring := [34] ++ lit s ++ [34].

(** [{"response":"Hi"}] *)
Definition hi_json : jsstring :=
  lit "{" ++ quoted "response" ++ lit ":" ++ quoted "Hi" ++ lit "}".
Definition hi_object : Gemini.value :=
  Gemini.VObject [(lit "response", Gemini.VString (lit "Hi"))].

(** [{"response":"Hi","corrections":"oops"}] *)
Definition wrong_corrections_json : jsstring :=
  lit "{" ++ quoted "response" ++ lit ":" ++ quoted "Hi" ++ lit ","
  ++ quoted "corrections" ++ lit ":" ++ quoted "oops" ++ lit "}".
Definition wrong_corrections_object : Gemini.value :=
  Gemini.VObject [(lit "response", Gemini.VString (lit "Hi"));
                  (lit "corrections", Gemini.VString (lit "oops"))].

(** [{"response":"Hi","vocabularyTip":"dom"}] *)
Definition wrong_tip_json : jsstring :=
  lit "{" ++ quoted "response" ++ lit ":" ++ quoted "Hi" ++ lit ","
  ++ quoted "vocabularyTip" ++ lit ":" ++ quoted "dom" ++ lit "}".
Definition wrong_tip_object : Gemini.value :=
  Gemini.VObject [(lit "response", Gemini.VString (lit "Hi"));
                  (lit "vocabularyTip", Gemini.VString (lit "dom"))].

(** A completion with a stray brace pair before the fenced block:
    [{oops} ```json {"response":"Hi"} ```] *)
Definition stray_braces : jsstring :=
  lit "{oops} ```json " ++ hi_json ++ lit " ```".

(** What strategy 1 offers on it: [{oops} ```json {"response":"Hi"}]. *)
Definition stray_candidate : jsstring := lit "{oops} ```json " ++ hi_json.

(** [JSON.parse] on the strings the samples hand to it: the three objects
    above are parsed, and [stray_candidate], like [plain words], is a
    syntax error. *)
Definition sample_parse (json : jsstring) : option Gemini.value :=
  if same json hi_json then Some hi_object
  else if same json wrong_corrections_json then Some wrong_corrections_object
  else if same json wrong_tip_json then Some wrong_tip_object
  else None.

(** The samples compare no string and no object with a number. *)
Definition sample_StringToNumber (s : jsstring) : number := NaN.
Definition sample_ObjectToNumber (v : Gemini.value) : Gemini.completion number :=
  Gemini.Return NaN.

End Terms.

(** ** Listening: the rest of the web [VoiceService] *)

Module Listen.
Import JS.

(** One entry of [event.results]: its [isFinal], and the [transcript] of
    its first alternative. *)
Record result := { isFinal : bool; transcript : jsstring }.

(** A call of one of the three callbacks handed to [startListening]; [call]
    numbers the [startListening] call they were handed to. *)
Inductive callback :=
| onResult (call : nat) (text : jsstring)
| onEnd (call : nat)
| onError (call : nat) (message : jsstring).

(** What happens at the recognizer: the service calls [start()] or
    [stop()], or one of the three listeners runs. *)
Inductive entry := did_start | did_stop | saw_result | saw_end | saw_error.

(** The service and what it has done: [recognition] tells whether
    [this.recognition] is an object, [handlers] which call's callbacks the
    listeners close over ([None] while the three properties are unset),
    [asked] counts the [startListening] calls. *)
Record ear := {
  recognition : bool;
  isListening : bool;
  handlers : option nat;
  asked : nat;
  journal : list entry;
  told : list callback
}.

Definition boot (supported : bool) : ear :=
  {| recognition := supported; isListening := false; handlers := None;
     asked := 0; journal := []; told := [] |}.

(** [startListening(onResult, onEnd, onError)] *)
Definition startListening (w : ear) : ear :=
  if negb (recognition w) then
    {| recognition := recognition w; isListening := isListening w;
       handlers := handlers w; asked := S (asked w); journal := journal w;
       told := told w ++ [onError (asked w) (lit "Speech recognition not supported")] |}
  else if isListening w then
    {| recognition := recognition w; isListening := isListening w;
       handlers := handlers w; asked := S (asked w); journal := journal w;
       told := told w |}
  else
    {| recognition := recognition w; isListening := true;
       handlers := Some (asked w); asked := S (asked w);
       journal := journal w ++ [did_start]; told := told w |}.

(** [stopListening()] *)
Definition stopListening (w : ear) : ear :=
  if recognition w && isListening w then
    {| recognition := recognition w; isListening := false;
       handlers := handlers w; asked := asked w;
       journal := journal w ++ [did_stop]; told := told w |}
  else w.

(** [get isCurrentlyListening()] *)
Definition isCurrentlyListening (w : ear) : bool := isListening w.

(** The loop of the [onresult] listener: [finalTranscript] once
    [i] has run from [event.resultIndex] to the end of [event.results]. *)
Definition finalTranscript (resultIndex : nat) (results : list result) : jsstring :=
  fold_left (fun acc r => if isFinal r then acc ++ transcript r else acc)
            (skipn resultIndex results) [].

(** The [onresult] listener. *)
Definition on_result (resultIndex : nat) (results : list result) (w : ear) : ear :=
  match handlers w with
  | None => w
  | Some k =>
      {| recognition := recognition w; isListening := isListening w;
         handlers := handlers w; asked := asked w;
         journal := journal w ++ [saw_result];
         told := told w ++
                 match finalTranscript resultIndex results with
                 | [] => []
                 | _ :: _ => [onResult k (trim (finalTranscript resultIndex results))]
                 end |}
  end.

(** The [onend] listener. *)
Definition on_end (w : ear) : ear :=
  match handlers w with
  | None => w
  | Some k =>
      {| recognition := recognition w; isListening := false;
         handlers := handlers w; asked := asked w;
         journal := journal w ++ [saw_end]; told := told w ++ [onEnd k] |}
  end.

(** The [onerror] listener; [error] is [event.error]. *)
Definition on_error (error : jsstring) (w : ear) : ear :=
  match handlers w with
  | None => w
  | Some k =>
      {| recognition := recognition w; isListening := false;
         handlers := handlers w; asked := asked w;
         journal := journal w ++ [saw_error];
         told := told w ++ [onError k (lit "Speech recognition error: " ++ error)] |}
  end.

Inductive event :=
| StartListening
| StopListening
| Result (resultIndex : nat) (results : list result)
| Ended
| Failed (error : jsstring).

Definition step (w : ear) (e : event) : ear :=
  match e with
  | StartListening => startListening w
  | StopListening => stopListening w
  | Result resultIndex results => on_result resultIndex results w
  | Ended => on_end w
  | Failed error => on_error error w
  end.

Definition run (supported : bool) (es : list event) : ear :=
  fold_left step es (boot supported).

End Listen.

(** ** Further vocabulary of the statements *)

Module Notions.
Import JS.

(** White space in a cleaned text: a single U+0020 with a unit that is no
    white space right behind it. *)
Fixpoint tidy (s : jsstring) : Prop :=
  match s with
  | [] => True
  | c :: t =>
      (is_space c = true ->
       c = 32 /\ match t with [] => True | d :: _ => is_space d = false end)
      /\ tidy t
  end.

(** The length of the run of units of a class a string starts with. *)
Fixpoint span (p : Z -> bool) (s : jsstring) : nat :=
  match s with
  | c :: s' => if p c then S (span p s') else 0%nat
  | [] => 0%nat
  end.

(** No opening parenthesis has a closing one anywhere behind it. *)
Definition no_aside (s : jsstring) : Prop :=
  forall pre post, s = pre ++ 40 :: post -> ~ In 41 post.

(** A token: a word that is not empty and holds no white space. *)
Definition token (w : jsstring) : Prop := w <> [] /\ Terms.no_space w.

(** What follows the first token in the words of a cleaned text: a single
    space and a token, again and again. *)
Inductive spaced : list jsstring -> Prop :=
| spaced_nil : spaced []
| spaced_cons (tok : jsstring) (rest : list jsstring) :
    token tok -> spaced rest -> spaced ([32] :: tok :: rest).

Definition has_russian (s : jsstring) : bool := existsb Web.russian_letter s.

(** A run as the loop builds it: not empty, starting with a unit that is
    no white space, tagged, and Russian exactly when it holds a Russian
    letter. *)
Definition sound_run (g : Web.group) : Prop :=
  (exists c rest, Web.text g = c :: rest /\ is_space c = false)
  /\ Web.lang g = Some (if has_russian (Web.text g) then Web.ru_RU else Web.en_US).

(** Neighbouring runs carry different tags. *)
Fixpoint alternate (gs : list Web.group) : Prop :=
  match gs with
  | g :: (h :: _) as rest => Web.lang g <> Web.lang h /\ alternate rest
  | _ => True
  end.

(** The tag of the last run, if there is one. *)
Definition last_lang (gs : list Web.group) : option (option Web.Lang) :=
  match rev gs with
  | g :: _ => Some (Web.lang g)
  | [] => None
  end.

(** The grouping loop with a run open: the runs pushed so far are sound and
    alternate, the buffer starts with a unit that is no white space, the
    open tag is the class of the buffer and differs from the tag pushed
    last. *)
Definition steady (st : Web.loop) : Prop :=
  Forall sound_run (Web.groups st) /\ alternate (Web.groups st)
  /\ (exists c rest, Web.buffer st = c :: rest /\ is_space c = false)
  /\ Web.currentLang st
     = Some (if has_russian (Web.buffer st) then Web.ru_RU else Web.en_US)
  /\ last_lang (Web.groups st) <> Some (Web.currentLang st).

(** The language prefix [getVoice] looks for. *)
Definition wanted (l : option Web.Lang) : jsstring :=
  match l with
  | Some Web.ru_RU => lit "ru"
  | _ => lit "en"
  end.

(** The utterances handed over for job [j], each with its index, in call
    order. *)
Definition handed (j : nat) (w : Web.world) : list (nat * Web.utterance) :=
  flat_map (fun c => match c with
                     | Web.speak_utterance j' i u => if (j' =? j)%nat then [(i, u)] else []
                     | Web.cancel => []
                     end) (Web.calls w).

(** The runs of a job as utterances, each with its index. *)
Definition planned (jb : Web.job) : list (nat * Web.utterance) :=
  combine (seq 0 (length (Web.j_groups jb)))
          (map (Web.utter (Web.j_voices jb)) (Web.j_groups jb)).

(** What holds of the service whatever has happened to it: calls,
    listeners and completions belong to jobs that exist; no [onEnd] has
    run twice; a job with an utterance out has not ended and has one
    utterance out only; every job speaks the runs of a text; and what has
    been handed over for a job are its first runs, up to the one that is
    out, and all of them once the job has ended. *)
Definition tracked (w : Web.world) : Prop :=
  (forall j i u, In (Web.speak_utterance j i u) (Web.calls w) ->
                 (j < length (Web.jobs w))%nat)
  /\ (forall j i, In (j, i) (Web.listening w) -> (j < length (Web.jobs w))%nat)
  /\ (forall j, In j (Web.ended w) -> (j < length (Web.jobs w))%nat)
  /\ NoDup (Web.ended w)
  /\ (forall j i, In (j, i) (Web.listening w) -> ~ In j (Web.ended w))
  /\ (forall j i i', In (j, i) (Web.listening w) -> In (j, i') (Web.listening w) -> i = i')
  /\ (forall jb, In jb (Web.jobs w) -> exists text, Web.j_groups jb = Web.segment text)
  /\ (forall j jb, nth_error (Web.jobs w) j = Some jb ->
        exists m, handed j w = firstn m (planned jb)
                  /\ (forall i, In (j, i) (Web.listening w) -> S i = m)
                  /\ (In j (Web.ended w) -> handed j w = planned jb)).

(** Whether a session is open after what the journal tells. *)
Fixpoint session_open (now : bool) (j : list Listen.entry) : bool :=
  match j with
  | [] => now
  | Listen.did_start :: j' => session_open true j'
  | Listen.saw_result :: j' => session_open now j'
  | _ :: j' => session_open false j'
  end.

Definition is_start (e : Listen.event) : bool :=
  match e with Listen.StartListening => true | _ => false end.

(** The final results of an event, from its [resultIndex] on, glued. *)
Definition finals (resultIndex : nat) (results : list Listen.result) : jsstring :=
  concat (map Listen.transcript (filter Listen.isFinal (skipn resultIndex results))).

(** [{"translation":"house"}], and [JSON.parse] on it. *)
Definition house_json : jsstring :=
  lit "{" ++ Terms.quoted "translation" ++ lit ":" ++ Terms.quoted "house" ++ lit "}".

Definition house_parse (json : jsstring) : option Gemini.value :=
  if same json house_json
  then Some (Gemini.VObject [(lit "translation", Gemini.VString (lit "house"))])
  else None.

(** The [speak] calls of a sequence of events, in order: the text of each
    and the voices [getVoices()] answered in it. *)
Definition speak_calls (es : list Web.event) : list (jsstring * list Web.voice) :=
  flat_map (fun e => match e with
                     | Web.Speak text _ voices => [(text, voices)]
                     | _ => []
                     end) es.

Definition ends_clean (s : jsstring) : Prop :=
  (forall c rest, s = c :: rest -> is_space c = false)
  /\ (forall c front, s = front ++ [c] -> is_space c = false).

End Notions.

(** * Properties *)

(** ** The string library on the patterns of the services *)

Module JSFacts.
Import JS Terms.

Lemma exec_bol (r : regex) (s : jsstring) :
  exec (Bol :: r) true s = option_map (cons 0%nat) (exec r true s).
Proof. reflexivity. Qed.

Lemma exec_one_cons (p : Z -> bool) (r : regex) (b : bool) (c : Z) (s : jsstring) :
  exec (One p :: r) b (c :: s) =
  if p c then option_map (cons 1%nat) (exec r false s) else None.
Proof. reflexivity. Qed.

Lemma exec_star_nil (p : Z -> bool) (r : regex) (b : bool) :
  exec (Star p :: r) b [] = option_map (cons 0%nat) (exec r b []).
Proof. reflexivity. Qed.

Lemma exec_star_cons (p : Z -> bool) (r : regex) (b : bool) (c : Z) (s : jsstring) :
  exec (Star p :: r) b (c :: s) =
  if p c then
    match exec (Star p :: r) false s with
    | Some (n :: ls) => Some (S n :: ls)
    | _ => option_map (cons 0%nat) (exec r b (c :: s))
    end
  else option_map (cons 0%nat) (exec r b (c :: s)).
Proof. reflexivity. Qed.

Lemma star_last (p : Z -> bool) (b : bool) (s : jsstring) :
  exists n, exec [Star p] b s = Some [n].
Proof.
  revert b; induction s as [|c s IH]; intros b; simpl.
  - now exists 0%nat.
  - destruct (p c).
    + destruct (IH false) as [n Hn]. simpl in Hn. rewrite Hn. now exists (S n).
    + now exists 0%nat.
Qed.

(** [p+] consumes at least the unit it starts with, and fails without one. *)
Lemma exec_plus (p : Z -> bool) (b : bool) (s : jsstring) :
  match s with
  | c :: _ => if p c then exists n, exec (plus p) b s = Some [1%nat; n]
              else exec (plus p) b s = None
  | [] => exec (plus p) b s = None
  end.
Proof.
  destruct s as [|c s]; [reflexivity|].
  unfold plus. cbn [exec]. destruct (p c); [|reflexivity].
  destruct (star_last p false s) as [n Hn]. cbn [exec] in Hn.
  rewrite Hn. now exists n.
Qed.

Lemma exec_plus_none (p : Z -> bool) (b : bool) (c : Z) (s : jsstring) :
  p c = false -> exec (plus p) b (c :: s) = None.
Proof.
  intros H. generalize (exec_plus p b (c :: s)). now rewrite H.
Qed.

Lemma exec_plus_some (p : Z -> bool) (b : bool) (c : Z) (s : jsstring) :
  p c = true -> exists n, exec (plus p) b (c :: s) = Some [1%nat; n].
Proof.
  intros H. generalize (exec_plus p b (c :: s)). now rewrite H.
Qed.

(** A pattern that opens with [^] matches nowhere but at the start. *)
Lemma search_bol_later (r : regex) (s : jsstring) :
  search_from (Bol :: r) false s = None.
Proof.
  induction s as [|c s IH]; cbn [search_from exec]; [reflexivity|].
  now rewrite IH.
Qed.

(** [split] on any pattern only cuts: gluing the parts gives the subject. *)
Lemma split_from_concat (r : regex) (s : jsstring) :
  forall b skip piece,
    concat (split_from r b skip piece s) = piece ++ skipn skip s.
Proof.
  induction s as [|c s IH]; intros b skip piece.
  - simpl. now rewrite skipn_nil, app_nil_r.
  - cbn [split_from]. destruct skip as [|k].
    + destruct (exec r b (c :: s)) as [ls|].
      * destruct (total ls) as [|k].
        -- destruct piece as [|x piece].
           ++ now rewrite IH.
           ++ cbn [concat]. rewrite IH. reflexivity.
        -- cbn [concat]. rewrite IH. cbn [firstn skipn app].
           now rewrite firstn_skipn.
      * rewrite IH. cbn [skipn]. now rewrite <- app_assoc.
    + rewrite IH. reflexivity.
Qed.

Lemma split_captured_concat (r : regex) (s : jsstring) :
  concat (split_captured r s) = s.
Proof.
  destruct s as [|c s].
  - unfold split_captured. now destruct (exec r true []).
  - unfold split_captured. now rewrite split_from_concat.
Qed.

(** Splitting at white space starts with a part that holds none. *)
Lemma split_spaces_head (s : jsstring) :
  forall b skip piece,
    no_space piece ->
    exists w rest,
      split_from (plus is_space) b skip piece s = w :: rest /\ no_space w.
Proof.
  induction s as [|c s IH]; intros b skip piece Hp.
  - now exists piece, [].
  - cbn [split_from]. destruct skip as [|k]; [|now apply IH].
    destruct (is_space c) eqn:Hc.
    + destruct (exec_plus_some is_space b c s Hc) as [n Hn]. rewrite Hn.
      cbn [total fold_right Nat.add]. now eexists _, _.
    + rewrite (exec_plus_none is_space b c s Hc). apply IH.
      apply Forall_app; split; [assumption|]. now constructor.
Qed.

Lemma split_captured_spaces_head (s : jsstring) :
  exists w rest, split_captured (plus is_space) s = w :: rest /\ no_space w.
Proof.
  destruct s as [|c s].
  - exists [], []. split; [reflexivity|constructor].
  - unfold split_captured. apply split_spaces_head. constructor.
Qed.

(** [/^\s+$/] accepts the strings made of white space, and not the empty one. *)
Lemma exec_spaces_to_end (b : bool) (s : jsstring) :
  exec [Star is_space; Eol] b s =
  if forallb is_space s then Some [length s; 0%nat] else None.
Proof.
  revert b; induction s as [|c s IH]; intros b; [reflexivity|].
  rewrite exec_star_cons. cbn [forallb length].
  destruct (is_space c); [|reflexivity].
  rewrite IH. cbn [andb]. now destruct (forallb is_space s).
Qed.

Lemma test_blank (w : jsstring) :
  test ([Bol] ++ plus is_space ++ [Eol]) w =
  match w with [] => false | _ :: _ => forallb is_space w end.
Proof.
  unfold test, search. destruct w as [|c w]; [reflexivity|].
  cbn [app plus search_from]. rewrite search_bol_later.
  rewrite exec_bol, exec_one_cons. cbn [forallb].
  destruct (is_space c); [|reflexivity].
  rewrite exec_spaces_to_end. cbn [andb].
  now destruct (forallb is_space w).
Qed.

Lemma test_blank_no_space (w : jsstring) :
  no_space w -> test ([Bol] ++ plus is_space ++ [Eol]) w = false.
Proof.
  intros H. rewrite test_blank. destruct H as [|c w Hc Hw]; [reflexivity|].
  cbn [forallb]. now rewrite Hc.
Qed.

(** A one-class pattern is found where the subject holds a unit of the class. *)
Lemma test_class (p : Z -> bool) (w : jsstring) :
  test [One p] w = existsb p w.
Proof.
  assert (H : forall b, match search_from [One p] b w with
                         | Some _ => true
                         | None => false
                         end = existsb p w).
  { induction w as [|c w IH]; intros b; [reflexivity|].
    cbn [search_from existsb]. rewrite exec_one_cons.
    destruct (p c); [reflexivity|].
    cbn [orb]. specialize (IH false).
    destruct (search_from [One p] false w) as [[i ls]|]; exact IH. }
  apply H.
Qed.

End JSFacts.

(** ** Segmentation *)

Module SegmentFacts.
Import JS Terms JSFacts.

Lemma web_text_app (a b : list Web.group) :
  web_text (a ++ b) = web_text a ++ web_text b.
Proof. unfold web_text. now rewrite map_app, concat_app. Qed.

(** Once a run is open, an iteration only appends to what has been read. *)
Lemma visit_keeps_text (st : Web.loop) (w : jsstring) :
  Web.currentLang st <> None ->
  web_text (Web.groups (Web.visit st w)) ++ Web.buffer (Web.visit st w)
  = web_text (Web.groups st) ++ Web.buffer st ++ w
  /\ Web.currentLang (Web.visit st w) <> None.
Proof.
  intros Hopen. unfold Web.visit.
  destruct (test Web.re_blank w); cbn [Web.groups Web.buffer Web.currentLang].
  - now split.
  - destruct (Web.currentLang st) as [current|] eqn:Hcur; [|contradiction].
    destruct (Web.Lang_eqb _ current);
      cbn [Web.groups Web.buffer Web.currentLang].
    + now split.
    + split; [|discriminate]. rewrite web_text_app. unfold web_text at 2.
      cbn [map concat Web.text]. now rewrite app_nil_r, <- app_assoc.
Qed.

Lemma loop_keeps_text (ws : list jsstring) :
  forall st,
    Web.currentLang st <> None ->
    web_text (Web.groups (fold_left Web.visit ws st))
      ++ Web.buffer (fold_left Web.visit ws st)
    = web_text (Web.groups st) ++ Web.buffer st ++ concat ws.
Proof.
  induction ws as [|w ws IH]; intros st Hopen; cbn [fold_left concat].
  - now rewrite app_nil_r.
  - destruct (visit_keeps_text st w Hopen) as [Heq Hopen'].
    rewrite (IH _ Hopen'), app_assoc, Heq. now rewrite <- !app_assoc.
Qed.

Lemma flush_text (st : Web.loop) :
  web_text (Web.flush st) = web_text (Web.groups st) ++ Web.buffer st.
Proof.
  unfold Web.flush. destruct (Web.buffer st) as [|c b] eqn:Hb.
  - now rewrite app_nil_r.
  - rewrite web_text_app. unfold web_text at 2.
    cbn [map concat Web.text]. now rewrite app_nil_r.
Qed.

Lemma visit_first (w : jsstring) :
  no_space w ->
  Web.visit Web.start w
  = {| Web.groups := []; Web.currentLang := Some (if Web.isRussian w then Web.ru_RU else Web.en_US);
       Web.buffer := w |}.
Proof.
  intros Hw. unfold Web.visit, Web.re_blank.
  now rewrite (test_blank_no_space w Hw).
Qed.

(** The loop loses nothing when the first word is not white space. *)
Lemma group_words_text (w : jsstring) (ws : list jsstring) :
  no_space w -> web_text (Web.group_words (w :: ws)) = concat (w :: ws).
Proof.
  intros Hw. unfold Web.group_words. cbn [fold_left].
  rewrite flush_text, loop_keeps_text; rewrite (visit_first w Hw); [reflexivity|discriminate].
Qed.

Lemma web_round_trip (text : jsstring) :
  web_text (Web.segment text) = Web.cleanedText text.
Proof.
  unfold Web.segment, Web.words.
  destruct (split_captured_spaces_head (Web.cleanedText text)) as (w & rest & Hsplit & Hw).
  unfold Web.re_spaces. rewrite Hsplit, (group_words_text w rest Hw), <- Hsplit.
  apply split_captured_concat.
Qed.

(** The two loops run in step. *)
Lemma same_refl (a : jsstring) : same a a = true.
Proof. induction a as [|x a IH]; [reflexivity|]. cbn. now rewrite Z.eqb_refl. Qed.

Lemma same_tag (a b : Web.Lang) : same (tag a) (tag b) = Web.Lang_eqb a b.
Proof. now destruct a, b. Qed.

Lemma visit_retag (st : Web.loop) (w : jsstring) :
  Native.visit (retag_loop st) w = retag_loop (Web.visit st w).
Proof.
  unfold Native.visit, Web.visit.
  change (test Native.re_blank w) with (test Web.re_blank w).
  change (Native.isRussian w) with (Web.isRussian w).
  destruct (test Web.re_blank w); [reflexivity|].
  unfold retag_loop at 1. cbn [Native.currentLang Native.groups Native.buffer].
  destruct (Web.currentLang st) as [current|] eqn:Hcur; cbn [option_map].
  - change (if Web.isRussian w then lit "ru" else lit "en")
      with (if Web.isRussian w then tag Web.ru_RU else tag Web.en_US).
    assert (Ht : (if Web.isRussian w then tag Web.ru_RU else tag Web.en_US)
                 = tag (if Web.isRussian w then Web.ru_RU else Web.en_US))
      by now destruct (Web.isRussian w).
    rewrite Ht, same_tag.
    destruct (Web.Lang_eqb _ current); unfold retag_loop;
      cbn [Web.groups Web.currentLang Web.buffer option_map].
    + now rewrite Hcur.
    + now rewrite map_app.
  - unfold retag_loop. cbn [Web.groups Web.currentLang Web.buffer option_map].
    now destruct (Web.isRussian w).
Qed.

Lemma loop_retag (ws : list jsstring) :
  forall st,
    fold_left Native.visit ws (retag_loop st) = retag_loop (fold_left Web.visit ws st).
Proof.
  induction ws as [|w ws IH]; intros st; cbn [fold_left]; [reflexivity|].
  now rewrite visit_retag, IH.
Qed.

Lemma flush_retag (st : Web.loop) :
  Native.flush (retag_loop st) = map retag (Web.flush st).
Proof.
  unfold Native.flush, Web.flush, retag_loop.
  cbn [Native.buffer Native.groups Native.currentLang].
  destruct (Web.buffer st) eqn:Hb; [reflexivity|].
  rewrite map_app. reflexivity.
Qed.

Lemma native_is_web (text : jsstring) :
  Native.segment text = map retag (Web.segment text).
Proof.
  unfold Native.segment, Web.segment, Native.group_words, Web.group_words.
  change (Native.words text) with (Web.words text).
  change Native.start with (retag_loop Web.start).
  now rewrite loop_retag, flush_retag.
Qed.

Lemma native_round_trip (text : jsstring) :
  native_text (Native.segment text) = Native.cleanedText text.
Proof.
  rewrite native_is_web. unfold native_text. rewrite map_map.
  change (map (fun g => Native.text (retag g)) (Web.segment text))
    with (map Web.text (Web.segment text)).
  apply web_round_trip.
Qed.

Lemma is_russian (w : jsstring) : Web.isRussian w = existsb Web.russian_letter w.
Proof. apply test_class. Qed.

(** No run is pushed with the [null] tag. *)
Lemma visit_tagged (st : Web.loop) (w : jsstring) :
  Forall (fun g => Web.lang g <> None) (Web.groups st) ->
  Forall (fun g => Web.lang g <> None) (Web.groups (Web.visit st w)).
Proof.
  intros H. unfold Web.visit.
  destruct (test Web.re_blank w); [exact H|].
  destruct (Web.currentLang st) as [current|]; [|exact H].
  destruct (Web.Lang_eqb _ current); [exact H|].
  cbn [Web.groups]. apply Forall_app. split; [exact H|].
  constructor; [discriminate|constructor].
Qed.

Lemma loop_tagged (ws : list jsstring) :
  forall st,
    Web.currentLang st <> None ->
    Forall (fun g => Web.lang g <> None) (Web.groups st) ->
    Forall (fun g => Web.lang g <> None) (Web.flush (fold_left Web.visit ws st)).
Proof.
  induction ws as [|w ws IH]; intros st Hopen Hall; cbn [fold_left].
  - unfold Web.flush. destruct (Web.buffer st); [exact Hall|].
    apply Forall_app. split; [exact Hall|]. constructor; [exact Hopen|constructor].
  - apply IH.
    + apply (visit_keeps_text st w Hopen).
    + now apply visit_tagged.
Qed.

Lemma segment_tagged (text : jsstring) :
  Forall (fun g => Web.lang g <> None) (Web.segment text).
Proof.
  unfold Web.segment, Web.words, Web.group_words.
  destruct (split_captured_spaces_head (Web.cleanedText text)) as (w & rest & Hsplit & Hw).
  unfold Web.re_spaces. rewrite Hsplit. cbn [fold_left].
  rewrite (visit_first w Hw). apply loop_tagged; [discriminate|constructor].
Qed.

End SegmentFacts.

(** ** Cleaning *)

Module CleanFacts.
Import JS Terms JSFacts.

(** A pattern whose first unit occurs nowhere replaces nothing. *)
Lemma replace_absent (p : Z -> bool) (r : regex) (by_ s : jsstring) :
  Forall (fun c => p c = false) s ->
  forall b, replace_from (One p :: r) by_ b 0 s = s.
Proof.
  induction 1 as [|c s Hc Hs IH]; intros b; [reflexivity|].
  cbn [replace_from]. rewrite exec_one_cons, Hc. now rewrite IH.
Qed.

Lemma star_all (p : Z -> bool) (s : jsstring) :
  Forall (fun c => p c = true) s ->
  forall b, exec [Star p] b s = Some [length s].
Proof.
  induction 1 as [|c s Hc Hs IH]; intros b; [reflexivity|].
  rewrite exec_star_cons, Hc, IH. reflexivity.
Qed.

Lemma replace_skip_all (r : regex) (by_ s : jsstring) :
  exec r false [] = None ->
  forall b, replace_from r by_ b (S (length s)) (0 :: s) = [].
Proof.
  intros Hr. induction s as [|c s IH]; intros b.
  - cbn [replace_from length]. now rewrite Hr.
  - cbn [replace_from length] in *. apply (IH false).
Qed.

(** A text of white space is cleaned to the empty string. *)
Lemma clean_blank (text : jsstring) :
  Forall (fun c => is_space c = true) text -> Web.cleanedText text = [].
Proof.
  intros Hall. unfold Web.cleanedText, replace_all, Web.re_parenthesized, chr.
  rewrite (replace_absent (Z.eqb 40)).
  2:{ eapply Forall_impl; [|exact Hall]. intros c Hc. cbv beta in *.
      destruct (Z.eqb_spec 40 c) as [<-|]; [discriminate Hc|reflexivity]. }
  destruct Hall as [|c s Hc Hs]; [reflexivity|].
  unfold Web.re_spaces, plus. cbn [replace_from].
  rewrite exec_one_cons, Hc, (star_all is_space s Hs).
  cbn [option_map total fold_right Nat.add].
  rewrite Nat.add_0_r.
  destruct s as [|c' s'].
  - reflexivity.
  - cbn [length]. 
    assert (Hskip : replace_from [One is_space; Star is_space] [32] false
                      (S (length s')) (c' :: s') = []).
    { generalize (replace_skip_all [One is_space; Star is_space] [32] s' eq_refl false).
      cbn [replace_from]. trivial. }
    rewrite Hskip. reflexivity.
Qed.

End CleanFacts.

(** ** The synthesis phase *)

Module SpeakFacts.
Import JS Terms.

Section OneJob.

Variable text : jsstring.
Variable onEnd : bool.
Variable voices : list Web.voice.

Lemma nth_numbered (l : list Web.group) (a i : nat) (g : Web.group) :
  nth_error l i = Some g ->
  nth_error (combine (seq a (length l)) l) i = Some ((a + i)%nat, g).
Proof.
  revert a i; induction l as [|x l IH]; intros a [|i] H; try discriminate.
  - injection H as ->. cbn. now rewrite Nat.add_0_r.
  - cbn in *. rewrite (IH (S a) i H). now rewrite Nat.add_succ_r.
Qed.

Lemma firstn_next {A} (l : list A) (m : nat) (x : A) :
  nth_error l m = Some x -> firstn (S m) l = firstn m l ++ [x].
Proof.
  revert m; induction l as [|y l IH]; intros [|m] H; try discriminate.
  - now injection H as ->.
  - cbn [firstn app]. cbn in H. now rewrite <- (IH m H).
Qed.

Lemma numbered_length (l : list Web.group) : length (numbered l) = length l.
Proof. unfold numbered. rewrite length_combine, length_seq. apply Nat.min_id. Qed.

Lemma numbered_index (l : list Web.group) :
  forall a m i g, In (i, g) (firstn m (combine (seq a (length l)) l)) -> (i < a + m)%nat.
Proof.
  induction l as [|x l IH]; intros a [|m] i g H; cbn in H; try contradiction.
  destruct H as [H|H].
  - injection H as <- _. lia.
  - apply IH in H. lia.
Qed.

Lemma numbered_groups (l : list Web.group) :
  forall a m, map snd (firstn m (combine (seq a (length l)) l)) = firstn m l.
Proof.
  induction l as [|x l IH]; intros a [|m]; cbn; try reflexivity.
  now rewrite IH.
Qed.

(** [speak] on a fresh page hands over the first run, or ends at once. *)
Lemma speak_boot : Web.speak text onEnd voices Web.boot = stage text onEnd voices 0.
Proof.
  unfold stage, Web.speak, numbered.
  destruct (Web.segment text) as [|g l]; cbn.
  - now destruct onEnd.
  - reflexivity.
Qed.

(** A completion signal moves the job on when it is the one of the run in
    progress, and is no event of the job otherwise. *)
Lemma end_stage (k j i : nat) :
  Web.utterance_end j i (stage text onEnd voices k) =
  if (j =? 0)%nat && (i =? k)%nat && (k <? length (Web.segment text))%nat
  then stage text onEnd voices (S k) else stage text onEnd voices k.
Proof.
  unfold Web.utterance_end, stage. set (gs := Web.segment text).
  cbn [Web.listening].
  destruct (k <? length gs)%nat eqn:Hk.
  2:{ cbn [existsb]. now rewrite andb_false_r. }
  cbn [existsb]. unfold Web.same_utterance at 1. cbn [fst snd].
  rewrite orb_false_r, andb_true_r.
  destruct ((j =? 0)%nat && (i =? k)%nat) eqn:Hji; [|reflexivity].
  apply andb_true_iff in Hji. destruct Hji as [Hj Hi].
  apply Nat.eqb_eq in Hj, Hi. subst j i.
  apply Nat.ltb_lt in Hk.
  cbn [filter Web.jobs Web.calls Web.ended]. unfold Web.same_utterance.
  cbn [fst snd]. rewrite !Nat.eqb_refl. cbn [andb negb].
  unfold Web.speakGroup. cbn [Web.jobs nth_error Web.j_groups Web.j_onEnd Web.j_voices
                              Web.calls Web.ended Web.listening].
  rewrite Nat.add_1_r.
  destruct (nth_error gs (S k)) as [g|] eqn:Hg.
  - assert (Hlt : (S k < length gs)%nat) by (apply nth_error_Some; congruence).
    rewrite (firstn_next (numbered gs) (S k) (S k, g)).
    2:{ unfold numbered. now rewrite (nth_numbered gs 0 (S k) g Hg). }
    rewrite map_app. cbn [map app].
    replace (length gs <=? k)%nat with false by (symmetry; apply Nat.leb_gt; lia).
    replace (length gs <=? S k)%nat with false by (symmetry; apply Nat.leb_gt; lia).
    replace (S k <? length gs)%nat with true by (symmetry; apply Nat.ltb_lt; lia).
    reflexivity.
  - apply nth_error_None in Hg.
    replace (length gs <=? k)%nat with false by (symmetry; apply Nat.leb_gt; lia).
    replace (length gs <=? S k)%nat with true by (symmetry; apply Nat.leb_le; lia).
    replace (S k <? length gs)%nat with false by (symmetry; apply Nat.ltb_ge; lia).
    rewrite (firstn_all2 (n := S (S k))) by (rewrite numbered_length; lia).
    rewrite (firstn_all2 (n := S k)) by (rewrite numbered_length; lia).
    unfold Web.run_onEnd. now destruct onEnd.
Qed.

(** Whatever signals arrive, the job is at the stage of the last run whose
    predecessors have all been signalled complete. *)
Lemma signals_stage (signals : list (nat * nat)) :
  forall k0,
  exists k,
    (k0 <= k <= k0 + length signals)%nat
    /\ (forall i, (k0 <= i < k)%nat -> In (0%nat, i) signals)
    /\ fold_left Web.step (map signal signals) (stage text onEnd voices k0)
       = stage text onEnd voices k.
Proof.
  induction signals as [|[j i] signals IH]; intros k0.
  - exists k0. cbn. repeat split; lia.
  - cbn [map fold_left signal fst snd Web.step]. rewrite end_stage.
    destruct ((j =? 0)%nat && (i =? k0)%nat && (k0 <? length (Web.segment text))%nat) eqn:Hc.
    + apply andb_true_iff in Hc. destruct Hc as [Hc _].
      apply andb_true_iff in Hc. destruct Hc as [Hj Hi].
      apply Nat.eqb_eq in Hj, Hi. subst j i.
      destruct (IH (S k0)) as (k & Hk & Hin & Hrun).
      exists k. cbn [length]. repeat split; try lia; [|exact Hrun].
      intros i Hi. destruct (Nat.eq_dec i k0) as [->|Hne]; [now left|].
      right. apply Hin. lia.
    + destruct (IH k0) as (k & Hk & Hin & Hrun).
      exists k. cbn [length]. repeat split; try lia; [|exact Hrun].
      intros i' Hi'. right. now apply Hin.
Qed.

(** Signalled in order, the runs are worked off one per signal. *)
Lemma ordered_signals (m : nat) :
  forall k0,
    fold_left Web.step (map (Web.End_ 0) (seq k0 m)) (stage text onEnd voices k0)
    = stage text onEnd voices
        (if (k0 <? length (Web.segment text))%nat
         then Nat.min (k0 + m) (length (Web.segment text)) else k0).
Proof.
  set (gs := Web.segment text). set (st := stage text onEnd voices).
  induction m as [|m IH]; intros k0.
  - cbn [seq map fold_left]. rewrite Nat.add_0_r.
    destruct (k0 <? length gs)%nat eqn:Hk; [|reflexivity].
    apply Nat.ltb_lt in Hk. now rewrite Nat.min_l by lia.
  - cbn [seq map fold_left Web.step]. unfold st at 1. rewrite end_stage, !Nat.eqb_refl.
    fold gs st. cbn [andb]. destruct (k0 <? length gs)%nat eqn:Hk.
    + rewrite IH. apply Nat.ltb_lt in Hk.
      destruct (S k0 <? length gs)%nat eqn:Hk'.
      * f_equal. lia.
      * apply Nat.ltb_ge in Hk'. f_equal. lia.
    + assert (Hstay : forall l, fold_left Web.step (map (Web.End_ 0) l) (st k0) = st k0).
      { induction l as [|x l IHl]; [reflexivity|].
        cbn [map fold_left Web.step]. unfold st at 1. rewrite end_stage. fold gs st.
        rewrite Hk, andb_false_r. exact IHl. }
      apply Hstay.
Qed.

Lemma spoken_stage (k : nat) :
  Web.spoken 0 (stage text onEnd voices k) = firstn (S k) (utterances voices text).
Proof.
  unfold Web.spoken, stage, utterances. set (gs := Web.segment text).
  cbn [Web.calls flat_map app].
  rewrite firstn_map.
  rewrite <- (numbered_groups gs 0 (S k)). fold (numbered gs).
  induction (firstn (S k) (numbered gs)) as [|[i g] l IH]; [reflexivity|].
  cbn [map flat_map issue fst snd Nat.eqb app]. now rewrite IH.
Qed.

Lemma calls_stage (k i : nat) (u : Web.utterance) :
  In (Web.speak_utterance 0 i u) (Web.calls (stage text onEnd voices k)) -> (i <= k)%nat.
Proof.
  unfold stage. cbn [Web.calls]. intros [H|H]; [discriminate|].
  apply in_map_iff in H. destruct H as ([i' g] & Heq & Hin).
  unfold issue in Heq. cbn [fst snd] in Heq. injection Heq as -> _.
  apply numbered_index in Hin. lia.
Qed.

End OneJob.

(** *** After [stop] *)

Lemma stopped_speakGroup (j i : nat) (w : Web.world) :
  j <> 0%nat -> stopped w -> stopped (Web.speakGroup j i w).
Proof.
  intros Hj (Hjobs & Hlisten & Hended & Hcalls). unfold Web.speakGroup.
  destruct (nth_error (Web.jobs w) j) as [jb|]; [|now repeat split].
  destruct (nth_error (Web.j_groups jb) i) as [g|].
  - repeat split; cbn [Web.jobs Web.listening Web.ended Web.calls]; try assumption.
    + intros i' H. apply in_app_or in H. destruct H as [H|[H|[]]]; [now apply Hlisten|].
      congruence.
    + intros i' u H. apply in_app_or in H. destruct H as [H|[H|[]]]; [now apply (Hcalls i' u)|].
      congruence.
  - unfold Web.run_onEnd. destruct (Web.j_onEnd jb); [|now repeat split].
    repeat split; cbn [Web.jobs Web.listening Web.ended Web.calls]; try assumption.
    intros H. apply in_app_or in H. destruct H as [H|[H|[]]]; [now apply Hended|].
    congruence.
Qed.

Lemma stopped_step (w : Web.world) (e : Web.event) :
  e <> Web.End_ 0 1 -> stopped w -> stopped (Web.step w e).
Proof.
  intros He Hw. destruct e as [text onEnd voices| |j i]; cbn [Web.step].
  - destruct Hw as (Hjobs & Hlisten & Hended & Hcalls).
    assert (Hnew : length (Web.jobs w) <> 0%nat) by lia.
    unfold Web.speak.
    match goal with
    | |- stopped (if _ then Web.speakGroup _ _ ?w' else _) =>
        assert (Hw' : stopped w')
    end.
    { repeat split; cbn [Web.jobs Web.listening Web.ended Web.calls]; try assumption.
      - rewrite length_app. lia.
      - intros i u H. apply in_app_or in H.
        destruct H as [H|[H|[]]]; [now apply (Hcalls i u)|discriminate]. }
    destruct (0 <? length (Web.segment text))%nat.
    + now apply stopped_speakGroup.
    + unfold Web.run_onEnd. destruct onEnd; [|exact Hw'].
      destruct Hw' as (Hjobs' & Hlisten' & Hended' & Hcalls').
      repeat split; cbn [Web.jobs Web.listening Web.ended Web.calls] in *; try assumption.
      intros H. apply in_app_or in H. destruct H as [H|[H|[]]]; [now apply Hended|].
      congruence.
  - destruct Hw as (Hjobs & Hlisten & Hended & Hcalls).
    repeat split; cbn [Web.stopSpeaking Web.jobs Web.listening Web.ended Web.calls];
      try assumption.
    intros i u H. apply in_app_or in H.
    destruct H as [H|[H|[]]]; [now apply (Hcalls i u)|discriminate].
  - unfold Web.utterance_end.
    destruct (existsb (Web.same_utterance (j, i)) (Web.listening w)) eqn:Hex; [|exact Hw].
    apply existsb_exists in Hex. destruct Hex as ([j' i'] & Hin & Hsame).
    unfold Web.same_utterance in Hsame. cbn [fst snd] in Hsame.
    apply andb_true_iff in Hsame. destruct Hsame as [Hj Hi].
    apply Nat.eqb_eq in Hj, Hi. subst j' i'.
    assert (Hj0 : j <> 0%nat).
    { intros ->. destruct Hw as (_ & Hlisten & _). apply Hlisten in Hin. now subst i. }
    apply stopped_speakGroup; [exact Hj0|].
    destruct Hw as (Hjobs & Hlisten & Hended & Hcalls).
    repeat split; cbn [Web.jobs Web.listening Web.ended Web.calls]; try assumption.
    intros i0 H. apply filter_In in H. now apply Hlisten.
Qed.

Lemma stopped_run (rest : list Web.event) :
  forall w, ~ In (Web.End_ 0 1) rest -> stopped w -> stopped (fold_left Web.step rest w).
Proof.
  induction rest as [|e rest IH]; intros w Hno Hw; [exact Hw|].
  cbn [fold_left]. apply IH.
  - intros H. apply Hno. now right.
  - apply stopped_step; [|exact Hw]. intros ->. apply Hno. now left.
Qed.

Lemma stopped_after_first (text : jsstring) (onEnd : bool) (voices : list Web.voice) :
  (2 <= length (Web.segment text))%nat ->
  stopped (Web.stopSpeaking (stage text onEnd voices 1)).
Proof.
  intros Hn. unfold stopped, Web.stopSpeaking, stage.
  cbn [Web.jobs Web.listening Web.ended Web.calls length].
  replace (length (Web.segment text) <=? 1)%nat with false by (symmetry; apply Nat.leb_gt; lia).
  replace (1 <? length (Web.segment text))%nat with true by (symmetry; apply Nat.ltb_lt; lia).
  cbn [andb]. repeat split.
  - lia.
  - intros i [H|[]]. now injection H.
  - intros [].
  - intros i u H. apply in_app_or in H. destruct H as [H|[H|[]]]; [|discriminate].
    apply (calls_stage text onEnd voices 1 i u). exact H.
Qed.

(** *** What no call and no signal takes back *)

Lemma speakGroup_grows (j i : nat) (w : Web.world) :
  Web.jobs (Web.speakGroup j i w) = Web.jobs w
  /\ (exists b, Web.calls (Web.speakGroup j i w) = Web.calls w ++ b)
  /\ (exists c, Web.ended (Web.speakGroup j i w) = Web.ended w ++ c)
  /\ (exists d, Web.listening (Web.speakGroup j i w) = Web.listening w ++ d).
Proof.
  assert (Hsame : Web.jobs w = Web.jobs w
                  /\ (exists b, Web.calls w = Web.calls w ++ b)
                  /\ (exists c, Web.ended w = Web.ended w ++ c)
                  /\ (exists d, Web.listening w = Web.listening w ++ d)).
  { repeat split; exists []; now rewrite app_nil_r. }
  unfold Web.speakGroup.
  destruct (nth_error (Web.jobs w) j) as [jb|]; [|exact Hsame].
  destruct (nth_error (Web.j_groups jb) i) as [g|].
  - cbn [Web.jobs Web.calls Web.ended Web.listening].
    split; [reflexivity|]. split; [now eexists|].
    split; [exists []; now rewrite app_nil_r|now eexists].
  - unfold Web.run_onEnd. destruct (Web.j_onEnd jb); [|exact Hsame].
    cbn [Web.jobs Web.calls Web.ended Web.listening].
    split; [reflexivity|]. split; [exists []; now rewrite app_nil_r|].
    split; [now eexists|exists []; now rewrite app_nil_r].
Qed.

(** Only [speak] makes a closure, and it is added behind the others. *)
Lemma step_jobs (w : Web.world) (e : Web.event) :
  Web.jobs (Web.step w e) = Web.jobs w ++ closure e.
Proof.
  destruct e as [text onEnd voices| |j i]; cbn [Web.step closure].
  - unfold Web.speak. destruct (0 <? length (Web.segment text))%nat.
    + now rewrite (proj1 (speakGroup_grows _ _ _)).
    + unfold Web.run_onEnd. now destruct onEnd.
  - cbn. now rewrite app_nil_r.
  - rewrite app_nil_r. unfold Web.utterance_end.
    destruct (existsb (Web.same_utterance (j, i)) (Web.listening w)); [|reflexivity].
    now rewrite (proj1 (speakGroup_grows _ _ _)).
Qed.

Lemma run_jobs (es : list Web.event) :
  forall w, Web.jobs (fold_left Web.step es w) = Web.jobs w ++ flat_map closure es.
Proof.
  induction es as [|e es IH]; intros w; cbn [fold_left flat_map].
  - now rewrite app_nil_r.
  - now rewrite IH, step_jobs, <- app_assoc.
Qed.

Lemma step_grows (w : Web.world) (e : Web.event) :
  (exists b, Web.calls (Web.step w e) = Web.calls w ++ b)
  /\ (exists c, Web.ended (Web.step w e) = Web.ended w ++ c).
Proof.
  assert (Hsame : (exists b, Web.calls w = Web.calls w ++ b)
                  /\ (exists c, Web.ended w = Web.ended w ++ c)).
  { split; exists []; now rewrite app_nil_r. }
  destruct e as [text onEnd voices| |j i]; cbn [Web.step].
  - unfold Web.speak. destruct (0 <? length (Web.segment text))%nat.
    + match goal with
      | |- context [Web.speakGroup ?j ?i ?w'] =>
          destruct (speakGroup_grows j i w') as (_ & (b & Hb) & (c & Hc) & _)
      end.
      rewrite Hb, Hc. cbn [Web.calls Web.ended]. split; [|now eexists].
      exists ([Web.cancel] ++ b). now rewrite app_assoc.
    + unfold Web.run_onEnd. destruct onEnd; cbn [Web.calls Web.ended].
      * split; now eexists.
      * split; [now eexists|exists []; now rewrite app_nil_r].
  - cbn. split; [now eexists|exists []; now rewrite app_nil_r].
  - unfold Web.utterance_end.
    destruct (existsb (Web.same_utterance (j, i)) (Web.listening w)); [|exact Hsame].
    match goal with
    | |- context [Web.speakGroup ?j ?i ?w'] =>
        destruct (speakGroup_grows j i w') as (_ & Hb & Hc & _)
    end.
    now split.
Qed.

(** The listener of run 2 stays on its utterance until its signal comes:
    neither [speak] nor [stopSpeaking] nor another signal takes it off. *)
Lemma listener_kept (w : Web.world) (e : Web.event) :
  e <> Web.End_ 0 1 -> In (0%nat, 1%nat) (Web.listening w) ->
  In (0%nat, 1%nat) (Web.listening (Web.step w e)).
Proof.
  intros He Hin. destruct e as [text onEnd voices| |j i]; cbn [Web.step].
  - unfold Web.speak. destruct (0 <? length (Web.segment text))%nat.
    + match goal with
      | |- context [Web.speakGroup ?j ?i ?w'] =>
          destruct (speakGroup_grows j i w') as (_ & _ & _ & (d & Hd))
      end.
      rewrite Hd. apply in_or_app. now left.
    + unfold Web.run_onEnd. now destruct onEnd.
  - exact Hin.
  - unfold Web.utterance_end.
    destruct (existsb (Web.same_utterance (j, i)) (Web.listening w)); [|exact Hin].
    match goal with
    | |- context [Web.speakGroup ?j ?i ?w'] =>
        destruct (speakGroup_grows j i w') as (_ & _ & _ & (d & Hd))
    end.
    rewrite Hd. cbn [Web.listening]. apply in_or_app. left.
    apply filter_In. split; [exact Hin|].
    unfold Web.same_utterance. cbn [fst snd].
    destruct (j =? 0)%nat eqn:Hj; [|reflexivity].
    destruct (i =? 1)%nat eqn:Hi; [|reflexivity].
    apply Nat.eqb_eq in Hj, Hi. subst j i. now elim He.
Qed.

Lemma resumed_step (jb : Web.job) (w : Web.world) (e : Web.event) :
  resumed jb w -> resumed jb (Web.step w e).
Proof.
  unfold resumed. destruct (step_grows w e) as ((b & Hb) & (c & Hc)).
  destruct (nth_error (Web.j_groups jb) 2) as [g|].
  - intros H. rewrite Hb. apply in_or_app. now left.
  - intros H Hcb. rewrite Hc. apply in_or_app. left. now apply H.
Qed.

Lemma resumed_run (jb : Web.job) (es : list Web.event) :
  forall w, resumed jb w -> resumed jb (fold_left Web.step es w).
Proof.
  induction es as [|e es IH]; intros w Hw; [exact Hw|].
  cbn [fold_left]. apply IH. now apply resumed_step.
Qed.

(** The signal of run 2 runs [speakGroup(2)], whenever it comes. *)
Lemma late_end (jb : Web.job) (w : Web.world) :
  nth_error (Web.jobs w) 0 = Some jb -> In (0%nat, 1%nat) (Web.listening w) ->
  resumed jb (Web.step w (Web.End_ 0 1)).
Proof.
  intros Hjb Hin. cbn [Web.step]. unfold Web.utterance_end.
  replace (existsb (Web.same_utterance (0%nat, 1%nat)) (Web.listening w)) with true.
  2:{ symmetry. apply existsb_exists. now exists (0%nat, 1%nat). }
  unfold Web.speakGroup. cbn [Web.jobs Nat.add]. rewrite Hjb. unfold resumed.
  destruct (nth_error (Web.j_groups jb) 2) as [g|].
  - cbn [Web.calls]. apply in_or_app. right. now left.
  - intros Hcb. unfold Web.run_onEnd. rewrite Hcb. cbn [Web.ended].
    apply in_or_app. right. now left.
Qed.

Lemma late_run (jb : Web.job) (es : list Web.event) :
  forall w,
    nth_error (Web.jobs w) 0 = Some jb -> In (0%nat, 1%nat) (Web.listening w) ->
    In (Web.End_ 0 1) es -> resumed jb (fold_left Web.step es w).
Proof.
  induction es as [|e es IH]; intros w Hjb Hin Hes; [destruct Hes|].
  cbn [fold_left].
  assert (Hdec : e = Web.End_ 0 1 \/ e <> Web.End_ 0 1).
  { destruct e as [text onEnd voices| |j i]; try (right; discriminate).
    destruct (Nat.eq_dec j 0) as [->|Hj]; [|right; congruence].
    destruct (Nat.eq_dec i 1) as [->|Hi]; [now left|right; congruence]. }
  destruct Hdec as [->|He].
  - apply resumed_run. now apply late_end.
  - apply IH.
    + rewrite step_jobs. rewrite nth_error_app1; [exact Hjb|].
      apply nth_error_Some. congruence.
    + now apply listener_kept.
    + destruct Hes as [Hes|Hes]; [now elim He|exact Hes].
Qed.

End SpeakFacts.

(** ** Extraction *)

Module ExtractFacts.
Import JS Terms JSFacts Gemini.

(** *** The two patterns *)

Lemma exec_length (r : regex) :
  forall b s ls, exec r b s = Some ls -> length ls = length r.
Proof.
  induction r as [|a r IH]; intros b s ls H.
  - now injection H as <-.
  - destruct a as [p|p| |].
    + destruct s as [|c s]; [discriminate|]. rewrite exec_one_cons in H.
      destruct (p c); [|discriminate].
      destruct (exec r false s) as [ls'|] eqn:He; [|discriminate].
      injection H as <-. cbn [length]. f_equal. eapply IH, He.
    + revert b ls H. induction s as [|c s IHs]; intros b ls H.
      * rewrite exec_star_nil in H.
        destruct (exec r b []) as [ls'|] eqn:He; [|discriminate].
        injection H as <-. cbn [length]. f_equal. eapply IH, He.
      * rewrite exec_star_cons in H.
        assert (Hstop : forall ls0, option_map (cons 0%nat) (exec r b (c :: s)) = Some ls0 ->
                                    length ls0 = S (length r)).
        { intros ls0 H0. destruct (exec r b (c :: s)) as [ls'|] eqn:He; [|discriminate].
          injection H0 as <-. cbn [length]. f_equal. eapply IH, He. }
        destruct (p c); [|now apply Hstop].
        destruct (exec (Star p :: r) false s) as [[|n ls']|] eqn:He;
          try (now apply Hstop).
        injection H as <-. exact (IHs false (n :: ls') He).
    + cbn [exec] in H. destruct b; [|discriminate].
      destruct (exec r true s) as [ls'|] eqn:He; [|discriminate].
      injection H as <-. cbn [length]. f_equal. eapply IH, He.
    + cbn [exec] in H. destruct s; [|discriminate].
      destruct (exec r b []) as [ls'|] eqn:He; [|discriminate].
      injection H as <-. cbn [length]. f_equal. eapply IH, He.
Qed.

(** What a match tells about the subject. *)
Lemma exec_one_inv (p : Z -> bool) (r : regex) (b : bool) (s : jsstring) (ls : list nat) :
  exec (One p :: r) b s = Some ls ->
  exists c s' ls', s = c :: s' /\ p c = true /\ exec r false s' = Some ls'.
Proof.
  destruct s as [|c s]; [discriminate|]. rewrite exec_one_cons.
  destruct (p c) eqn:Hc; [|discriminate].
  destruct (exec r false s) as [ls'|] eqn:He; [|discriminate].
  intros _. now exists c, s, ls'.
Qed.

Lemma exec_star_inv (p : Z -> bool) (r : regex) (s : jsstring) :
  forall b ls,
    exec (Star p :: r) b s = Some ls ->
    exists pre s' b' ls', s = pre ++ s' /\ exec r b' s' = Some ls'.
Proof.
  induction s as [|c s IH]; intros b ls H.
  - rewrite exec_star_nil in H.
    destruct (exec r b []) as [ls'|] eqn:He; [|discriminate].
    now exists [], [], b, ls'.
  - rewrite exec_star_cons in H.
    assert (Hstop : forall ls0, option_map (cons 0%nat) (exec r b (c :: s)) = Some ls0 ->
              exists pre s' b' ls', c :: s = pre ++ s' /\ exec r b' s' = Some ls').
    { intros ls0 H0. destruct (exec r b (c :: s)) as [ls'|] eqn:He; [|discriminate].
      now exists [], (c :: s), b, ls'. }
    destruct (p c); [|now apply (Hstop ls)].
    destruct (exec (Star p :: r) false s) as [[|n ls0]|] eqn:He;
      try (now apply (Hstop ls)).
    destruct (IH false _ He) as (pre & s' & b' & ls' & -> & Hr).
    now exists (c :: pre), s', b', ls'.
Qed.

(** A brace pair is all the first pattern needs. *)
Lemma exec_to_closing (s : jsstring) :
  In 125 s -> forall b, exec [Star any_unit; chr 125] b s <> None.
Proof.
  induction s as [|c s IH]; intros Hin b; [contradiction|].
  rewrite exec_star_cons.
  assert (Hany : any_unit c = true) by (unfold any_unit; now destruct (is_space c)).
  rewrite Hany.
  destruct (exec [Star any_unit; chr 125] false s) as [[|n ls]|] eqn:He.
  - apply exec_length in He. discriminate.
  - discriminate.
  - destruct Hin as [<-|Hin]; [|destruct (IH Hin false He)].
    unfold chr. rewrite exec_one_cons, Z.eqb_refl. cbn [exec option_map]. discriminate.
Qed.

Lemma search_braces (pre rest : jsstring) :
  In 125 rest -> forall b, search_from re_braces b (pre ++ 123 :: rest) <> None.
Proof.
  intros Hin. induction pre as [|x pre IH]; intros b.
  - cbn [app search_from]. unfold re_braces, chr at 1. rewrite exec_one_cons.
    cbn [Z.eqb Pos.eqb].
    destruct (exec [Star any_unit; chr 125] false rest) eqn:He.
    + discriminate.
    + now apply exec_to_closing in He.
  - cbn [app search_from].
    destruct (exec re_braces b (x :: pre ++ 123 :: rest)); [discriminate|].
    specialize (IH false).
    destruct (search_from re_braces false (pre ++ 123 :: rest)) as [[i ls]|];
      [discriminate|contradiction].
Qed.

Lemma search_from_inv (r : regex) (s : jsstring) :
  forall b i ls,
    search_from r b s = Some (i, ls) ->
    exists b', exec r b' (skipn i s) = Some ls.
Proof.
  induction s as [|c s IH]; intros b i ls H; cbn [search_from] in H.
  - destruct (exec r b []) eqn:He; [|discriminate].
    injection H as <- <-. now exists b.
  - destruct (exec r b (c :: s)) eqn:He.
    + injection H as <- <-. now exists b.
    + destruct (search_from r false s) as [[i' ls']|] eqn:Hs; [|discriminate].
      injection H as <- <-. cbn [skipn]. eapply IH, Hs.
Qed.

(** The fenced pattern holds a brace pair of its own. *)
Lemma exec_fenced_braces (b : bool) (s : jsstring) (ls : list nat) :
  exec re_fenced b s = Some ls ->
  exists pre rest, s = pre ++ 123 :: rest /\ In 125 rest.
Proof.
  unfold re_fenced, chars. cbn [lit list_ascii_of_string map app chr].
  intros H.
  do 7 (apply exec_one_inv in H;
        destruct H as (? & ? & ? & -> & _ & H)).
  apply exec_star_inv in H. destruct H as (sp & s1 & b1 & ls1 & -> & H).
  apply exec_one_inv in H. destruct H as (c & s2 & ls2 & -> & Hc & H).
  apply Z.eqb_eq in Hc. subst c.
  apply exec_star_inv in H. destruct H as (mid & s3 & b3 & ls3 & -> & H).
  apply exec_one_inv in H. destruct H as (c & s4 & ls4 & -> & Hc & H).
  apply Z.eqb_eq in Hc. subst c.
  eexists (_ :: _ :: _ :: _ :: _ :: _ :: _ :: sp), (mid ++ 125 :: s4).
  split; [reflexivity|]. apply in_or_app. right. now left.
Qed.

(** Where the first pattern finds nothing, the second finds nothing. *)
Lemma strategy2_needs_strategy1 (responseText : jsstring) :
  strategy1 responseText = None -> strategy2 responseText = None.
Proof.
  unfold strategy1, strategy2, match_whole, match_group, search.
  intros H1.
  destruct (search_from re_fenced true responseText) as [[i ls]|] eqn:H2; [|reflexivity].
  exfalso.
  destruct (search_from_inv _ _ _ _ _ H2) as (b' & He).
  destruct (exec_fenced_braces _ _ _ He) as (pre & rest & Hs & Hin).
  assert (Hsplit : responseText = (firstn i responseText ++ pre) ++ 123 :: rest).
  { rewrite <- app_assoc, <- Hs. symmetry. apply firstn_skipn. }
  generalize (search_braces (firstn i responseText ++ pre) rest Hin true).
  rewrite <- Hsplit.
  destruct (search_from re_braces true responseText) as [[i1 ls1]|]; [discriminate|].
  intros Hne. now apply Hne.
Qed.

End ExtractFacts.

Module ServiceFacts.
Import JS Terms Gemini ExtractFacts.

Section Service.

Variable JSON_parse : jsstring -> option value.
Variable StringToNumber : jsstring -> number.
Variable ObjectToNumber : value -> completion number.

(** Before it is initialised the service throws, outside the [try] block. *)
Lemma uninitialised_throws :
  generateVictorAIResponse JSON_parse StringToNumber ObjectToNumber None
  = Throw (Error (lit "Gemini AI not initialized. Please provide an API key."))
  /\ fetchWordData JSON_parse None
     = Throw (Error (lit "Gemini AI not initialized. Please provide an API key.")).
Proof. split; reflexivity. Qed.

Lemma try_catch_returns {A} (body : completion A) (fallback : A) :
  exists a, try_catch body fallback = Return a.
Proof. destruct body; cbn; eauto. Qed.

Lemma generate_unmatched (responseText : jsstring) :
  jsonMatch responseText = None ->
  generateVictorAIResponse JSON_parse StringToNumber ObjectToNumber (Some (Return responseText)) = Return apology
  /\ fetchWordData JSON_parse (Some (Return responseText)) = Return empty_word.
Proof.
  intros H. unfold generateVictorAIResponse, fetchWordData. cbn [bind].
  now rewrite H.
Qed.

Lemma generate_unparsed (responseText json : jsstring) :
  jsonMatch responseText = Some json -> JSON_parse json = None ->
  generateVictorAIResponse JSON_parse StringToNumber ObjectToNumber (Some (Return responseText)) = Return apology
  /\ fetchWordData JSON_parse (Some (Return responseText)) = Return empty_word.
Proof.
  intros H Hp. unfold generateVictorAIResponse, fetchWordData, parse. cbn [bind].
  now rewrite H, Hp.
Qed.

Lemma generate_parsed (responseText json : jsstring) (v : value) :
  jsonMatch responseText = Some json -> JSON_parse json = Some v ->
  generateVictorAIResponse JSON_parse StringToNumber ObjectToNumber (Some (Return responseText)) = try_catch (victor_fields StringToNumber ObjectToNumber v) apology.
Proof.
  intros H Hp. unfold generateVictorAIResponse, parse. cbn [bind].
  now rewrite H, Hp.
Qed.

Lemma generate_cases (responseText : jsstring) :
  generateVictorAIResponse JSON_parse StringToNumber ObjectToNumber (Some (Return responseText)) = Return apology
  \/ exists json parsed r,
       jsonMatch responseText = Some json /\ JSON_parse json = Some parsed
       /\ victor_fields StringToNumber ObjectToNumber parsed = Return r
       /\ generateVictorAIResponse JSON_parse StringToNumber ObjectToNumber (Some (Return responseText)) = Return r.
Proof.
  destruct (jsonMatch responseText) as [json|] eqn:Hm.
  2:{ left. now apply generate_unmatched. }
  destruct (JSON_parse json) as [parsed|] eqn:Hp.
  2:{ left. now apply (generate_unparsed responseText json). }
  rewrite (generate_parsed responseText json parsed Hm Hp).
  destruct (victor_fields StringToNumber ObjectToNumber parsed) as [r|e] eqn:Hf; [|now left].
  right. now exists json, parsed, r.
Qed.


(** A string in the place of the corrections is told from an empty one
    only. *)
Lemma fields_string_corrections (props : list (jsstring * value)) (wrong : jsstring) :
  own (lit "corrections") props = VString wrong -> wrong <> [] ->
  victor_fields StringToNumber ObjectToNumber (VObject props)
  = Return {| response := or_else (own (lit "response") props) default_response;
              corrections := VString wrong;
              vocabularyTip := or_else (own (lit "vocabularyTip") props) VUndefined;
              pronunciationTip := or_else (own (lit "pronunciationTip") props) VUndefined;
              followUpQuestion := or_else (own (lit "followUpQuestion") props) default_followUp |}.
Proof.
  intros Hc Hne. unfold victor_fields. cbn [get bind]. rewrite Hc.
  destruct wrong as [|x wrong]; [contradiction|].
  cbn [truthy get bind]. 
  change (same (lit "length") (lit "length")) with true. cbv iota.
  cbn [greater_than_zero bind of_length positive_number].
  replace (0 <? Z.of_nat (length (x :: wrong))) with true; [reflexivity|].
  symmetry. apply Z.ltb_lt. cbn [length]. lia.
Qed.

End Service.

End ServiceFacts.

(** * The specification's properties *)

Import JS Terms.

(** ** Segmentation *)

(** C1 (segmentation round trip).  For every input, the texts of the runs
    the segmentation phase of [speak] produces, glued in order, are the
    cleaned input: the input with its parenthesized asides removed, every
    run of white space made one space, and both ends trimmed.  This holds
    of the web client and of the native client. *)
Theorem segmentation_round_trip (text : jsstring) :
  concat (map Web.text (Web.segment text))
  = trim (replace_all Web.re_spaces [32] (replace_all Web.re_parenthesized [] text))
  /\ concat (map Native.text (Native.segment text))
     = trim (replace_all Native.re_spaces [32] (replace_all Native.re_parenthesized [] text)).
Proof.
  split.
  - apply SegmentFacts.web_round_trip.
  - apply SegmentFacts.native_round_trip.
Qed.

(** C10 (the two segmenters agree).  For every input, the native client and
    the web client produce the same runs in the same order, the native tags
    ['ru'] and ['en'] standing for the web tags ['ru-RU'] and ['en-US']; no
    run of either carries the [null] tag. *)
Theorem native_web_equivalence (text : jsstring) :
  Native.segment text
  = map (fun g => {| Native.lang := option_map tag (Web.lang g);
                     Native.text := Web.text g |}) (Web.segment text)
  /\ tag Web.ru_RU = lit "ru" /\ tag Web.en_US = lit "en"
  /\ Forall (fun g => Web.lang g <> None) (Web.segment text)
  /\ Forall (fun g => Native.lang g <> None) (Native.segment text).
Proof.
  split; [apply SegmentFacts.native_is_web|].
  split; [reflexivity|]. split; [reflexivity|].
  split; [apply SegmentFacts.segment_tagged|].
  rewrite SegmentFacts.native_is_web. apply Forall_map.
  eapply Forall_impl; [|apply SegmentFacts.segment_tagged].
  intros g Hg. unfold retag. cbn [Native.lang]. cbv beta in Hg.
  destruct (Web.lang g); [discriminate|now elim Hg].
Qed.

(** C7, as the code has it (script classification and the boundary).  A
    token, that is a word of the split that is not white space, puts the
    open run under the Russian tag when one of its code units is in
    А..Я, а..я, ё or Ё, and under the English tag when none is; ё and Ё lie
    outside а..я and А..Я and count all the same.  A white-space word is
    appended to the run that is open, so "Привет, how are you?" is cut into
    the Russian run "Привет, " and the English run "how are you?": the
    blank between the two belongs to the first. *)
Theorem script_classification :
  (forall (st : Web.loop) (token : jsstring),
      test Web.re_blank token = false ->
      Web.currentLang (Web.visit st token)
      = Some (if existsb Web.russian_letter token then Web.ru_RU else Web.en_US))
  /\ (forall (st : Web.loop) (blank : jsstring),
        test Web.re_blank blank = true ->
        Web.visit st blank
        = {| Web.groups := Web.groups st; Web.currentLang := Web.currentLang st;
             Web.buffer := Web.buffer st ++ blank |})
  /\ Web.russian_letter 0x451 = true /\ Web.russian_letter 0x401 = true
  /\ (forall c, Web.russian_letter c = true <->
                 0x410 <= c <= 0x44F \/ c = 0x451 \/ c = 0x401)
  /\ Web.segment privet_how_are_you
     = [{| Web.lang := Some Web.ru_RU; Web.text := privet_comma_space |};
        {| Web.lang := Some Web.en_US; Web.text := lit "how are you?" |}].
Proof.
  split.
  { intros st token Hb. unfold Web.visit. rewrite Hb, SegmentFacts.is_russian.
    destruct (Web.currentLang st) as [current|]; [|reflexivity].
    destruct (existsb Web.russian_letter token), current; reflexivity. }
  split.
  { intros st blank Hb. unfold Web.visit. now rewrite Hb. }
  split; [reflexivity|]. split; [reflexivity|].
  split; [|reflexivity].
  intros c. unfold Web.russian_letter.
  rewrite !orb_true_iff, !andb_true_iff, !Z.leb_le, !Z.eqb_eq. lia.
Qed.

Lemma script_classification_witness :
  test Web.re_blank privet_comma = false
  /\ Web.currentLang (Web.visit Web.start privet_comma) = Some Web.ru_RU
  /\ test Web.re_blank [32] = true
  /\ Web.buffer (Web.visit (Web.visit Web.start privet_comma) [32]) = privet_comma_space.
Proof.
  destruct script_classification as (Htoken & Hblank & _).
  split; [reflexivity|].
  split; [exact (Htoken Web.start privet_comma eq_refl)|].
  split; [reflexivity|].
  rewrite (Hblank (Web.visit Web.start privet_comma) [32] eq_refl). reflexivity.
Defined.

(** The boundary of the example as the specification prints it, with the
    blank at the head of the English run, is not what [speak] computes. *)
Lemma privet_boundary_differs :
  Web.segment privet_how_are_you
  <> [{| Web.lang := Some Web.ru_RU; Web.text := privet_comma |};
      {| Web.lang := Some Web.en_US; Web.text := lit " how are you?" |}].
Proof. vm_compute. discriminate. Qed.

(** ** Synthesis *)

(** C8 (empty input).  When the input is empty, or is white space only, or
    is cleaned to the empty string, segmentation yields no run; [speak]
    hands no utterance to the backend (its only call is the [cancel] that
    opens every [speak]) and runs [onEnd], when one is given, before it
    returns. *)
Theorem empty_input (text : jsstring) (onEnd : bool) (voices : list Web.voice)
  (w : Web.world) :
  text = [] \/ Forall (fun c => is_space c = true) text \/ Web.cleanedText text = [] ->
  Web.segment text = []
  /\ Web.calls (Web.speak text onEnd voices w) = Web.calls w ++ [Web.cancel]
  /\ Web.listening (Web.speak text onEnd voices w) = Web.listening w
  /\ Web.ended (Web.speak text onEnd voices w)
     = Web.ended w ++ (if onEnd then [length (Web.jobs w)] else []).
Proof.
  intros H.
  assert (Hclean : Web.cleanedText text = []).
  { destruct H as [->|[H|H]]; [reflexivity|now apply CleanFacts.clean_blank|exact H]. }
  assert (Hseg : Web.segment text = []).
  { unfold Web.segment, Web.words. now rewrite Hclean. }
  split; [exact Hseg|].
  unfold Web.speak. rewrite Hseg. cbn [length Nat.ltb Nat.leb].
  unfold Web.run_onEnd. destruct onEnd; cbn [Web.calls Web.listening Web.ended Web.jobs].
  - repeat split; reflexivity.
  - repeat split. now rewrite app_nil_r.
Qed.

Lemma empty_input_witness :
  Forall (fun c => is_space c = true) (lit "   ")
  /\ Web.segment (lit "   ") = []
  /\ Web.calls (Web.run [Web.Speak (lit "   ") true []]) = [Web.cancel]
  /\ Web.ended (Web.run [Web.Speak (lit "   ") true []]) = [0%nat].
Proof.
  assert (H : Forall (fun c => is_space c = true) (lit "   "))
    by (repeat constructor).
  split; [exact H|].
  destruct (empty_input (lit "   ") true [] Web.boot (or_intror (or_introl H)))
    as (Hseg & Hcalls & _ & Hended).
  split; [exact Hseg|]. split; [exact Hcalls|exact Hended].
Defined.

(** C2 (strictly sequential synthesis).  After [speak(text, onEnd)] on a
    fresh page, whatever completion signals the backend sends and in
    whatever order, the utterances it has been handed are the first runs of
    the text, in run order, at most one more than there were signals; run
    [i + 1] is handed over only once the completion of run [i] has been
    signalled.  When the backend signals each run complete in turn, it has
    received all the runs in run order, and [onEnd] has run once. *)
Theorem strictly_sequential (text : jsstring) (onEnd : bool)
  (voices : list Web.voice) (signals : list (nat * nat)) :
  let runs := map (Web.utter voices) (Web.segment text) in
  let w := Web.run (Web.Speak text onEnd voices :: map signal signals) in
  let done := Web.run (Web.Speak text onEnd voices
                        :: map (Web.End_ 0) (seq 0 (length runs))) in
  (exists k, (k <= length signals)%nat
             /\ Web.spoken 0 w = firstn (S k) runs
             /\ Web.calls w
                = Web.cancel :: map (issue voices) (firstn (S k) (numbered (Web.segment text))))
  /\ (forall i u, In (Web.speak_utterance 0 (S i) u) (Web.calls w) ->
                  In (0%nat, i) signals)
  /\ Web.spoken 0 done = runs
  /\ Web.ended done = (if onEnd then [0%nat] else []).
Proof.
  intros runs w done.
  assert (Hw : exists k, (k <= length signals)%nat
                         /\ (forall i, (i < k)%nat -> In (0%nat, i) signals)
                         /\ w = stage text onEnd voices k).
  { unfold w, Web.run. cbn [fold_left Web.step]. rewrite SpeakFacts.speak_boot.
    destruct (SpeakFacts.signals_stage text onEnd voices signals 0)
      as (k & Hk & Hin & Hrun).
    exists k. repeat split; [lia| |exact Hrun].
    intros i Hi. apply Hin. lia. }
  destruct Hw as (k & Hk & Hin & Hw).
  split; [|split].
  - exists k. split; [exact Hk|]. rewrite Hw. split.
    + apply SpeakFacts.spoken_stage.
    + reflexivity.
  - intros i u Hcall. rewrite Hw in Hcall.
    apply SpeakFacts.calls_stage in Hcall. apply Hin. lia.
  - assert (Hdone : done = stage text onEnd voices (length (Web.segment text))).
    { unfold done, Web.run, runs. rewrite length_map.
      cbn [fold_left Web.step]. rewrite SpeakFacts.speak_boot.
      rewrite SpeakFacts.ordered_signals.
      destruct (0 <? length (Web.segment text))%nat eqn:Hn.
      - now rewrite Nat.add_0_l, Nat.min_id.
      - apply Nat.ltb_ge in Hn. f_equal. lia. }
    rewrite Hdone. split.
    + rewrite SpeakFacts.spoken_stage. apply firstn_all2.
      unfold runs, utterances. rewrite length_map. lia.
    + unfold stage. cbn [Web.ended]. now rewrite Nat.leb_refl.
Qed.

(** C3, as the code has it (cancellation).  For a job of two runs or more
    that is stopped after run 1 has completed, [stopSpeaking] hands [cancel]
    to the backend and does nothing else: the backend has by then received
    [cancel], runs 1 and 2 and [cancel] again, no [onEnd] has run, and the
    listener of run 2 is still on its utterance, for the service keeps no
    mark of the stop.  So whatever happens later, as long as the backend
    sends no completion signal for the interrupted run 2, [onEnd] of the
    job never runs and its run 3 is never handed to the backend; and when
    that signal does come, however late, [speakGroup(2)] runs: run 3 is
    handed to the backend or, where the text has two runs only, [onEnd]
    runs if the caller gave one. *)
Theorem stop_silences_completion (text : jsstring) (onEnd : bool)
  (voices : list Web.voice) (later : list Web.event) :
  (2 <= length (Web.segment text))%nat ->
  let at_stop := Web.run [Web.Speak text onEnd voices; Web.End_ 0 0; Web.Stop] in
  let w := Web.run (Web.Speak text onEnd voices :: Web.End_ 0 0 :: Web.Stop :: later) in
  (Web.calls at_stop
   = Web.cancel :: map (issue voices) (firstn 2 (numbered (Web.segment text)))
     ++ [Web.cancel]
   /\ Web.ended at_stop = []
   /\ Web.listening at_stop = [(0%nat, 1%nat)])
  /\ (~ In (Web.End_ 0 1) later ->
      ~ In 0%nat (Web.ended w)
      /\ (forall u, ~ In (Web.speak_utterance 0 2 u) (Web.calls w)))
  /\ (In (Web.End_ 0 1) later ->
      match nth_error (Web.segment text) 2 with
      | Some g => In (Web.speak_utterance 0 2 (Web.utter voices g)) (Web.calls w)
      | None => onEnd = true -> In 0%nat (Web.ended w)
      end).
Proof.
  intros Hn at_stop w.
  assert (Hstop : at_stop = Web.stopSpeaking (stage text onEnd voices 1)).
  { unfold at_stop, Web.run. cbn [fold_left Web.step]. rewrite SpeakFacts.speak_boot.
    rewrite (SpeakFacts.end_stage text onEnd voices 0 0 0).
    replace (0 <? length (Web.segment text))%nat with true
      by (symmetry; apply Nat.ltb_lt; lia).
    reflexivity. }
  assert (Hw : w = fold_left Web.step later at_stop) by reflexivity.
  assert (Hlisten : Web.listening at_stop = [(0%nat, 1%nat)]).
  { rewrite Hstop. unfold Web.stopSpeaking, stage. cbn [Web.listening].
    now replace (1 <? length (Web.segment text))%nat with true
      by (symmetry; apply Nat.ltb_lt; lia). }
  split; [|split].
  - split; [|split]; [| |exact Hlisten].
    + rewrite Hstop. reflexivity.
    + rewrite Hstop. unfold Web.stopSpeaking, stage. cbn [Web.ended].
      now replace (length (Web.segment text) <=? 1)%nat with false
        by (symmetry; apply Nat.leb_gt; lia).
  - intros Hlater.
    assert (Hs : stopped w).
    { rewrite Hw, Hstop. apply SpeakFacts.stopped_run; [exact Hlater|].
      now apply SpeakFacts.stopped_after_first. }
    destruct Hs as (_ & _ & Hended & Hcalls).
    split; [exact Hended|].
    intros u Hu. apply Hcalls in Hu. lia.
  - intros Hlater.
    apply (SpeakFacts.late_run
             {| Web.j_groups := Web.segment text; Web.j_onEnd := onEnd;
                Web.j_voices := voices |} later at_stop) in Hlater.
    + rewrite <- Hw in Hlater. exact Hlater.
    + rewrite Hstop. reflexivity.
    + rewrite Hlisten. now left.
Qed.

Lemma stop_silences_completion_witness :
  (2 <= length (Web.segment three_runs))%nat
  /\ ~ In (Web.End_ 0 1) [Web.Speak (lit "ok") true []; Web.End_ 0 2; Web.End_ 1 0]
  /\ Web.ended (Web.run [Web.Speak three_runs true []; Web.End_ 0 0; Web.Stop;
                         Web.Speak (lit "ok") true []; Web.End_ 0 2; Web.End_ 1 0])
     = [1%nat]
  /\ ~ In 0%nat (Web.ended (Web.run [Web.Speak three_runs true []; Web.End_ 0 0; Web.Stop;
                                     Web.Speak (lit "ok") true []; Web.End_ 0 2;
                                     Web.End_ 1 0]))
  /\ (forall u, ~ In (Web.speak_utterance 0 2 u)
                    (Web.calls (Web.run [Web.Speak three_runs true []; Web.End_ 0 0;
                                         Web.Stop; Web.Speak (lit "ok") true [];
                                         Web.End_ 0 2; Web.End_ 1 0]))).
Proof.
  assert (Hn : (2 <= length (Web.segment three_runs))%nat) by (vm_compute; lia).
  assert (Hlater : ~ In (Web.End_ 0 1)
                     [Web.Speak (lit "ok") true []; Web.End_ 0 2; Web.End_ 1 0]).
  { intros [H|[H|[H|[]]]]; discriminate H. }
  split; [exact Hn|]. split; [exact Hlater|]. split; [reflexivity|].
  exact (proj1 (proj2 (stop_silences_completion three_runs true []
                         [Web.Speak (lit "ok") true []; Web.End_ 0 2; Web.End_ 1 0] Hn))
           Hlater).
Defined.

(** The service itself does not tell a stopped job from a running one:
    when the completion signal of run 2 still arrives after [stop], run 3
    is handed to the backend, and [onEnd] runs when run 3 completes. *)
Lemma stop_then_late_completion :
  let w := Web.run [Web.Speak three_runs true []; Web.End_ 0 0; Web.Stop;
                    Web.End_ 0 1; Web.End_ 0 2] in
  length (Web.segment three_runs) = 3%nat
  /\ In 0%nat (Web.ended w)
  /\ In (Web.speak_utterance 0 2
           {| Web.u_text := [0x43C; 0x438; 0x440]; Web.u_lang := Some Web.ru_RU;
              Web.u_voice := None; Web.u_rate := Fin 9 10; Web.u_pitch := Fin 1 1;
              Web.u_volume := Fin 1 1 |})
        (Web.calls w).
Proof.
  vm_compute. split; [reflexivity|]. split; [now left|].
  do 4 right. now left.
Qed.

(** ** Extraction *)

Import Gemini.

(** C4 (the extractor always answers).  Once a completion has been asked
    for, both extractors return a record, whatever the completion is and
    however asking for it ended: a failed parse is never passed on to the
    caller.  When both strategies fail on the text, [generateVictorAIResponse]
    returns the record with the two fixed default strings, and
    [fetchWordData] the record whose phonetic, examples and translation are
    present and empty. *)
Theorem extractor_total (JSON_parse : jsstring -> option value)
  (StringToNumber : jsstring -> number) (ObjectToNumber : value -> completion number)
  (generated : completion jsstring) :
  (exists r, generateVictorAIResponse JSON_parse StringToNumber ObjectToNumber
               (Some generated) = Return r)
  /\ (exists d, fetchWordData JSON_parse (Some generated) = Return d)
  /\ (forall responseText,
        generated = Return responseText ->
        strategies_fail JSON_parse responseText ->
        generateVictorAIResponse JSON_parse StringToNumber ObjectToNumber (Some generated)
        = Return
            {| response := VString (lit "I'm sorry, I had trouble processing that. Could you try again? I'm here to help you learn Russian!");
               corrections := VUndefined;
               vocabularyTip := VUndefined;
               pronunciationTip := VUndefined;
               followUpQuestion := VString (lit "What Russian words or phrases would you like to practice today?") |}
        /\ fetchWordData JSON_parse (Some generated)
           = Return {| phonetic := VString []; examples := VArray [];
                       translation := VString [] |}).
Proof.
  split; [apply ServiceFacts.try_catch_returns|].
  split; [apply ServiceFacts.try_catch_returns|].
  intros responseText -> [H1 H2].
  destruct (jsonMatch responseText) as [json|] eqn:Hm.
  - apply (ServiceFacts.generate_unparsed _ _ _ responseText json Hm).
    unfold jsonMatch in Hm.
    destruct (strategy1 responseText) as [whole|] eqn:Hs1.
    + injection Hm as <-. now apply H1.
    + now apply H2.
  - now apply ServiceFacts.generate_unmatched.
Qed.

Lemma extractor_total_witness :
  strategies_fail sample_parse (lit "Sure! {oops}")
  /\ generateVictorAIResponse sample_parse sample_StringToNumber sample_ObjectToNumber
       (Some (Return (lit "Sure! {oops}")))
     = Return apology
  /\ fetchWordData sample_parse (Some (Return (lit "Sure! {oops}"))) = Return empty_word.
Proof.
  assert (Hfail : strategies_fail sample_parse (lit "Sure! {oops}")).
  { split; intros json H; vm_compute in H; [|discriminate H].
    injection H as <-. reflexivity. }
  split; [exact Hfail|].
  destruct (extractor_total sample_parse sample_StringToNumber sample_ObjectToNumber
              (Return (lit "Sure! {oops}"))) as (_ & _ & H).
  exact (H (lit "Sure! {oops}") eq_refl Hfail).
Defined.

(** C5, as the code has it (a string in the place of the corrections).
    When the parsed object holds a non-empty reply string and, for the
    corrections, a non-empty string instead of a list, extraction does not
    fail: it returns the reply, and it returns the string as the
    corrections. *)
Theorem string_corrections_pass_through (JSON_parse : jsstring -> option value)
  (StringToNumber : jsstring -> number) (ObjectToNumber : value -> completion number)
  (responseText json : jsstring) (props : list (jsstring * value))
  (reply wrong : jsstring) :
  jsonMatch responseText = Some json ->
  JSON_parse json = Some (VObject props) ->
  own (lit "response") props = VString reply -> reply <> [] ->
  own (lit "corrections") props = VString wrong -> wrong <> [] ->
  exists r,
    generateVictorAIResponse JSON_parse StringToNumber ObjectToNumber
      (Some (Return responseText)) = Return r
    /\ response r = VString reply
    /\ corrections r = VString wrong.
Proof.
  intros Hm Hp Hr Hreply Hc Hwrong.
  rewrite (ServiceFacts.generate_parsed _ _ _ responseText json _ Hm Hp).
  rewrite (ServiceFacts.fields_string_corrections _ _ props wrong Hc Hwrong).
  eexists. split; [reflexivity|]. cbn [response corrections]. split; [|reflexivity].
  rewrite Hr. unfold or_else. destruct reply; [contradiction|reflexivity].
Qed.

Lemma string_corrections_pass_through_witness :
  jsonMatch wrong_corrections_json = Some wrong_corrections_json
  /\ sample_parse wrong_corrections_json = Some wrong_corrections_object
  /\ exists r,
       generateVictorAIResponse sample_parse sample_StringToNumber sample_ObjectToNumber
         (Some (Return wrong_corrections_json)) = Return r
       /\ response r = VString (lit "Hi")
       /\ corrections r = VString (lit "oops").
Proof.
  split; [reflexivity|]. split; [reflexivity|].
  apply (string_corrections_pass_through sample_parse sample_StringToNumber
           sample_ObjectToNumber wrong_corrections_json wrong_corrections_json
           [(lit "response", VString (lit "Hi")); (lit "corrections", VString (lit "oops"))]
           (lit "Hi") (lit "oops"));
    try reflexivity; discriminate.
Defined.

(** On [{"response":"Hi","corrections":"oops"}] the corrections are not
    left out. *)
Lemma string_corrections_not_omitted :
  exists r,
    generateVictorAIResponse sample_parse sample_StringToNumber sample_ObjectToNumber
      (Some (Return wrong_corrections_json)) = Return r
    /\ response r = VString (lit "Hi")
    /\ corrections r = VString (lit "oops")
    /\ corrections r <> VUndefined.
Proof.
  eexists. split; [vm_compute; reflexivity|].
  cbn [response corrections]. repeat split. discriminate.
Qed.



(** C6, as the code has it (the order of the strategies).  The fenced
    block is looked for only when the brace pattern finds nothing.  When the
    brace pattern finds a substring, that substring alone goes to the
    parser, and if it does not parse, extraction returns the defaults at
    once, whatever the fenced pattern would have found.  When the brace
    pattern finds nothing, the fenced pattern, which holds a brace pair of
    its own, finds nothing either, and extraction returns the defaults. *)
Theorem fenced_block_only_without_braces (JSON_parse : jsstring -> option value)
  (StringToNumber : jsstring -> number) (ObjectToNumber : value -> completion number)
  (responseText : jsstring) :
  (forall whole,
      strategy1 responseText = Some whole ->
      jsonMatch responseText = Some whole
      /\ (JSON_parse whole = None ->
          generateVictorAIResponse JSON_parse StringToNumber ObjectToNumber
            (Some (Return responseText)) = Return apology
          /\ fetchWordData JSON_parse (Some (Return responseText)) = Return empty_word))
  /\ (strategy1 responseText = None ->
      jsonMatch responseText = strategy2 responseText
      /\ strategy2 responseText = None
      /\ generateVictorAIResponse JSON_parse StringToNumber ObjectToNumber
           (Some (Return responseText)) = Return apology
      /\ fetchWordData JSON_parse (Some (Return responseText)) = Return empty_word).
Proof.
  split.
  - intros whole H1.
    assert (Hm : jsonMatch responseText = Some whole) by (unfold jsonMatch; now rewrite H1).
    split; [exact Hm|]. intros Hp.
    now apply (ServiceFacts.generate_unparsed _ _ _ responseText whole).
  - intros H1.
    assert (H2 := ExtractFacts.strategy2_needs_strategy1 responseText H1).
    assert (Hm : jsonMatch responseText = None) by (unfold jsonMatch; now rewrite H1).
    split; [unfold jsonMatch; now rewrite H1|]. split; [exact H2|].
    now apply ServiceFacts.generate_unmatched.
Qed.

Lemma fenced_block_only_without_braces_witness :
  strategy1 stray_braces = Some stray_candidate
  /\ sample_parse stray_candidate = None
  /\ jsonMatch stray_braces = Some stray_candidate
  /\ generateVictorAIResponse sample_parse sample_StringToNumber sample_ObjectToNumber
       (Some (Return stray_braces)) = Return apology
  /\ fetchWordData sample_parse (Some (Return stray_braces)) = Return empty_word.
Proof.
  assert (H1 : strategy1 stray_braces = Some stray_candidate) by reflexivity.
  assert (Hp : sample_parse stray_candidate = None) by reflexivity.
  split; [exact H1|]. split; [exact Hp|].
  destruct (fenced_block_only_without_braces sample_parse sample_StringToNumber
              sample_ObjectToNumber stray_braces) as [H _].
  destruct (H stray_candidate H1) as [Hm Hd].
  split; [exact Hm|]. exact (Hd Hp).
Defined.

(** On [{oops} ```json {"response":"Hi"} ```] the brace pattern finds a
    substring that does not parse, the fenced block holds an object that
    does, and extraction returns the defaults: the fenced block is not
    tried. *)
Lemma fenced_block_not_tried :
  strategy1 stray_braces = Some stray_candidate
  /\ sample_parse stray_candidate = None
  /\ strategy2 stray_braces = Some hi_json
  /\ sample_parse hi_json = Some hi_object
  /\ victor_fields sample_StringToNumber sample_ObjectToNumber hi_object
     = Return {| response := VString (lit "Hi"); corrections := VUndefined;
                 vocabularyTip := VUndefined; pronunciationTip := VUndefined;
                 followUpQuestion := default_followUp |}
  /\ generateVictorAIResponse sample_parse sample_StringToNumber sample_ObjectToNumber
       (Some (Return stray_braces)) = Return apology
  /\ response apology <> VString (lit "Hi").
Proof. repeat split. discriminate. Qed.

(** * Further properties of the code *)

(** ** The cleaned text *)

Module NormalFacts.
Import JS Terms Notions JSFacts.

Lemma star_span (p : Z -> bool) (s : jsstring) :
  forall b, exec [Star p] b s = Some [span p s].
Proof.
  induction s as [|c s IH]; intros b; [reflexivity|].
  rewrite exec_star_cons. cbn [span]. destruct (p c); [|reflexivity].
  now rewrite IH.
Qed.

Lemma exec_plus_span (p : Z -> bool) (b : bool) (c : Z) (s : jsstring) :
  exec (plus p) b (c :: s) = if p c then Some [1%nat; span p s] else None.
Proof.
  unfold plus. rewrite exec_one_cons. destruct (p c); [|reflexivity].
  now rewrite star_span.
Qed.

Lemma total_plus (n : nat) : total [1%nat; n] = S n.
Proof. cbn. now rewrite Nat.add_0_r. Qed.

(** Collapsing leaves single spaces, each with a unit that is no white
    space behind it when anything is behind it. *)
Lemma collapse_tidy (s : jsstring) :
  forall b,
    tidy (replace_from (plus is_space) [32] b 0 s)
    /\ tidy (replace_from (plus is_space) [32] b (span is_space s) s)
    /\ match replace_from (plus is_space) [32] b (span is_space s) s with
       | [] => True
       | d :: _ => is_space d = false
       end.
Proof.
  induction s as [|c s IH]; intros b.
  - cbn. repeat split.
  - assert (HA : tidy (replace_from (plus is_space) [32] b 0 (c :: s))).
    { cbn [replace_from]. rewrite exec_plus_span.
      destruct (is_space c) eqn:Hc.
      - rewrite total_plus. cbn [app].
        destruct (IH false) as (_ & Htidy & Hhead).
        cbn [tidy]. split; [|exact Htidy]. intros _. split; [reflexivity|exact Hhead].
      - cbn [tidy]. split; [|apply IH]. intros H. congruence. }
    split; [exact HA|].
    cbn [span]. destruct (is_space c) eqn:Hc.
    + cbn [replace_from]. destruct (IH false) as (_ & Htidy & Hhead). now split.
    + split; [exact HA|]. cbn [replace_from]. rewrite exec_plus_span, Hc. exact Hc.
Qed.

Lemma tidy_tail (c : Z) (t : jsstring) : tidy (c :: t) -> tidy t.
Proof. now intros [_ H]. Qed.

Lemma tidy_prefix (a b : jsstring) : tidy (a ++ b) -> tidy a.
Proof.
  induction a as [|c a IH]; intros H; [exact I|].
  cbn [app tidy] in *. destruct H as [Hc Ht]. split; [|now apply IH].
  intros Hs. destruct (Hc Hs) as [H32 Hnext]. split; [exact H32|].
  destruct a; [exact I|exact Hnext].
Qed.

Lemma tidy_suffix (a b : jsstring) : tidy (a ++ b) -> tidy b.
Proof. induction a as [|c a IH]; intros H; [exact H|]. apply IH. now apply tidy_tail in H. Qed.

(** [trim] takes white space off the two ends and nothing else. *)
Lemma trim_start_part (s : jsstring) :
  exists a, s = a ++ trim_start s /\ Forall (fun c => is_space c = true) a.
Proof.
  induction s as [|c s IH].
  - now exists [].
  - cbn [trim_start]. destruct (is_space c) eqn:Hc.
    + destruct IH as (a & Ha & Hall). exists (c :: a). split.
      * cbn. now rewrite <- Ha.
      * now constructor.
    + now exists [].
Qed.

Lemma trim_start_head (s : jsstring) (c : Z) (rest : jsstring) :
  trim_start s = c :: rest -> is_space c = false.
Proof.
  induction s as [|x s IH]; [discriminate|].
  cbn [trim_start]. destruct (is_space x) eqn:Hx; [exact IH|].
  intros H. injection H as <- _. exact Hx.
Qed.

Lemma trim_start_fixed (c : Z) (s : jsstring) :
  is_space c = false -> trim_start (c :: s) = c :: s.
Proof. intros H. cbn. now rewrite H. Qed.

Lemma trim_end_snoc (s : jsstring) (c : Z) :
  trim_end (s ++ [c]) = if is_space c then trim_end s else s ++ [c].
Proof.
  unfold trim_end. rewrite rev_app_distr. cbn [rev app trim_start].
  destruct (is_space c); [reflexivity|].
  cbn [rev]. now rewrite rev_involutive.
Qed.

Lemma trim_end_part (s : jsstring) :
  exists b, s = trim_end s ++ b /\ Forall (fun c => is_space c = true) b.
Proof.
  induction s as [|c s IH] using rev_ind.
  - now exists [].
  - rewrite trim_end_snoc. destruct (is_space c) eqn:Hc.
    + destruct IH as (b & Hb & Hall). exists (b ++ [c]). split.
      * rewrite app_assoc. now rewrite <- Hb.
      * apply Forall_app. split; [exact Hall|]. now constructor.
    + exists []. now rewrite app_nil_r.
Qed.

Lemma trim_end_last (s front : jsstring) (c : Z) :
  trim_end s = front ++ [c] -> is_space c = false.
Proof.
  induction s as [|x s IH] using rev_ind.
  - cbn. intros H. now destruct front.
  - rewrite trim_end_snoc. destruct (is_space x) eqn:Hx; [exact IH|].
    intros H. apply app_inj_tail in H. destruct H as [_ <-]. exact Hx.
Qed.

Lemma trim_ends_clean (s : jsstring) : ends_clean (trim s).
Proof.
  unfold trim. split.
  - intros c rest H.
    destruct (trim_end_part (trim_start s)) as (b & Hb & _).
    rewrite H in Hb. cbn [app] in Hb. now apply trim_start_head in Hb.
  - intros c front H. now apply trim_end_last in H.
Qed.

Lemma trim_part (s : jsstring) :
  exists a b, s = a ++ trim s ++ b
              /\ Forall (fun c => is_space c = true) a
              /\ Forall (fun c => is_space c = true) b.
Proof.
  destruct (trim_start_part s) as (a & Ha & Halla).
  destruct (trim_end_part (trim_start s)) as (b & Hb & Hallb).
  exists a, b. unfold trim. now rewrite <- Hb, <- Ha.
Qed.

Lemma trim_tidy (s : jsstring) : tidy s -> tidy (trim s).
Proof.
  intros H. destruct (trim_part s) as (a & b & Hs & _).
  rewrite Hs in H. apply tidy_suffix in H. now apply tidy_prefix in H.
Qed.

Lemma cleaned_tidy (text : jsstring) :
  tidy (Web.cleanedText text) /\ ends_clean (Web.cleanedText text).
Proof.
  unfold Web.cleanedText. split; [|apply trim_ends_clean].
  apply trim_tidy. unfold replace_all, Web.re_spaces. apply collapse_tidy.
Qed.

(** In a tidy string with clean ends every white-space unit is a single
    space between two units that are no white space. *)
Lemma tidy_middle (pre post : jsstring) (x : Z) :
  tidy (pre ++ x :: post) -> ends_clean (pre ++ x :: post) -> is_space x = true ->
  x = 32
  /\ (exists a front, pre = front ++ [a] /\ is_space a = false)
  /\ (exists b back, post = b :: back /\ is_space b = false).
Proof.
  intros Ht [Hhead Hlast] Hx.
  assert (Hmid := tidy_suffix _ _ Ht). cbn [tidy] in Hmid.
  destruct Hmid as [Hmid _]. destruct (Hmid Hx) as [H32 Hnext].
  split; [exact H32|]. split.
  - destruct pre as [|p pre] using rev_ind.
    + specialize (Hhead x post eq_refl). congruence.
    + exists p, pre. split; [reflexivity|].
      destruct (is_space p) eqn:Hp; [|reflexivity].
      rewrite <- app_assoc in Ht. apply tidy_suffix in Ht.
      cbn [app tidy] in Ht. destruct Ht as [Hpx _].
      destruct (Hpx Hp) as [_ Hxn]. congruence.
  - destruct post as [|b back].
    + specialize (Hlast x pre eq_refl). congruence.
    + now exists b, back.
Qed.

End NormalFacts.

(** ** Parenthesized asides *)

Module AsideFacts.
Import JS Terms Notions JSFacts NormalFacts.

(** [replace] puts nothing into the subject but the replacement. *)
Lemma replace_units (r : regex) (by_ s : jsstring) (x : Z) :
  forall b skip, In x (replace_from r by_ b skip s) -> In x by_ \/ In x s.
Proof.
  induction s as [|c s IH]; intros b skip H.
  - destruct skip; cbn [replace_from] in H; [|contradiction].
    destruct (exec r b []); [|contradiction].
    apply in_app_or in H. destruct H as [H|[]]. now left.
  - destruct skip as [|k]; cbn [replace_from] in H.
    + destruct (exec r b (c :: s)) as [ls|].
      * apply in_app_or in H. destruct H as [H|H]; [now left|].
        destruct (total ls).
        -- destruct H as [<-|H]; [right; now left|].
           apply IH in H. destruct H; [now left|right; now right].
        -- apply IH in H. destruct H; [now left|right; now right].
      * destruct H as [<-|H]; [right; now left|].
        apply IH in H. destruct H; [now left|right; now right].
    + apply IH in H. destruct H; [now left|right; now right].
Qed.

Lemma exec_first_one (p : Z -> bool) (r : regex) (b : bool) (s : jsstring) (ls : list nat) :
  exec (One p :: r) b s = Some ls ->
  exists c s' ls', s = c :: s' /\ p c = true /\ ls = 1%nat :: ls'.
Proof.
  destruct s as [|c s]; [discriminate|]. rewrite exec_one_cons.
  destruct (p c) eqn:Hc; [|discriminate].
  destruct (exec r false s) as [ls'|]; [|discriminate].
  intros H. injection H as <-. now exists c, s, ls'.
Qed.

(** The aside pattern matches at an opening parenthesis exactly when a
    closing one follows. *)
Lemma exec_to_paren (s : jsstring) :
  forall b, exec [Star (fun c => negb (c =? 41)); chr 41] b s = None -> ~ In 41 s.
Proof.
  induction s as [|c s IH]; intros b H; [now intros []|].
  rewrite exec_star_cons in H. unfold chr in H. rewrite exec_one_cons in H.
  destruct (Z.eqb_spec c 41) as [->|Hc].
  - cbn in H. discriminate.
  - cbn [negb] in H.
    replace (41 =? c) with false in H by (symmetry; apply Z.eqb_neq; congruence).
    destruct (exec [Star (fun c0 => negb (c0 =? 41)); One (Z.eqb 41)] false s)
      as [[|n ls]|] eqn:He.
    + apply ExtractFacts.exec_length in He. discriminate.
    + discriminate.
    + intros [Hin|Hin]; [congruence|]. exact (IH false He Hin).
Qed.

Lemma exec_paren_closed (b : bool) (s : jsstring) (ls : list nat) :
  exec Web.re_parenthesized b s = Some ls ->
  exists s' ls', s = 40 :: s' /\ In 41 s' /\ ls = 1%nat :: ls'.
Proof.
  intros H. unfold Web.re_parenthesized, chr in H.
  destruct (exec_first_one _ _ _ _ _ H) as (c & s' & ls' & -> & Hc & ->).
  apply Z.eqb_eq in Hc. subst c.
  rewrite exec_one_cons in H. cbn [Z.eqb Pos.eqb] in H.
  destruct (exec [Star (fun c => negb (c =? 41)); One (Z.eqb 41)] false s') as [l|] eqn:He;
    [|discriminate].
  apply ExtractFacts.exec_star_inv in He.
  destruct He as (pre & t & b' & l' & -> & He).
  apply ExtractFacts.exec_one_inv in He.
  destruct He as (c & t' & l'' & -> & Hc & _).
  apply Z.eqb_eq in Hc. subst c.
  exists (pre ++ 41 :: t'), ls'. repeat split.
  apply in_or_app. right. now left.
Qed.

Lemma exec_paren_open (b : bool) (s : jsstring) :
  exec Web.re_parenthesized b (40 :: s) = None -> ~ In 41 s.
Proof.
  unfold Web.re_parenthesized, chr. rewrite exec_one_cons. cbn [Z.eqb Pos.eqb].
  destruct (exec [Star (fun c => negb (c =? 41)); One (Z.eqb 41)] false s) eqn:He;
    [discriminate|].
  intros _. now apply (exec_to_paren s false).
Qed.

Lemma no_aside_tail (c : Z) (s : jsstring) : no_aside (c :: s) -> no_aside s.
Proof. intros H pre post ->. now apply (H (c :: pre) post). Qed.

Lemma no_aside_cons (c : Z) (s : jsstring) :
  (c = 40 -> ~ In 41 s) -> no_aside s -> no_aside (c :: s).
Proof.
  intros Hc Hs pre post H. destruct pre as [|x pre].
  - cbn in H. injection H as -> <-. now apply Hc.
  - cbn in H. injection H as _ ->. now apply (Hs pre post).
Qed.

Lemma no_aside_part (a m b : jsstring) : no_aside (a ++ m ++ b) -> no_aside m.
Proof.
  intros H pre post ->. intros Hin.
  apply (H (a ++ pre) (post ++ b)).
  - now rewrite <- !app_assoc.
  - apply in_or_app. now left.
Qed.

(** Where no closing parenthesis is left, nothing is removed. *)
Lemma strip_open (s : jsstring) :
  ~ In 41 s -> forall b, replace_from Web.re_parenthesized [] b 0 s = s.
Proof.
  induction s as [|c s IH]; intros Hno b; [reflexivity|].
  cbn [replace_from].
  destruct (exec Web.re_parenthesized b (c :: s)) as [ls|] eqn:He.
  - apply exec_paren_closed in He. destruct He as (s' & ls' & Hs & Hin & _).
    injection Hs as -> ->. exfalso. apply Hno. now right.
  - rewrite IH; [reflexivity|]. intros H. apply Hno. now right.
Qed.

(** What the first [replace] returns holds no aside. *)
Lemma strip_no_aside (s : jsstring) :
  forall b skip, no_aside (replace_from Web.re_parenthesized [] b skip s).
Proof.
  induction s as [|c s IH]; intros b skip.
  - assert (H : replace_from Web.re_parenthesized [] b skip [] = [])
      by now destruct skip.
    rewrite H. intros pre post Heq. now destruct pre.
  - destruct skip as [|k]; cbn [replace_from]; [|apply IH].
    destruct (exec Web.re_parenthesized b (c :: s)) as [ls|] eqn:He.
    + apply exec_paren_closed in He. destruct He as (s' & ls' & _ & _ & ->).
      cbn [total fold_right Nat.add app]. apply IH.
    + apply no_aside_cons; [|apply IH].
      intros ->. apply exec_paren_open in He.
      now rewrite (strip_open s He).
Qed.

(** Collapsing and trimming bring no aside back. *)
Lemma collapse_no_aside (s : jsstring) :
  no_aside s ->
  forall b skip, no_aside (replace_from (plus is_space) [32] b skip s).
Proof.
  induction s as [|c s IH]; intros Hs b skip.
  - assert (H : replace_from (plus is_space) [32] b skip [] = [])
      by now destruct skip.
    rewrite H. intros pre post Heq. now destruct pre.
  - assert (Hs' := no_aside_tail _ _ Hs).
    destruct skip as [|k]; cbn [replace_from]; [|now apply IH].
    rewrite exec_plus_span. destruct (is_space c) eqn:Hc.
    + rewrite total_plus. cbn [app]. apply no_aside_cons; [discriminate|now apply IH].
    + apply no_aside_cons; [|now apply IH].
      intros -> Hin. apply replace_units in Hin.
      destruct Hin as [[H|[]]|Hin]; [discriminate|].
      now apply (Hs [] s eq_refl).
Qed.

Lemma cleaned_no_aside (text : jsstring) : no_aside (Web.cleanedText text).
Proof.
  unfold Web.cleanedText.
  destruct (trim_part (replace_all Web.re_spaces [32]
                         (replace_all Web.re_parenthesized [] text)))
    as (a & b & Hs & _).
  apply (no_aside_part a _ b). rewrite <- Hs.
  unfold replace_all, Web.re_spaces. apply collapse_no_aside, strip_no_aside.
Qed.

(** A cleaned text is left as it is by each of the three passes. *)
Lemma strip_fixed (s : jsstring) :
  no_aside s -> forall b, replace_from Web.re_parenthesized [] b 0 s = s.
Proof.
  induction s as [|c s IH]; intros Hs b; [reflexivity|].
  cbn [replace_from].
  destruct (exec Web.re_parenthesized b (c :: s)) as [ls|] eqn:He.
  - apply exec_paren_closed in He. destruct He as (s' & ls' & Heq & Hin & _).
    injection Heq as -> <-. exfalso. now apply (Hs [] s eq_refl).
  - rewrite IH; [reflexivity|]. now apply no_aside_tail in Hs.
Qed.

Lemma collapse_fixed (s : jsstring) :
  tidy s -> (forall c front, s = front ++ [c] -> is_space c = false) ->
  forall b, replace_from (plus is_space) [32] b 0 s = s.
Proof.
  induction s as [|c s IH]; intros Ht Hlast b; [reflexivity|].
  assert (Hlast' : forall x front, s = front ++ [x] -> is_space x = false).
  { intros x front ->. apply (Hlast x (c :: front)). reflexivity. }
  cbn [replace_from]. rewrite exec_plus_span.
  destruct (is_space c) eqn:Hc.
  - cbn [tidy] in Ht. destruct Ht as [Hnext Ht]. destruct (Hnext Hc) as [-> Hd].
    destruct s as [|d s].
    + specialize (Hlast 32 [] eq_refl). congruence.
    + cbn [span]. rewrite Hd, total_plus. cbn [app].
      now rewrite IH.
  - rewrite IH; [reflexivity| |exact Hlast']. now apply tidy_tail in Ht.
Qed.

Lemma trim_fixed (s : jsstring) : ends_clean s -> trim s = s.
Proof.
  intros [Hhead Hlast]. unfold trim.
  assert (Hs : trim_start s = s).
  { destruct s as [|c s]; [reflexivity|].
    apply trim_start_fixed. now apply (Hhead c s). }
  rewrite Hs.
  destruct s as [|c s] using rev_ind; [reflexivity|].
  rewrite trim_end_snoc. now rewrite (Hlast c s eq_refl).
Qed.

Lemma cleaned_fixed (text : jsstring) :
  Web.cleanedText (Web.cleanedText text) = Web.cleanedText text.
Proof.
  destruct (cleaned_tidy text) as [Ht He].
  assert (Ha := cleaned_no_aside text).
  set (c := Web.cleanedText text) in *.
  unfold Web.cleanedText, replace_all, Web.re_spaces.
  rewrite (strip_fixed c Ha), (collapse_fixed c Ht (proj2 He)).
  now apply trim_fixed.
Qed.

End AsideFacts.

(** ** The runs *)

Module RunFacts.
Import JS Terms Notions JSFacts NormalFacts.

(** The words of a cleaned text: a token, then a single space and a token
    as often as it takes. *)
Lemma split_tidy (s : jsstring) :
  forall b piece,
    tidy s -> (forall c front, s = front ++ [c] -> is_space c = false) ->
    no_space piece ->
    (piece <> [] \/ exists c rest, s = c :: rest /\ is_space c = false) ->
    exists tok rest,
      split_from (plus is_space) b 0 piece s = tok :: rest
      /\ token tok /\ spaced rest.
Proof.
  induction s as [|c s IH]; intros b piece Ht Hlast Hpiece Hstart.
  - exists piece, []. split; [reflexivity|]. split; [|constructor].
    split; [|exact Hpiece]. destruct Hstart as [H|(x & r & H & _)]; [exact H|discriminate].
  - assert (Hlast' : forall x front, s = front ++ [x] -> is_space x = false).
    { intros x front ->. apply (Hlast x (c :: front)). reflexivity. }
    assert (Ht' := tidy_tail _ _ Ht).
    cbn [split_from]. rewrite exec_plus_span. destruct (is_space c) eqn:Hc.
    + cbn [tidy] in Ht. destruct Ht as [Hnext _]. destruct (Hnext Hc) as [-> Hd].
      destruct s as [|d s]; [specialize (Hlast 32 [] eq_refl); congruence|].
      cbn [span]. rewrite Hd, total_plus. cbn [firstn].
      destruct (IH false [] Ht' Hlast' (Forall_nil _)) as (tok & rest & Hsplit & Htok & Hrest).
      { right. now exists d, s. }
      exists piece, ([32] :: tok :: rest). split; [now rewrite Hsplit|].
      split; [|now constructor]. split; [|exact Hpiece].
      destruct Hstart as [H|(x & r & H & Hx)]; [exact H|].
      injection H as <- _. congruence.
    + apply IH; try assumption.
      * apply Forall_app. split; [exact Hpiece|]. now constructor.
      * left. now destruct piece.
Qed.

Lemma words_shape (text : jsstring) :
  (Web.cleanedText text = [] /\ Web.words text = [[]])
  \/ exists tok rest, Web.words text = tok :: rest /\ token tok /\ spaced rest.
Proof.
  destruct (cleaned_tidy text) as [Ht [Hhead Hlast]].
  unfold Web.words. destruct (Web.cleanedText text) as [|c s] eqn:Hclean.
  - left. now split.
  - right. unfold split_captured, Web.re_spaces.
    apply split_tidy; try assumption; [constructor|].
    right. exists c, s. split; [reflexivity|]. now apply (Hhead c s).
Qed.

Lemma has_russian_app (a b : jsstring) :
  has_russian (a ++ b) = has_russian a || has_russian b.
Proof. apply existsb_app. Qed.

Lemma last_lang_snoc (gs : list Web.group) (g : Web.group) :
  last_lang (gs ++ [g]) = Some (Web.lang g).
Proof. unfold last_lang. now rewrite rev_app_distr. Qed.

Lemma last_lang_cons (h g : Web.group) (t : list Web.group) :
  last_lang (h :: g :: t) = last_lang (g :: t).
Proof.
  unfold last_lang. cbn [rev].
  destruct (rev t ++ [g]) as [|x r] eqn:Hr; [|reflexivity].
  now destruct (rev t).
Qed.

Lemma alternate_snoc (gs : list Web.group) (g : Web.group) :
  alternate gs -> last_lang gs <> Some (Web.lang g) -> alternate (gs ++ [g]).
Proof.
  induction gs as [|h gs IH]; intros Ha Hl; [exact I|].
  destruct gs as [|h' t].
  - cbn. split; [|exact I]. intros H. apply Hl. cbn. now rewrite H.
  - cbn [alternate] in Ha. destruct Ha as [Hh Ha].
    rewrite last_lang_cons in Hl.
    change (Web.lang h <> Web.lang h' /\ alternate ((h' :: t) ++ [g])).
    split; [exact Hh|]. now apply IH.
Qed.

Lemma steady_blank (st : Web.loop) : steady st -> steady (Web.visit st [32]).
Proof.
  intros (Hruns & Halt & (c & rest & Hbuf & Hc) & Hlang & Hlast).
  unfold Web.visit. change (test Web.re_blank [32]) with true. cbv iota.
  repeat split; cbn [Web.groups Web.buffer Web.currentLang]; try assumption.
  - exists c, (rest ++ [32]). now rewrite Hbuf.
  - rewrite has_russian_app. change (has_russian [32]) with false.
    now rewrite orb_false_r.
Qed.

Lemma steady_token (st : Web.loop) (tok : jsstring) :
  token tok -> steady st -> steady (Web.visit st tok).
Proof.
  intros [Hne Hns] (Hruns & Halt & (c & rest & Hbuf & Hc) & Hlang & Hlast).
  unfold Web.visit, Web.re_blank. rewrite (test_blank_no_space tok Hns).
  rewrite SegmentFacts.is_russian. fold (has_russian tok).
  rewrite Hlang in *.
  set (cur := if has_russian (Web.buffer st) then Web.ru_RU else Web.en_US) in *.
  set (new := if has_russian tok then Web.ru_RU else Web.en_US).
  destruct (Web.Lang_eqb new cur) eqn:Heq.
  - repeat split; cbn [Web.groups Web.buffer Web.currentLang]; try assumption.
    + exists c, (rest ++ tok). now rewrite Hbuf.
    + rewrite has_russian_app. f_equal. subst cur new.
      destruct (has_russian (Web.buffer st)), (has_russian tok);
        try reflexivity; discriminate.
  - assert (Hdiff : new <> cur) by (intros E; rewrite E in Heq; now destruct cur).
    repeat split; cbn [Web.groups Web.buffer Web.currentLang].
    + apply Forall_app. split; [exact Hruns|]. constructor; [|constructor].
      split; cbn [Web.text Web.lang]; [now exists c, rest|reflexivity].
    + apply alternate_snoc; [exact Halt|exact Hlast].
    + destruct tok as [|x tok]; [contradiction|]. exists x, tok. split; [reflexivity|].
      now inversion Hns.
    + rewrite last_lang_snoc. cbn [Web.lang]. congruence.
Qed.

Lemma steady_loop (rest : list jsstring) :
  spaced rest -> forall st, steady st -> steady (fold_left Web.visit rest st).
Proof.
  induction 1 as [|tok rest Htok Hrest IH]; intros st Hst; [exact Hst|].
  cbn [fold_left]. apply IH. apply steady_token; [exact Htok|].
  now apply steady_blank.
Qed.

Lemma steady_first (tok : jsstring) : token tok -> steady (Web.visit Web.start tok).
Proof.
  intros [Hne Hns]. rewrite (SegmentFacts.visit_first tok Hns), SegmentFacts.is_russian.
  repeat split; cbn [Web.groups Web.buffer Web.currentLang].
  - constructor.
  - destruct tok as [|x tok]; [contradiction|]. exists x, tok. split; [reflexivity|].
    now inversion Hns.
  - discriminate.
Qed.

Lemma steady_flush (st : Web.loop) :
  steady st -> Forall sound_run (Web.flush st) /\ alternate (Web.flush st).
Proof.
  intros (Hruns & Halt & (c & rest & Hbuf & Hc) & Hlang & Hlast).
  unfold Web.flush. rewrite Hbuf. rewrite <- Hbuf. split.
  - apply Forall_app. split; [exact Hruns|]. constructor; [|constructor].
    split; cbn [Web.text Web.lang]; [now exists c, rest|exact Hlang].
  - now apply alternate_snoc.
Qed.

Lemma segment_sound (text : jsstring) :
  Forall sound_run (Web.segment text) /\ alternate (Web.segment text).
Proof.
  unfold Web.segment.
  destruct (words_shape text) as [[_ Hw]|(tok & rest & Hw & Htok & Hrest)]; rewrite Hw.
  - split; [constructor|exact I].
  - unfold Web.group_words. cbn [fold_left].
    apply steady_flush, steady_loop; [exact Hrest|now apply steady_first].
Qed.

(** Cleaning brings in nothing but spaces. *)
Lemma cleaned_units (text : jsstring) (x : Z) :
  In x (Web.cleanedText text) -> x = 32 \/ In x text.
Proof.
  unfold Web.cleanedText. intros H.
  destruct (trim_part (replace_all Web.re_spaces [32]
                         (replace_all Web.re_parenthesized [] text)))
    as (a & b & Hs & _).
  assert (Hin : In x (replace_all Web.re_spaces [32]
                        (replace_all Web.re_parenthesized [] text))).
  { rewrite Hs. apply in_or_app. right. apply in_or_app. now left. }
  apply AsideFacts.replace_units in Hin. destruct Hin as [[Hin|[]]|Hin]; [now left|].
  apply AsideFacts.replace_units in Hin. destruct Hin as [[]|Hin]. now right.
Qed.

Lemma run_units (text : jsstring) (g : Web.group) (x : Z) :
  In g (Web.segment text) -> In x (Web.text g) -> In x (Web.cleanedText text).
Proof.
  intros Hg Hx. rewrite <- SegmentFacts.web_round_trip. unfold web_text.
  apply in_concat. exists (Web.text g). split; [now apply in_map|exact Hx].
Qed.

End RunFacts.

(** ** Voices and jobs *)

Module JobFacts.
Import JS Terms Notions.

Lemma getVoice_found (voices : list Web.voice) (l : option Web.Lang) (v : Web.voice) :
  Web.getVoice voices l = Some v ->
  In v voices /\ starts_with (wanted l) (Web.locale v) = true.
Proof.
  unfold Web.getVoice, wanted.
  destruct l as [[|]|].
  2:{ intros H. now apply find_some in H. }
  all: destruct (find (fun v0 => starts_with (lit "en") (Web.locale v0)
                                 && includes (lit "Natural") (Web.name v0)) voices)
         as [n|] eqn:Hn;
       [ intros H; injection H as <-; apply find_some in Hn;
         destruct Hn as [Hin Hb]; apply andb_true_iff in Hb; now split
       | intros H; now apply find_some in H ].
Qed.

Lemma getVoice_missing (voices : list Web.voice) (l : option Web.Lang) :
  Web.getVoice voices l = None ->
  forall v, In v voices -> starts_with (wanted l) (Web.locale v) = false.
Proof.
  unfold Web.getVoice, wanted. intros H v Hv.
  destruct l as [[|]|].
  2:{ exact (find_none _ _ H v Hv). }
  all: destruct (find (fun v0 => starts_with (lit "en") (Web.locale v0)
                                 && includes (lit "Natural") (Web.name v0)) voices);
       [discriminate|exact (find_none _ _ H v Hv)].
Qed.

Lemma getVoice_natural (voices : list Web.voice) (l : option Web.Lang) (n : Web.voice) :
  l <> Some Web.ru_RU ->
  In n voices -> starts_with (lit "en") (Web.locale n) = true ->
  includes (lit "Natural") (Web.name n) = true ->
  exists v, Web.getVoice voices l = Some v
            /\ includes (lit "Natural") (Web.name v) = true.
Proof.
  intros Hl Hn Hen Hnat.
  assert (H : exists v, find (fun v0 => starts_with (lit "en") (Web.locale v0)
                                        && includes (lit "Natural") (Web.name v0)) voices
                        = Some v).
  { destruct (find _ voices) as [v|] eqn:Hf; [now exists v|].
    apply (find_none _ _ Hf) in Hn. cbv beta in Hn. rewrite Hen, Hnat in Hn. discriminate. }
  destruct H as (v & Hf). exists v.
  assert (Hv := find_some _ _ Hf). destruct Hv as [_ Hb].
  apply andb_true_iff in Hb.
  unfold Web.getVoice. destruct l as [[|]|]; try contradiction; rewrite Hf; now split.
Qed.

(** *** What [speak], [stopSpeaking] and the listeners keep *)

Lemma nth_planned (jb : Web.job) (i : nat) (g : Web.group) :
  nth_error (Web.j_groups jb) i = Some g ->
  nth_error (planned jb) i = Some (i, Web.utter (Web.j_voices jb) g).
Proof.
  unfold planned.
  assert (H : forall l a i,
             nth_error l i = Some g ->
             nth_error (combine (seq a (length l)) (map (Web.utter (Web.j_voices jb)) l)) i
             = Some ((a + i)%nat, Web.utter (Web.j_voices jb) g)).
  { induction l as [|x l IH]; intros a [|k] Hk; try discriminate.
    - injection Hk as ->. cbn. now rewrite Nat.add_0_r.
    - cbn in *. rewrite (IH (S a) k Hk). now rewrite Nat.add_succ_r. }
  intros Hg. now rewrite (H _ 0%nat i Hg).
Qed.

Lemma handed_cancel (j : nat) (w w' : Web.world) :
  Web.calls w' = Web.calls w ++ [Web.cancel] -> handed j w' = handed j w.
Proof.
  unfold handed. intros ->. rewrite flat_map_app. cbn [flat_map]. now rewrite app_nil_r.
Qed.

Lemma handed_spoken (j j' i : nat) (u : Web.utterance) (w w' : Web.world) :
  Web.calls w' = Web.calls w ++ [Web.speak_utterance j' i u] ->
  handed j w' = handed j w ++ (if (j' =? j)%nat then [(i, u)] else []).
Proof.
  unfold handed. intros ->. rewrite flat_map_app. cbn [flat_map]. now rewrite app_nil_r.
Qed.

Lemma handed_calls (j : nat) (w w' : Web.world) :
  Web.calls w = Web.calls w' -> handed j w = handed j w'.
Proof. unfold handed. now intros ->. Qed.

Lemma handed_none (j : nat) (w : Web.world) :
  (forall i u, ~ In (Web.speak_utterance j i u) (Web.calls w)) -> handed j w = [].
Proof.
  unfold handed. induction (Web.calls w) as [|c l IH]; intros H; [reflexivity|].
  cbn [flat_map]. rewrite IH.
  - destruct c as [|j' i u]; [reflexivity|].
    destruct (Nat.eqb_spec j' j) as [->|]; [|reflexivity].
    exfalso. apply (H i u). now left.
  - intros i u Hin. apply (H i u). now right.
Qed.

Ltac eight := split; [|split; [|split; [|split; [|split; [|split; [|split]]]]]].

Lemma tracked_boot : tracked Web.boot.
Proof.
  unfold tracked, Web.boot. cbn [Web.jobs Web.calls Web.ended Web.listening].
  eight; try (intros; contradiction); try constructor.
  intros j jb H. now destruct j.
Qed.

(** A listener that has run is gone. *)
Lemma tracked_filter (w : Web.world) (keep : nat * nat -> bool) :
  tracked w ->
  tracked {| Web.jobs := Web.jobs w; Web.calls := Web.calls w; Web.ended := Web.ended w;
             Web.listening := filter keep (Web.listening w) |}.
Proof.
  intros (K1 & K2 & K3 & K4 & K5 & K6 & K7 & K8).
  unfold tracked. cbn [Web.jobs Web.calls Web.ended Web.listening].
  eight; try assumption.
  - intros j i H. apply filter_In in H. now apply (K2 j i).
  - intros j i H. apply filter_In in H. now apply (K5 j i).
  - intros j i i' H H'. apply filter_In in H, H'. now apply (K6 j i i').
  - intros j jb Hj. destruct (K8 j jb Hj) as (m & Hm & Hl & He).
    exists m. split; [exact Hm|]. split; [|exact He].
    intros i H. apply filter_In in H. now apply Hl.
Qed.

(** [speak] up to the point where it looks at the groups. *)
Lemma tracked_extend (w : Web.world) (jb : Web.job) :
  tracked w -> (exists text, Web.j_groups jb = Web.segment text) ->
  tracked {| Web.jobs := Web.jobs w ++ [jb]; Web.calls := Web.calls w ++ [Web.cancel];
             Web.ended := Web.ended w; Web.listening := Web.listening w |}.
Proof.
  intros (K1 & K2 & K3 & K4 & K5 & K6 & K7 & K8) Hjb.
  unfold tracked. cbn [Web.jobs Web.calls Web.ended Web.listening].
  rewrite length_app. cbn [length].
  eight; try assumption.
  - intros j i u H. apply in_app_or in H. destruct H as [H|[H|[]]]; [|discriminate].
    apply K1 in H. lia.
  - intros j i H. apply K2 in H. lia.
  - intros j H. apply K3 in H. lia.
  - intros jb' H. apply in_app_or in H. destruct H as [H|[<-|[]]]; [now apply K7|exact Hjb].
  - intros j jb' Hj.
    match goal with
    | |- context [handed j ?x] => rewrite (handed_cancel j w x eq_refl)
    end.
    destruct (Nat.lt_ge_cases j (length (Web.jobs w))) as [Hlt|Hge].
    + rewrite nth_error_app1 in Hj by exact Hlt. now apply K8.
    + exists 0%nat. split; [|split].
      * apply handed_none. intros i u H. apply K1 in H. lia.
      * intros i H. apply K2 in H. lia.
      * intros H. apply K3 in H. lia.
Qed.

Lemma tracked_stop (w : Web.world) : tracked w -> tracked (Web.stopSpeaking w).
Proof.
  intros (K1 & K2 & K3 & K4 & K5 & K6 & K7 & K8).
  unfold tracked, Web.stopSpeaking. cbn [Web.jobs Web.calls Web.ended Web.listening].
  eight; try assumption.
  - intros j i u H. apply in_app_or in H. destruct H as [H|[H|[]]]; [|discriminate].
    now apply K1 in H.
  - intros j jb Hj.
    match goal with
    | |- context [handed j ?x] => rewrite (handed_cancel j w x eq_refl)
    end.
    now apply K8.
Qed.

(** [speakGroup(i)] for a job that has nothing out, has not ended, and
    has handed over its first [i] runs. *)
Lemma tracked_speakGroup (w : Web.world) (j i : nat) (jb : Web.job) :
  tracked w ->
  nth_error (Web.jobs w) j = Some jb ->
  (forall i', ~ In (j, i') (Web.listening w)) ->
  ~ In j (Web.ended w) ->
  handed j w = firstn i (planned jb) ->
  tracked (Web.speakGroup j i w).
Proof.
  intros Hw Hj Hquiet Hopen Hhanded.
  assert (Hlt : (j < length (Web.jobs w))%nat) by (apply nth_error_Some; congruence).
  destruct Hw as (K1 & K2 & K3 & K4 & K5 & K6 & K7 & K8).
  unfold Web.speakGroup. rewrite Hj.
  destruct (nth_error (Web.j_groups jb) i) as [g|] eqn:Hg.
  - unfold tracked. cbn [Web.jobs Web.calls Web.ended Web.listening].
    eight; try assumption.
    + intros j' i' u H. apply in_app_or in H. destruct H as [H|[H|[]]]; [now apply K1 in H|].
      now injection H as <- _ _.
    + intros j' i' H. apply in_app_or in H. destruct H as [H|[H|[]]]; [now apply K2 in H|].
      now injection H as <- _.
    + intros j' i' H. apply in_app_or in H. destruct H as [H|[H|[]]]; [now apply K5 in H|].
      now injection H as <- _.
    + intros j' a b Ha Hb. apply in_app_or in Ha, Hb.
      destruct Ha as [Ha|[Ha|[]]], Hb as [Hb|[Hb|[]]].
      * now apply (K6 j' a b).
      * injection Hb as <- <-. now apply Hquiet in Ha.
      * injection Ha as <- <-. now apply Hquiet in Hb.
      * injection Ha as _ <-. now injection Hb as _ <-.
    + intros j' jb' Hj'.
      match goal with
      | |- context [handed j' ?x] =>
          rewrite (handed_spoken j' j i (Web.utter (Web.j_voices jb) g) w x eq_refl)
      end.
      destruct (Nat.eqb_spec j j') as [<-|Hne].
      * assert (jb' = jb) by congruence. subst jb'.
        exists (S i). split; [|split].
        -- rewrite (SpeakFacts.firstn_next (planned jb) i (i, Web.utter (Web.j_voices jb) g)).
           ++ now rewrite Hhanded.
           ++ now apply nth_planned.
        -- intros i' H. apply in_app_or in H. destruct H as [H|[H|[]]].
           ++ now apply Hquiet in H.
           ++ now injection H as <-.
        -- intros H. contradiction.
      * destruct (K8 j' jb' Hj') as (m & Hm & Hl & He).
        exists m. rewrite app_nil_r. split; [exact Hm|split; [|exact He]].
        intros i' H. apply in_app_or in H. destruct H as [H|[H|[]]]; [now apply Hl|].
        injection H as E _. congruence.
  - apply nth_error_None in Hg.
    assert (Hall : firstn i (planned jb) = planned jb).
    { apply firstn_all2. unfold planned.
      rewrite length_combine, length_seq, length_map, Nat.min_id. exact Hg. }
    unfold Web.run_onEnd. destruct (Web.j_onEnd jb).
    2:{ unfold tracked. eight; assumption. }
    unfold tracked. cbn [Web.jobs Web.calls Web.ended Web.listening].
    eight; try assumption.
    + intros j' H. apply in_app_or in H. destruct H as [H|[<-|[]]]; [now apply K3|exact Hlt].
    + apply NoDup_app; [exact K4|repeat constructor; now intros []|].
      intros x Hx [<-|[]]. contradiction.
    + intros j' i' H Hin. apply in_app_or in Hin. destruct Hin as [Hin|[<-|[]]].
      * now apply (K5 j' i').
      * now apply Hquiet in H.
    + intros j' jb' Hj'.
      destruct (Nat.eqb_spec j j') as [<-|Hne].
      * assert (jb' = jb) by congruence. subst jb'.
        exists i. split; [|split].
        -- rewrite <- Hhanded. now apply handed_calls.
        -- intros i' H. now apply Hquiet in H.
        -- intros _. rewrite <- Hall, <- Hhanded. now apply handed_calls.
      * destruct (K8 j' jb' Hj') as (m & Hm & Hl & He).
        exists m. split; [|split].
        -- rewrite <- Hm. now apply handed_calls.
        -- exact Hl.
        -- intros H. apply in_app_or in H. destruct H as [H|[H|[]]]; [|congruence].
           rewrite <- (He H). now apply handed_calls.
Qed.

Lemma tracked_step (w : Web.world) (e : Web.event) : tracked w -> tracked (Web.step w e).
Proof.
  intros Hw. destruct e as [text onEnd voices| |j i]; cbn [Web.step].
  - unfold Web.speak.
    set (jb := {| Web.j_groups := Web.segment text; Web.j_onEnd := onEnd;
                  Web.j_voices := voices |}).
    assert (Hw' := tracked_extend w jb Hw (ex_intro _ text eq_refl)).
    set (w' := {| Web.jobs := Web.jobs w ++ [jb]; Web.calls := Web.calls w ++ [Web.cancel];
                  Web.ended := Web.ended w; Web.listening := Web.listening w |}) in *.
    assert (Hj : nth_error (Web.jobs w') (length (Web.jobs w)) = Some jb).
    { unfold w'. cbn [Web.jobs]. rewrite nth_error_app2 by lia.
      now rewrite Nat.sub_diag. }
    destruct Hw as (K1 & K2 & K3 & _).
    assert (Hquiet : forall i', ~ In (length (Web.jobs w), i') (Web.listening w')).
    { intros i' H. apply K2 in H. lia. }
    assert (Hopen : ~ In (length (Web.jobs w)) (Web.ended w')).
    { intros H. apply K3 in H. lia. }
    assert (Hnone : handed (length (Web.jobs w)) w' = firstn 0 (planned jb)).
    { apply handed_none. unfold w'. cbn [Web.calls]. intros i u H.
      apply in_app_or in H. destruct H as [H|[H|[]]]; [|discriminate].
      apply K1 in H. lia. }
    destruct (0 <? length (Web.segment text))%nat eqn:Hn.
    + now apply (tracked_speakGroup w' _ 0 jb).
    + assert (Hg : nth_error (Web.j_groups jb) 0 = None).
      { apply nth_error_None. apply Nat.ltb_ge in Hn. exact Hn. }
      generalize (tracked_speakGroup w' _ 0 jb Hw' Hj Hquiet Hopen Hnone).
      unfold Web.speakGroup. now rewrite Hj, Hg.
  - now apply tracked_stop.
  - unfold Web.utterance_end.
    destruct (existsb (Web.same_utterance (j, i)) (Web.listening w)) eqn:Hex; [|exact Hw].
    apply existsb_exists in Hex. destruct Hex as ([j' i'] & Hin & Hsame).
    unfold Web.same_utterance in Hsame. cbn [fst snd] in Hsame.
    apply andb_true_iff in Hsame. destruct Hsame as [Ej Ei].
    apply Nat.eqb_eq in Ej, Ei. subst j' i'.
    assert (Hf := tracked_filter w (fun u => negb (Web.same_utterance (j, i) u)) Hw).
    destruct Hw as (K1 & K2 & K3 & K4 & K5 & K6 & K7 & K8).
    assert (Hlt := K2 j i Hin).
    destruct (nth_error (Web.jobs w) j) as [jb|] eqn:Hj.
    2:{ apply nth_error_None in Hj. lia. }
    destruct (K8 j jb Hj) as (m & Hm & Hl & _).
    rewrite Nat.add_1_r. apply (tracked_speakGroup _ j (S i) jb); cbn [Web.jobs Web.listening Web.ended].
    + exact Hf.
    + exact Hj.
    + intros i' H. apply filter_In in H. destruct H as [H Hneq].
      assert (i' = i) by now apply (K6 j i' i). subst i'.
      unfold Web.same_utterance in Hneq. cbn [fst snd] in Hneq.
      now rewrite !Nat.eqb_refl in Hneq.
    + now apply (K5 j i).
    + rewrite (Hl i Hin). rewrite <- Hm. now apply handed_calls.
Qed.

Lemma tracked_run (es : list Web.event) : tracked (Web.run es).
Proof.
  unfold Web.run.
  assert (H : forall w, tracked w -> tracked (fold_left Web.step es w)).
  { induction es as [|e es IH]; intros w Hw; [exact Hw|].
    cbn [fold_left]. apply IH. now apply tracked_step. }
  apply H, tracked_boot.
Qed.

End JobFacts.

(** ** Listening *)

Module ListenFacts.
Import JS Terms Notions NormalFacts.

Lemma session_open_app (a b : list Listen.entry) :
  forall now, session_open now (a ++ b) = session_open (session_open now a) b.
Proof.
  induction a as [|e a IH]; intros now; [reflexivity|].
  destruct e; cbn [app session_open]; apply IH.
Qed.

(** A journal entry that is appended is the last [did_start] of any
    decomposition that ends with it. *)
Lemma snoc_split (j pre post : list Listen.entry) (e : Listen.entry) :
  j ++ [e] = pre ++ Listen.did_start :: post ->
  (post = [] /\ e = Listen.did_start /\ pre = j)
  \/ exists post', post = post' ++ [e] /\ j = pre ++ Listen.did_start :: post'.
Proof.
  intros H. destruct post as [|x post] using rev_ind.
  - left. apply app_inj_tail in H. destruct H as [-> ->]. now repeat split.
  - right. exists post.
    change (j ++ [e] = pre ++ (Listen.did_start :: post) ++ [x]) in H.
    rewrite app_assoc in H. apply app_inj_tail in H. destruct H as [-> ->].
    split; reflexivity.
Qed.

(** The flag follows the journal, and [start()] is only called with the
    flag down. *)
Lemma step_session (w : Listen.ear) (e : Listen.event) :
  Listen.isListening w = session_open false (Listen.journal w) ->
  (forall pre post, Listen.journal w = pre ++ Listen.did_start :: post ->
                    session_open false pre = false) ->
  Listen.isListening (Listen.step w e)
  = session_open false (Listen.journal (Listen.step w e))
  /\ (forall pre post,
         Listen.journal (Listen.step w e) = pre ++ Listen.did_start :: post ->
         session_open false pre = false).
Proof.
  intros Hflag Hstart.
  assert (Hsnoc : forall x, x <> Listen.did_start ->
            forall pre post, Listen.journal w ++ [x] = pre ++ Listen.did_start :: post ->
                             session_open false pre = false).
  { intros x Hx pre post H. apply snoc_split in H.
    destruct H as [(_ & E & _)|(post' & _ & H)]; [congruence|]. now apply (Hstart pre post'). }
  destruct e as [| |i rs| |err]; cbn [Listen.step].
  - unfold Listen.startListening.
    destruct (negb (Listen.recognition w)); [now split|].
    destruct (Listen.isListening w) eqn:Hl; [now split|].
    cbn [Listen.isListening Listen.journal]. split.
    + now rewrite session_open_app.
    + intros pre post H. apply snoc_split in H.
      destruct H as [(_ & _ & ->)|(post' & _ & H)]; [now rewrite <- Hflag|].
      now apply (Hstart pre post').
  - unfold Listen.stopListening.
    destruct (Listen.recognition w && Listen.isListening w); [|now split].
    cbn [Listen.isListening Listen.journal]. split.
    + now rewrite session_open_app.
    + now apply Hsnoc.
  - unfold Listen.on_result. destruct (Listen.handlers w); [|now split].
    cbn [Listen.isListening Listen.journal]. split.
    + now rewrite session_open_app.
    + now apply Hsnoc.
  - unfold Listen.on_end. destruct (Listen.handlers w); [|now split].
    cbn [Listen.isListening Listen.journal]. split.
    + now rewrite session_open_app.
    + now apply Hsnoc.
  - unfold Listen.on_error. destruct (Listen.handlers w); [|now split].
    cbn [Listen.isListening Listen.journal]. split.
    + now rewrite session_open_app.
    + now apply Hsnoc.
Qed.

Lemma run_session (supported : bool) (es : list Listen.event) :
  Listen.isListening (Listen.run supported es)
  = session_open false (Listen.journal (Listen.run supported es))
  /\ (forall pre post,
         Listen.journal (Listen.run supported es) = pre ++ Listen.did_start :: post ->
         session_open false pre = false).
Proof.
  unfold Listen.run.
  assert (H : forall w,
             Listen.isListening w = session_open false (Listen.journal w) ->
             (forall pre post, Listen.journal w = pre ++ Listen.did_start :: post ->
                               session_open false pre = false) ->
             Listen.isListening (fold_left Listen.step es w)
             = session_open false (Listen.journal (fold_left Listen.step es w))
             /\ (forall pre post,
                    Listen.journal (fold_left Listen.step es w)
                    = pre ++ Listen.did_start :: post ->
                    session_open false pre = false)).
  { induction es as [|e es IH]; intros w H1 H2; [now split|].
    cbn [fold_left]. destruct (step_session w e H1 H2) as [H1' H2']. now apply IH. }
  apply H; [reflexivity|]. intros pre post E. now destruct pre.
Qed.

Lemma closed_between (mid : list Listen.entry) :
  session_open true mid = false ->
  exists e, In e mid /\ (e = Listen.did_stop \/ e = Listen.saw_end \/ e = Listen.saw_error).
Proof.
  induction mid as [|x mid IH]; [discriminate|].
  destruct x; cbn [session_open]; intros H.
  - destruct (IH H) as (e & He & Hk). exists e. split; [now right|exact Hk].
  - exists Listen.did_stop. split; [now left|now left].
  - destruct (IH H) as (e & He & Hk). exists e. split; [now right|exact Hk].
  - exists Listen.saw_end. split; [now left|right; now left].
  - exists Listen.saw_error. split; [now left|right; now right].
Qed.

(** Without a recognizer nothing is ever started. *)
Lemma run_unsupported (es : list Listen.event) :
  forall w,
    Listen.recognition w = false -> Listen.handlers w = None ->
    Listen.isListening w = false ->
    let w' := fold_left Listen.step es w in
    Listen.recognition w' = false /\ Listen.handlers w' = None
    /\ Listen.isListening w' = false
    /\ Listen.journal w' = Listen.journal w
    /\ Listen.told w'
       = Listen.told w
         ++ map (fun k => Listen.onError k (lit "Speech recognition not supported"))
                (seq (Listen.asked w) (length (filter is_start es))).
Proof.
  induction es as [|e es IH]; intros w Hr Hh Hl.
  - cbn. now rewrite app_nil_r.
  - cbn [fold_left].
    destruct e as [| |i rs| |err]; cbn [Listen.step filter is_start].
    + unfold Listen.startListening.
      replace (negb (Listen.recognition w)) with true by now rewrite Hr.
      match goal with |- context [fold_left Listen.step es ?x] => set (w1 := x) end.
      destruct (IH w1 Hr Hh Hl) as (H1 & H2 & H3 & H4 & H5).
      cbv zeta. repeat split; try assumption.
      rewrite H5. unfold w1. cbn [Listen.told Listen.asked length seq map].
      now rewrite <- app_assoc.
    + unfold Listen.stopListening. rewrite Hr. cbn [andb]. now apply IH.
    + unfold Listen.on_result. rewrite Hh. now apply IH.
    + unfold Listen.on_end. rewrite Hh. now apply IH.
    + unfold Listen.on_error. rewrite Hh. now apply IH.
Qed.

(** The loop of the [onresult] listener glues the final results. *)
Lemma finalTranscript_finals (resultIndex : nat) (results : list Listen.result) :
  Listen.finalTranscript resultIndex results = finals resultIndex results.
Proof.
  unfold Listen.finalTranscript, finals.
  assert (H : forall l acc,
             fold_left (fun acc r => if Listen.isFinal r then acc ++ Listen.transcript r else acc)
                       l acc
             = acc ++ concat (map Listen.transcript (filter Listen.isFinal l))).
  { induction l as [|r l IH]; intros acc; cbn [fold_left filter].
    - now rewrite app_nil_r.
    - rewrite IH. destruct (Listen.isFinal r); [|reflexivity].
      cbn [map concat]. now rewrite <- app_assoc. }
  now rewrite H.
Qed.

(** Every text handed to [onResult] has been trimmed. *)
Lemma told_trimmed (supported : bool) (es : list Listen.event) :
  forall k text, In (Listen.onResult k text) (Listen.told (Listen.run supported es)) ->
                 exists s, text = trim s.
Proof.
  unfold Listen.run.
  assert (H : forall w,
             (forall k text, In (Listen.onResult k text) (Listen.told w) -> exists s, text = trim s) ->
             forall k text, In (Listen.onResult k text) (Listen.told (fold_left Listen.step es w)) ->
                            exists s, text = trim s).
  { induction es as [|e es IH]; intros w Hw; [exact Hw|].
    cbn [fold_left]. apply IH. intros k text Hin.
    destruct e as [| |i rs| |err]; cbn [Listen.step] in Hin.
    - unfold Listen.startListening in Hin.
      destruct (negb (Listen.recognition w)).
      + cbn [Listen.told] in Hin. apply in_app_or in Hin.
        destruct Hin as [Hin|[Hin|[]]]; [now apply (Hw k)|discriminate].
      + destruct (Listen.isListening w); now apply (Hw k).
    - unfold Listen.stopListening in Hin.
      destruct (Listen.recognition w && Listen.isListening w); now apply (Hw k).
    - unfold Listen.on_result in Hin. destruct (Listen.handlers w); [|now apply (Hw k)].
      cbn [Listen.told] in Hin. apply in_app_or in Hin.
      destruct Hin as [Hin|Hin]; [now apply (Hw k)|].
      destruct (Listen.finalTranscript i rs) eqn:Hf; [contradiction|].
      destruct Hin as [Hin|[]]. injection Hin as _ <-. now eexists.
    - unfold Listen.on_end in Hin. destruct (Listen.handlers w); [|now apply (Hw k)].
      cbn [Listen.told] in Hin. apply in_app_or in Hin.
      destruct Hin as [Hin|[Hin|[]]]; [now apply (Hw k)|discriminate].
    - unfold Listen.on_error in Hin. destruct (Listen.handlers w); [|now apply (Hw k)].
      cbn [Listen.told] in Hin. apply in_app_or in Hin.
      destruct Hin as [Hin|[Hin|[]]]; [now apply (Hw k)|discriminate]. }
  apply H. intros k text [].
Qed.

End ListenFacts.

(** ** The brace pattern *)

Module BraceFacts.
Import JS Terms Notions JSFacts Gemini.

Lemma any_unit_true (c : Z) : any_unit c = true.
Proof. unfold any_unit. now destruct (is_space c). Qed.

Lemma exec_no_closing (s : jsstring) :
  ~ In 125 s -> forall b, exec [Star any_unit; chr 125] b s = None.
Proof.
  induction s as [|c s IH]; intros Hno b; [reflexivity|].
  rewrite exec_star_cons, any_unit_true, IH by (intros H; apply Hno; now right).
  unfold chr. rewrite exec_one_cons.
  replace (125 =? c) with false; [reflexivity|].
  symmetry. apply Z.eqb_neq. intros <-. apply Hno. now left.
Qed.

(** The starred class gives back as little as it must: it stops before
    the last closing brace. *)
Lemma exec_to_last (mid post : jsstring) :
  ~ In 125 post ->
  forall b, exec [Star any_unit; chr 125] b (mid ++ 125 :: post)
            = Some [length mid; 1%nat].
Proof.
  intros Hno. induction mid as [|c mid IH]; intros b.
  - cbn [app length]. rewrite exec_star_cons, any_unit_true, (exec_no_closing post Hno).
    unfold chr. now rewrite exec_one_cons.
  - cbn [app length]. rewrite exec_star_cons, any_unit_true. now rewrite IH.
Qed.

Lemma search_first_brace (pre mid post : jsstring) :
  ~ In 123 pre -> ~ In 125 post ->
  forall b, search_from re_braces b (pre ++ 123 :: mid ++ 125 :: post)
            = Some (length pre, [1%nat; length mid; 1%nat]).
Proof.
  intros Hpre Hpost. induction pre as [|x pre IH]; intros b.
  - cbn [app search_from length]. unfold re_braces, chr at 1.
    rewrite exec_one_cons. cbn [Z.eqb Pos.eqb]. now rewrite (exec_to_last mid post Hpost).
  - cbn [app search_from length]. unfold re_braces at 1, chr at 1.
    rewrite exec_one_cons.
    replace (123 =? x) with false
      by (symmetry; apply Z.eqb_neq; intros <-; apply Hpre; now left).
    rewrite IH; [reflexivity|]. intros H. apply Hpre. now right.
Qed.

Lemma skipn_length_app {A} (a b : list A) : skipn (length a) (a ++ b) = b.
Proof. induction a as [|x a IH]; [reflexivity|exact IH]. Qed.

(** An object between a text with no opening brace and a text with no
    closing brace is what strategy 1 offers. *)
Lemma strategy1_wrapped (pre mid post : jsstring) :
  ~ In 123 pre -> ~ In 125 post ->
  strategy1 (pre ++ 123 :: mid ++ 125 :: post) = Some (123 :: mid ++ [125]).
Proof.
  intros Hpre Hpost. unfold strategy1, match_whole, search.
  rewrite (search_first_brace pre mid post Hpre Hpost). f_equal.
  unfold substring. rewrite skipn_length_app.
  cbn [total fold_right]. rewrite Nat.add_0_r. cbn [Nat.add firstn]. f_equal.
  rewrite firstn_app_2. reflexivity.
Qed.

Lemma split_first (x : Z) (l : jsstring) :
  In x l -> exists pre rest, l = pre ++ x :: rest /\ ~ In x pre.
Proof.
  induction l as [|c l IH]; intros H; [contradiction|].
  destruct (Z.eq_dec c x) as [->|Hne].
  - exists [], l. split; [reflexivity|]. now intros [].
  - destruct H as [H|H]; [contradiction|].
    destruct (IH H) as (pre & rest & -> & Hpre).
    exists (c :: pre), rest. split; [reflexivity|].
    intros [E|E]; [contradiction|now apply Hpre].
Qed.

Lemma split_last (x : Z) (l : jsstring) :
  In x l -> exists mid post, l = mid ++ x :: post /\ ~ In x post.
Proof.
  induction l as [|c l IH]; intros H; [contradiction|].
  destruct (in_dec Z.eq_dec x l) as [Hin|Hno].
  - destruct (IH Hin) as (mid & post & -> & Hpost).
    now exists (c :: mid), post.
  - destruct H as [->|H]; [|contradiction]. now exists [], l.
Qed.

Lemma behind_first (x : Z) (pre rest : jsstring) :
  ~ In x pre ->
  forall a b, a ++ x :: b = pre ++ x :: rest -> forall y, In y b -> In y rest.
Proof.
  induction pre as [|p pre IH]; intros Hpre a b H y Hy.
  - cbn [app] in H. destruct a as [|a0 a].
    + injection H as <-. exact Hy.
    + injection H as _ <-. apply in_or_app. right. now right.
  - destruct a as [|a0 a].
    + cbn [app] in H. injection H as <- _. exfalso. apply Hpre. now left.
    + cbn [app] in H. injection H as _ H. apply (IH (fun E => Hpre (or_intror E)) a b H y Hy).
Qed.

(** What strategy 1 offers runs from the first opening brace to the last
    closing one. *)
Lemma strategy1_inv (text whole : jsstring) :
  strategy1 text = Some whole ->
  exists pre mid post,
    text = pre ++ 123 :: mid ++ 125 :: post
    /\ ~ In 123 pre /\ ~ In 125 post /\ whole = 123 :: mid ++ [125].
Proof.
  intros H.
  assert (Hfound : exists a s', text = a ++ 123 :: s' /\ In 125 s').
  { unfold strategy1, match_whole, search in H.
    destruct (search_from re_braces true text) as [[i ls]|] eqn:Hs; [|discriminate].
    destruct (ExtractFacts.search_from_inv _ _ _ _ _ Hs) as (b' & He).
    unfold re_braces, chr at 1 in He.
    apply ExtractFacts.exec_one_inv in He.
    destruct He as (c & s' & ls' & Hskip & Hc & He).
    apply Z.eqb_eq in Hc. subst c.
    apply ExtractFacts.exec_star_inv in He.
    destruct He as (m & t & b'' & l & -> & He).
    apply ExtractFacts.exec_one_inv in He.
    destruct He as (c & t' & l' & -> & Hc & _).
    apply Z.eqb_eq in Hc. subst c.
    exists (firstn i text), (m ++ 125 :: t'). split.
    - rewrite <- Hskip. symmetry. apply firstn_skipn.
    - apply in_or_app. right. now left. }
  destruct Hfound as (a & s' & Htext & Hclose).
  assert (Hopen : In 123 text) by (rewrite Htext; apply in_or_app; right; now left).
  destruct (split_first 123 text Hopen) as (pre & rest & Hsplit & Hpre).
  assert (Hrest : In 125 rest).
  { apply (behind_first 123 pre rest Hpre a s'); [congruence|exact Hclose]. }
  destruct (split_last 125 rest Hrest) as (mid & post & -> & Hpost).
  exists pre, mid, post. repeat split; try assumption.
  rewrite Hsplit, (strategy1_wrapped pre mid post Hpre Hpost) in H.
  now injection H as <-.
Qed.

End BraceFacts.

(** ** The records *)

Module RecordFacts.
Import JS Terms Notions Gemini.

Section Service.

Variable JSON_parse : jsstring -> option value.
Variable StringToNumber : jsstring -> number.
Variable ObjectToNumber : value -> completion number.

Lemma or_else_truthy (a d : value) : truthy d = true -> truthy (or_else a d) = true.
Proof. intros H. unfold or_else. now destruct (truthy a) eqn:Ha. Qed.

Lemma or_undefined_shape (a : value) :
  or_else a VUndefined = VUndefined \/ truthy (or_else a VUndefined) = true.
Proof. unfold or_else. destruct (truthy a) eqn:Ha; [now right|now left]. Qed.

(** The record of the [try] block: the two strings are there, and an
    optional field is left out or truthy. *)
Lemma fields_shape (parsed : value) (r : VictorAIResponse) :
  victor_fields StringToNumber ObjectToNumber parsed = Return r ->
  truthy (response r) = true /\ truthy (followUpQuestion r) = true
  /\ (corrections r = VUndefined \/ truthy (corrections r) = true)
  /\ (vocabularyTip r = VUndefined \/ truthy (vocabularyTip r) = true)
  /\ (pronunciationTip r = VUndefined \/ truthy (pronunciationTip r) = true).
Proof.
  unfold victor_fields.
  destruct (get parsed (lit "response")) as [a|]; [|discriminate].
  destruct (get parsed (lit "corrections")) as [c|]; [|discriminate].
  cbn [bind].
  destruct (truthy c) eqn:Hc.
  - match goal with
    | |- context [bind ?m _] => destruct m as [nonempty|]; [|discriminate]
    end.
    cbn [bind].
    destruct (get parsed (lit "vocabularyTip")) as [v|]; [|discriminate].
    destruct (get parsed (lit "pronunciationTip")) as [p|]; [|discriminate].
    destruct (get parsed (lit "followUpQuestion")) as [f|]; [|discriminate].
    cbn [bind]. intros H. injection H as <-.
    cbn [response corrections vocabularyTip pronunciationTip followUpQuestion].
    repeat split; try (now apply or_else_truthy); try apply or_undefined_shape.
    destruct nonempty; [now right|now left].
  - cbn [bind].
    destruct (get parsed (lit "vocabularyTip")) as [v|]; [|discriminate].
    destruct (get parsed (lit "pronunciationTip")) as [p|]; [|discriminate].
    destruct (get parsed (lit "followUpQuestion")) as [f|]; [|discriminate].
    cbn [bind]. intros H. injection H as <-.
    cbn [response corrections vocabularyTip pronunciationTip followUpQuestion].
    repeat split; try (now apply or_else_truthy); try apply or_undefined_shape.
    now left.
Qed.

Lemma word_shape (parsed : value) (d : WordData) :
  word_fields parsed = Return d ->
  truthy (examples d) = true
  /\ (phonetic d = VString [] \/ truthy (phonetic d) = true)
  /\ (translation d = VString [] \/ truthy (translation d) = true).
Proof.
  unfold word_fields.
  destruct (get parsed (lit "phonetic")) as [p|]; [|discriminate].
  destruct (get parsed (lit "examples")) as [e|]; [|discriminate].
  destruct (get parsed (lit "translation")) as [t|]; [|discriminate].
  cbn [bind]. intros H. injection H as <-. cbn [phonetic examples translation].
  split; [now apply or_else_truthy|].
  unfold or_else. split.
  - destruct (truthy p) eqn:Hp; [now right|now left].
  - destruct (truthy t) eqn:Ht; [now right|now left].
Qed.

(** On an object whose corrections are the list they are declared to be,
    or are missing, nothing throws. *)
Lemma fields_of_object (props : list (jsstring * value)) :
  own (lit "corrections") props = VUndefined
  \/ (exists xs, own (lit "corrections") props = VArray xs) ->
  victor_fields StringToNumber ObjectToNumber (VObject props)
  = Return {| response := or_else (own (lit "response") props) default_response;
              corrections := match own (lit "corrections") props with
                             | VArray (x :: xs) => VArray (x :: xs)
                             | _ => VUndefined
                             end;
              vocabularyTip := or_undefined (own (lit "vocabularyTip") props);
              pronunciationTip := or_undefined (own (lit "pronunciationTip") props);
              followUpQuestion :=
                or_else (own (lit "followUpQuestion") props) default_followUp |}.
Proof.
  intros H. unfold victor_fields. cbn [get bind].
  destruct H as [->|(xs & ->)].
  - reflexivity.
  - cbn [truthy get bind]. change (same (lit "length") (lit "length")) with true.
    cbv iota. cbn [greater_than_zero bind of_length positive_number].
    destruct xs as [|x xs]; [reflexivity|].
    replace (0 <? Z.of_nat (length (x :: xs))) with true; [reflexivity|].
    symmetry. apply Z.ltb_lt. cbn [length]. lia.
Qed.

End Service.

End RecordFacts.

(** * Further properties, stated *)

Import Notions.

(** ** Cleaning and segmentation *)

(** X1 (white space of the cleaned text).  In the text [speak] works on,
    every white-space unit is a single U+0020 that stands between two units
    that are no white space: no white space at either end, no run of two,
    no tab or line break. *)
Theorem cleaned_single_spaces (text pre post : jsstring) (x : Z) :
  Web.cleanedText text = pre ++ x :: post ->
  is_space x = true ->
  x = 32
  /\ (exists a front, pre = front ++ [a] /\ is_space a = false)
  /\ (exists b back, post = b :: back /\ is_space b = false).
Proof.
  intros Hc Hx. destruct (NormalFacts.cleaned_tidy text) as [Ht He].
  rewrite Hc in Ht, He. now apply NormalFacts.tidy_middle.
Qed.

Lemma cleaned_single_spaces_witness :
  Web.cleanedText ([9; 32] ++ lit "a" ++ [32; 10; 32] ++ lit "b" ++ [32])
  = lit "a" ++ 32 :: lit "b"
  /\ is_space 32 = true
  /\ (exists a front, lit "a" = front ++ [a] /\ is_space a = false)
  /\ (exists b back, lit "b" = b :: back /\ is_space b = false).
Proof.
  split; [reflexivity|]. split; [reflexivity|].
  exact (proj2 (cleaned_single_spaces
                  ([9; 32] ++ lit "a" ++ [32; 10; 32] ++ lit "b" ++ [32])
                  (lit "a") (lit "b") 32 eq_refl eq_refl)).
Defined.

(** X2 (no aside is spoken).  In the cleaned text, and so in the text of
    every run, no opening parenthesis has a closing parenthesis anywhere
    behind it. *)
Theorem no_aside_is_spoken (text : jsstring) :
  (forall pre post, Web.cleanedText text = pre ++ 40 :: post -> ~ In 41 post)
  /\ Forall (fun g => forall pre post, Web.text g = pre ++ 40 :: post -> ~ In 41 post)
            (Web.segment text).
Proof.
  assert (H := AsideFacts.cleaned_no_aside text). split; [exact H|].
  apply Forall_forall. intros g Hg.
  destruct (in_split _ _ Hg) as (before & after & Hsplit).
  apply (AsideFacts.no_aside_part (web_text before) (Web.text g) (web_text after)).
  rewrite <- SegmentFacts.web_round_trip in H. rewrite Hsplit in H.
  rewrite SegmentFacts.web_text_app in H.
  unfold web_text at 2 in H. cbn [map concat] in H. exact H.
Qed.

(** X3 (cleaning twice).  Cleaning a cleaned text changes nothing, so a
    cleaned text is segmented into the runs of the text it came from. *)
Theorem cleaning_is_idempotent (text : jsstring) :
  Web.cleanedText (Web.cleanedText text) = Web.cleanedText text
  /\ Web.segment (Web.cleanedText text) = Web.segment text.
Proof.
  assert (H := AsideFacts.cleaned_fixed text). split; [exact H|].
  unfold Web.segment, Web.words. now rewrite H.
Qed.

(** X4 (what a run is).  Every run starts with a unit that is no white
    space, so none is empty or blank; it is tagged, and its tag is Russian
    exactly when its text holds one of the letters of the class [[а-яА-ЯёЁ]]
    of the source, that is U+0410 to U+044F, U+0401 and U+0451: an English
    run holds none of these letters, though it may hold other Cyrillic
    ones. *)
Theorem runs_are_sound (text : jsstring) :
  Forall (fun g =>
            (exists c rest, Web.text g = c :: rest /\ is_space c = false)
            /\ Web.lang g
               = Some (if existsb Web.russian_letter (Web.text g)
                       then Web.ru_RU else Web.en_US))
         (Web.segment text).
Proof. apply RunFacts.segment_sound. Qed.

Lemma alternate_at (gs a b : list Web.group) (g h : Web.group) :
  alternate gs -> gs = a ++ g :: h :: b -> Web.lang g <> Web.lang h.
Proof.
  revert gs. induction a as [|x a IH]; intros gs Ha ->.
  - now destruct Ha.
  - apply (IH (a ++ g :: h :: b)); [|reflexivity].
    cbn [app alternate] in Ha. destruct (a ++ g :: h :: b); [exact I|now destruct Ha].
Qed.

(** X5 (runs are maximal).  Two runs that follow one another never carry
    the same tag. *)
Theorem neighbours_differ (text : jsstring) (a b : list Web.group) (g h : Web.group) :
  Web.segment text = a ++ g :: h :: b -> Web.lang g <> Web.lang h.
Proof.
  intros H. apply (alternate_at (Web.segment text) a b); [|exact H].
  apply RunFacts.segment_sound.
Qed.

Lemma neighbours_differ_witness :
  Web.segment privet_how_are_you
  = [] ++ {| Web.lang := Some Web.ru_RU; Web.text := privet_comma_space |}
       :: {| Web.lang := Some Web.en_US; Web.text := lit "how are you?" |} :: []
  /\ Some Web.ru_RU <> Some Web.en_US.
Proof.
  split; [reflexivity|].
  exact (neighbours_differ privet_how_are_you [] []
           {| Web.lang := Some Web.ru_RU; Web.text := privet_comma_space |}
           {| Web.lang := Some Web.en_US; Web.text := lit "how are you?" |} eq_refl).
Defined.

(** X6 (a text without Russian letters).  A text that holds none of the
    letters of the class and is not cleaned to the empty string is one
    English run, whose text is the cleaned text. *)
Theorem english_text_is_one_run (text : jsstring) :
  Forall (fun c => Web.russian_letter c = false) text ->
  Web.cleanedText text <> [] ->
  Web.segment text
  = [{| Web.lang := Some Web.en_US; Web.text := Web.cleanedText text |}].
Proof.
  intros Hnone Hne.
  destruct (RunFacts.segment_sound text) as [Hsound Halt].
  assert (Hen : forall g, In g (Web.segment text) -> Web.lang g = Some Web.en_US).
  { intros g Hg. rewrite Forall_forall in Hsound. destruct (Hsound g Hg) as [_ ->].
    replace (has_russian (Web.text g)) with false; [reflexivity|].
    symmetry. unfold has_russian.
    destruct (existsb Web.russian_letter (Web.text g)) eqn:Hex; [|reflexivity].
    apply existsb_exists in Hex. destruct Hex as (x & Hx & Hr).
    apply (RunFacts.run_units text g x Hg) in Hx.
    apply RunFacts.cleaned_units in Hx. destruct Hx as [->|Hx]; [discriminate Hr|].
    rewrite Forall_forall in Hnone. rewrite (Hnone x Hx) in Hr. discriminate. }
  assert (Hround := SegmentFacts.web_round_trip text).
  destruct (Web.segment text) as [|g [|h rest]] eqn:Hseg.
  - cbn in Hround. congruence.
  - unfold web_text in Hround. cbn [map concat] in Hround. rewrite app_nil_r in Hround.
    rewrite <- Hround, <- (Hen g (or_introl eq_refl)). now destruct g.
  - exfalso. destruct Halt as [Hdiff _]. apply Hdiff.
    rewrite (Hen g), (Hen h); [reflexivity|right; now left|now left].
Qed.

Lemma english_text_is_one_run_witness :
  Forall (fun c => Web.russian_letter c = false) (lit " how  are (x) you ")
  /\ Web.cleanedText (lit " how  are (x) you ") <> []
  /\ Web.segment (lit " how  are (x) you ")
     = [{| Web.lang := Some Web.en_US; Web.text := lit "how are you" |}].
Proof.
  assert (H1 : Forall (fun c => Web.russian_letter c = false) (lit " how  are (x) you "))
    by (repeat constructor).
  assert (H2 : Web.cleanedText (lit " how  are (x) you ") <> []) by discriminate.
  split; [exact H1|]. split; [exact H2|].
  exact (english_text_is_one_run (lit " how  are (x) you ") H1 H2).
Defined.

(** X7 (the native client speaks the same runs).  [speak] of the native
    client stops the backend and then hands it, in order, the text of every
    run the web client finds, asking for Russian exactly for the runs that
    hold a letter of the class, at rate 0.9 and pitch 1. *)
Theorem native_speaks_web_runs (text : jsstring) :
  Native.speak text
  = Native.stop
    :: map (fun g => Native.speak_text (Web.text g)
                       (if existsb Web.russian_letter (Web.text g)
                        then lit "ru-RU" else lit "en-US")
                       (Fin 9 10) (Fin 1 1))
           (Web.segment text).
Proof.
  unfold Native.speak. f_equal. rewrite SegmentFacts.native_is_web, map_map.
  apply map_ext_in. intros g Hg.
  destruct (RunFacts.segment_sound text) as [Hsound _].
  rewrite Forall_forall in Hsound. destruct (Hsound g Hg) as [_ Hlang].
  unfold Native.language, retag. cbn [Native.lang Native.text]. rewrite Hlang.
  unfold has_russian. now destruct (existsb Web.russian_letter (Web.text g)).
Qed.

(** ** Voices and jobs *)

(** X8 (the voice of a run).  [getVoice] answers with a voice of the list
    whose language starts with [ru] for a Russian run and with [en] for any
    other, and with [null] only when the list holds no such voice. *)
Theorem voice_matches_language (voices : list Web.voice) (l : option Web.Lang) :
  match Web.getVoice voices l with
  | Some v =>
      In v voices
      /\ starts_with (match l with Some Web.ru_RU => lit "ru" | _ => lit "en" end)
                     (Web.locale v) = true
  | None =>
      forall v, In v voices ->
                starts_with (match l with Some Web.ru_RU => lit "ru" | _ => lit "en" end)
                            (Web.locale v) = false
  end.
Proof.
  destruct (Web.getVoice voices l) as [v|] eqn:H.
  - now apply JobFacts.getVoice_found.
  - now apply JobFacts.getVoice_missing.
Qed.

(** X9 (natural voices first).  For a run that is not Russian, when the
    list holds an English voice whose name includes [Natural], the voice
    that is chosen is one whose name includes [Natural]. *)
Theorem natural_voice_preferred (voices : list Web.voice) (l : option Web.Lang)
  (n : Web.voice) :
  l <> Some Web.ru_RU ->
  In n voices ->
  starts_with (lit "en") (Web.locale n) = true ->
  includes (lit "Natural") (Web.name n) = true ->
  exists v, Web.getVoice voices l = Some v
            /\ In v voices
            /\ starts_with (lit "en") (Web.locale v) = true
            /\ includes (lit "Natural") (Web.name v) = true.
Proof.
  intros Hl Hn Hen Hnat.
  destruct (JobFacts.getVoice_natural voices l n Hl Hn Hen Hnat) as (v & Hv & Hname).
  exists v. split; [exact Hv|].
  destruct (JobFacts.getVoice_found voices l v Hv) as [Hin Hpre].
  repeat split; try assumption.
  unfold wanted in Hpre. destruct l as [[|]|]; try exact Hpre. contradiction.
Qed.

Lemma natural_voice_preferred_witness :
  Some Web.en_US <> Some Web.ru_RU
  /\ exists v,
       Web.getVoice
         [{| Web.name := lit "Plain"; Web.locale := lit "en-GB" |};
          {| Web.name := lit "Milena"; Web.locale := lit "ru-RU" |};
          {| Web.name := lit "Aria Online (Natural)"; Web.locale := lit "en-US" |}]
         (Some Web.en_US) = Some v
       /\ In v [{| Web.name := lit "Plain"; Web.locale := lit "en-GB" |};
                {| Web.name := lit "Milena"; Web.locale := lit "ru-RU" |};
                {| Web.name := lit "Aria Online (Natural)"; Web.locale := lit "en-US" |}]
       /\ starts_with (lit "en") (Web.locale v) = true
       /\ includes (lit "Natural") (Web.name v) = true.
Proof.
  split; [discriminate|].
  apply (natural_voice_preferred _ (Some Web.en_US)
           {| Web.name := lit "Aria Online (Natural)"; Web.locale := lit "en-US" |}).
  - discriminate.
  - right. right. now left.
  - reflexivity.
  - reflexivity.
Defined.






Lemma handed_in (j i : nat) (u : Web.utterance) (w : Web.world) :
  In (Web.speak_utterance j i u) (Web.calls w) -> In (i, u) (handed j w).
Proof.
  intros H. unfold handed. apply in_flat_map.
  exists (Web.speak_utterance j i u). split; [exact H|].
  rewrite Nat.eqb_refl. now left.
Qed.

Lemma planned_at (jb : Web.job) (i : nat) (u : Web.utterance) :
  In (i, u) (planned jb) ->
  exists g, nth_error (Web.j_groups jb) i = Some g /\ u = Web.utter (Web.j_voices jb) g.
Proof.
  intros Hin. apply In_nth_error in Hin. destruct Hin as (k & Hk).
  assert (Hlt : (k < length (Web.j_groups jb))%nat).
  { assert (H : (k < length (planned jb))%nat) by (apply nth_error_Some; congruence).
    unfold planned in H. rewrite length_combine, length_seq, length_map in H. lia. }
  destruct (nth_error (Web.j_groups jb) k) as [g|] eqn:Hg.
  2:{ apply nth_error_None in Hg. lia. }
  rewrite (JobFacts.nth_planned jb k g Hg) in Hk. injection Hk as <- <-.
  now exists g.
Qed.

Lemma closures_of_calls (es : list Web.event) :
  map (fun jb => (Web.j_groups jb, Web.j_voices jb)) (flat_map closure es)
  = map (fun tv => (Web.segment (fst tv), snd tv)) (speak_calls es).
Proof.
  unfold speak_calls. induction es as [|e es IH]; [reflexivity|].
  cbn [flat_map]. rewrite !map_app, IH. now destruct e.
Qed.

(** X12 (what the backend is handed).  After any sequence of events, the
    utterance the backend has been handed under the label (j, i) was made
    from run i of the text of the j-th [speak] call: its text is the text
    of that run, which starts with a unit that is no white space, so it is
    never empty or blank; its language is Russian exactly when its text
    holds a letter of the class; its voice is what [getVoice] finds for
    that language among the voices listed in that [speak] call; and its
    rate is 0.9, its pitch and volume 1. *)
Theorem utterances_are_sound (es : list Web.event) (j i : nat) (u : Web.utterance) :
  In (Web.speak_utterance j i u) (Web.calls (Web.run es)) ->
  exists text voices g,
    nth_error (speak_calls es) j = Some (text, voices)
    /\ nth_error (Web.segment text) i = Some g
    /\ Web.u_text u = Web.text g
    /\ (exists c rest, Web.u_text u = c :: rest /\ is_space c = false)
    /\ Web.u_lang u
       = Some (if existsb Web.russian_letter (Web.u_text u) then Web.ru_RU else Web.en_US)
    /\ Web.u_voice u = Web.getVoice voices (Web.u_lang u)
    /\ Web.u_rate u = Fin 9 10 /\ Web.u_pitch u = Fin 1 1 /\ Web.u_volume u = Fin 1 1.
Proof.
  intros Hcall.
  destruct (JobFacts.tracked_run es) as (K1 & _ & _ & _ & _ & _ & _ & K8).
  assert (Hlt := K1 j i u Hcall).
  destruct (nth_error (Web.jobs (Web.run es)) j) as [jb|] eqn:Hj.
  2:{ apply nth_error_None in Hj. lia. }
  destruct (K8 j jb Hj) as (m & Hm & _ & _).
  apply handed_in in Hcall. rewrite Hm in Hcall.
  assert (Hin : In (i, u) (planned jb)).
  { rewrite <- (firstn_skipn m (planned jb)). apply in_or_app. now left. }
  apply planned_at in Hin. destruct Hin as (g & Hg & ->).
  assert (Hjobs : Web.jobs (Web.run es) = flat_map closure es).
  { unfold Web.run. now rewrite SpeakFacts.run_jobs. }
  rewrite Hjobs in Hj.
  apply (map_nth_error (fun jb => (Web.j_groups jb, Web.j_voices jb))) in Hj.
  rewrite closures_of_calls, nth_error_map in Hj.
  destruct (nth_error (speak_calls es) j) as [[text voices]|] eqn:Hcalls; [|discriminate].
  cbn [option_map fst snd] in Hj. injection Hj as Hgroups Hvoices.
  rewrite <- Hgroups in Hg. rewrite <- Hvoices.
  exists text, voices, g.
  destruct (RunFacts.segment_sound text) as [Hsound _].
  rewrite Forall_forall in Hsound.
  destruct (Hsound g (nth_error_In _ _ Hg)) as [Hstart Hlang].
  unfold Web.utter. cbn [Web.u_text Web.u_lang Web.u_voice Web.u_rate Web.u_pitch Web.u_volume].
  repeat split; try assumption; reflexivity.
Qed.

Lemma utterances_are_sound_witness :
  In (Web.speak_utterance 0 1
        {| Web.u_text := lit "hello "; Web.u_lang := Some Web.en_US;
           Web.u_voice := Some {| Web.name := lit "Anna"; Web.locale := lit "en-GB" |};
           Web.u_rate := Fin 9 10; Web.u_pitch := Fin 1 1; Web.u_volume := Fin 1 1 |})
     (Web.calls (Web.run [Web.Speak three_runs true
                            [{| Web.name := lit "Anna"; Web.locale := lit "en-GB" |}];
                          Web.End_ 0 0]))
  /\ exists text voices g,
       nth_error (speak_calls [Web.Speak three_runs true
                                 [{| Web.name := lit "Anna"; Web.locale := lit "en-GB" |}];
                               Web.End_ 0 0]) 0
       = Some (text, voices)
       /\ nth_error (Web.segment text) 1 = Some g
       /\ lit "hello " = Web.text g
       /\ Some {| Web.name := lit "Anna"; Web.locale := lit "en-GB" |}
          = Web.getVoice voices (Some Web.en_US).
Proof.
  assert (H : In (Web.speak_utterance 0 1
                    {| Web.u_text := lit "hello "; Web.u_lang := Some Web.en_US;
                       Web.u_voice := Some {| Web.name := lit "Anna";
                                              Web.locale := lit "en-GB" |};
                       Web.u_rate := Fin 9 10; Web.u_pitch := Fin 1 1;
                       Web.u_volume := Fin 1 1 |})
                 (Web.calls (Web.run [Web.Speak three_runs true
                                        [{| Web.name := lit "Anna";
                                            Web.locale := lit "en-GB" |}];
                                      Web.End_ 0 0]))).
  { right. right. now left. }
  split; [exact H|].
  destruct (utterances_are_sound _ _ _ _ H)
    as (text & voices & g & H1 & H2 & H3 & _ & _ & H6 & _).
  exists text, voices, g. repeat split; assumption.
Defined.

(** ** Listening *)

(** X13 (no recognizer).  Where the browser has no speech recognition,
    whatever is called and in whatever order, the service never reports that
    it is listening and never touches a recognizer; each [startListening]
    call gets one call of its [onError] with the fixed message, and nothing
    else is ever called back. *)
Theorem unsupported_never_listens (es : list Listen.event) :
  Listen.isCurrentlyListening (Listen.run false es) = false
  /\ Listen.journal (Listen.run false es) = []
  /\ Listen.told (Listen.run false es)
     = map (fun k => Listen.onError k (lit "Speech recognition not supported"))
           (seq 0 (length (filter (fun e => match e with
                                            | Listen.StartListening => true
                                            | _ => false
                                            end) es))).
Proof.
  destruct (ListenFacts.run_unsupported es (Listen.boot false) eq_refl eq_refl eq_refl)
    as (_ & _ & H3 & H4 & H5).
  split; [exact H3|]. split; [exact H4|exact H5].
Qed.

(** X14 (one session at a time).  Whatever is called and whatever the
    recognizer fires, [start()] is never called twice without a [stop()]
    call, an [end] event or an [error] event in between; and the service
    reports that it is listening exactly when the last of these four things
    was a [start()] call. *)
Theorem one_session_at_a_time (supported : bool) (es : list Listen.event) :
  (forall pre mid post,
      Listen.journal (Listen.run supported es)
      = pre ++ Listen.did_start :: mid ++ Listen.did_start :: post ->
      exists e, In e mid
                /\ (e = Listen.did_stop \/ e = Listen.saw_end \/ e = Listen.saw_error))
  /\ Listen.isCurrentlyListening (Listen.run supported es)
     = session_open false (Listen.journal (Listen.run supported es)).
Proof.
  destruct (ListenFacts.run_session supported es) as [Hflag Hstart].
  split; [|exact Hflag].
  intros pre mid post H.
  apply ListenFacts.closed_between.
  specialize (Hstart (pre ++ Listen.did_start :: mid) post).
  rewrite <- app_assoc in Hstart. specialize (Hstart H).
  rewrite ListenFacts.session_open_app in Hstart. exact Hstart.
Qed.

Lemma one_session_at_a_time_witness :
  Listen.journal (Listen.run true [Listen.StartListening; Listen.StartListening;
                                   Listen.Result 0 []; Listen.Ended;
                                   Listen.StartListening])
  = [] ++ Listen.did_start :: [Listen.saw_result; Listen.saw_end]
       ++ Listen.did_start :: []
  /\ exists e, In e [Listen.saw_result; Listen.saw_end]
               /\ (e = Listen.did_stop \/ e = Listen.saw_end \/ e = Listen.saw_error).
Proof.
  split; [reflexivity|].
  exact (proj1 (one_session_at_a_time true
                  [Listen.StartListening; Listen.StartListening;
                   Listen.Result 0 []; Listen.Ended; Listen.StartListening])
           [] [Listen.saw_result; Listen.saw_end] [] eq_refl).
Defined.

(** X15 (what reaches [onResult]).  A [result] event calls [onResult] with
    the final results from [resultIndex] on, glued and trimmed, and only
    when one of them is not empty: interim results are not passed on.  So
    whatever happens, a text handed to [onResult] has no white space at
    either end; it is empty when the final results were white space only. *)
Theorem only_final_results (supported : bool) (es : list Listen.event) :
  (forall w resultIndex results k,
      Listen.handlers w = Some k ->
      Listen.told (Listen.step w (Listen.Result resultIndex results))
      = Listen.told w
        ++ match concat (map Listen.transcript
                           (filter Listen.isFinal (skipn resultIndex results))) with
           | [] => []
           | c :: s =>
               [Listen.onResult k
                  (trim (concat (map Listen.transcript
                                   (filter Listen.isFinal (skipn resultIndex results)))))]
           end)
  /\ (forall k text,
        In (Listen.onResult k text) (Listen.told (Listen.run supported es)) ->
        (forall c rest, text = c :: rest -> is_space c = false)
        /\ (forall c front, text = front ++ [c] -> is_space c = false)).
Proof.
  split.
  - intros w i rs k Hk. cbn [Listen.step]. unfold Listen.on_result. rewrite Hk.
    cbn [Listen.told]. now rewrite ListenFacts.finalTranscript_finals.
  - intros k text H. apply ListenFacts.told_trimmed in H. destruct H as (s & ->).
    apply NormalFacts.trim_ends_clean.
Qed.

Lemma only_final_results_witness :
  Listen.handlers (Listen.run true [Listen.StartListening]) = Some 0%nat
  /\ Listen.told
       (Listen.run true
          [Listen.StartListening;
           Listen.Result 1 [{| Listen.isFinal := true; Listen.transcript := lit "old" |};
                            {| Listen.isFinal := true; Listen.transcript := lit " da " |};
                            {| Listen.isFinal := false; Listen.transcript := lit "nye" |}]])
     = [Listen.onResult 0 (lit "da")].
Proof.
  split; [reflexivity|].
  exact (proj1 (only_final_results true []) (Listen.run true [Listen.StartListening]) 1%nat
           [{| Listen.isFinal := true; Listen.transcript := lit "old" |};
            {| Listen.isFinal := true; Listen.transcript := lit " da " |};
            {| Listen.isFinal := false; Listen.transcript := lit "nye" |}] 0%nat eq_refl).
Defined.

(** ** Extraction *)

(** X16 (what strategy 1 offers).  The brace pattern finds a substring
    exactly when the completion holds an opening brace with a closing brace
    behind it, and what it offers to the parser then runs from the first
    opening brace of the completion to its last closing brace. *)
Theorem first_brace_to_last_brace (responseText whole : jsstring) :
  strategy1 responseText = Some whole
  <-> exists pre mid post,
        responseText = pre ++ 123 :: mid ++ 125 :: post
        /\ ~ In 123 pre /\ ~ In 125 post
        /\ whole = 123 :: mid ++ [125].
Proof.
  split.
  - apply BraceFacts.strategy1_inv.
  - intros (pre & mid & post & -> & Hpre & Hpost & ->).
    now apply BraceFacts.strategy1_wrapped.
Qed.

(** X17 (the shape of every reply).  Whatever the completion is, and also
    when asking for it fails, the record [generateVictorAIResponse] returns
    has a truthy [response] and a truthy [followUpQuestion], and each of
    [corrections], [vocabularyTip] and [pronunciationTip] is left out or
    truthy: none is ever [null], empty, zero or [false]. *)
Theorem reply_shape (JSON_parse : jsstring -> option value)
  (StringToNumber : jsstring -> number) (ObjectToNumber : value -> completion number)
  (generated : completion jsstring) :
  exists r,
    generateVictorAIResponse JSON_parse StringToNumber ObjectToNumber (Some generated)
    = Return r
    /\ truthy (response r) = true /\ truthy (followUpQuestion r) = true
    /\ (corrections r = VUndefined \/ truthy (corrections r) = true)
    /\ (vocabularyTip r = VUndefined \/ truthy (vocabularyTip r) = true)
    /\ (pronunciationTip r = VUndefined \/ truthy (pronunciationTip r) = true).
Proof.
  assert (Hsorry : truthy (response apology) = true /\ truthy (followUpQuestion apology) = true
                   /\ (corrections apology = VUndefined \/ truthy (corrections apology) = true)
                   /\ (vocabularyTip apology = VUndefined
                       \/ truthy (vocabularyTip apology) = true)
                   /\ (pronunciationTip apology = VUndefined
                       \/ truthy (pronunciationTip apology) = true)).
  { repeat split; now left. }
  destruct generated as [responseText|e].
  - destruct (ServiceFacts.generate_cases JSON_parse StringToNumber ObjectToNumber responseText)
      as [H|(json & parsed & r & _ & _ & Hf & H)].
    + exists apology. now split.
    + exists r. split; [exact H|]. now apply RecordFacts.fields_shape in Hf.
  - exists apology. now split.
Qed.

(** X18 (the shape of every word record).  Whatever the completion is, the
    record [fetchWordData] returns has truthy [examples], never
    [undefined] or [null], and its [phonetic] and [translation] are the
    empty string or truthy. *)
Theorem word_record_shape (JSON_parse : jsstring -> option value)
  (generated : completion jsstring) :
  exists d,
    fetchWordData JSON_parse (Some generated) = Return d
    /\ truthy (examples d) = true
    /\ (phonetic d = VString [] \/ truthy (phonetic d) = true)
    /\ (translation d = VString [] \/ truthy (translation d) = true).
Proof.
  assert (Hempty : truthy (examples empty_word) = true
                   /\ (phonetic empty_word = VString [] \/ truthy (phonetic empty_word) = true)
                   /\ (translation empty_word = VString []
                       \/ truthy (translation empty_word) = true)).
  { repeat split; now left. }
  unfold fetchWordData. destruct generated as [responseText|e]; cbn [bind try_catch].
  2:{ exists empty_word. now split. }
  destruct (jsonMatch responseText) as [json|]; cbn [try_catch].
  2:{ exists empty_word. now split. }
  unfold parse. destruct (JSON_parse json) as [parsed|]; cbn [bind try_catch].
  2:{ exists empty_word. now split. }
  destruct (word_fields parsed) as [d|e] eqn:Hd; cbn [try_catch].
  - exists d. split; [reflexivity|]. exact (RecordFacts.word_shape parsed d Hd).
  - exists empty_word. now split.
Qed.

(** X19 (an object wrapped in prose).  When the completion is an object
    between a text without an opening brace and a text without a closing
    one, the object parses, and its corrections are a list or are missing,
    [generateVictorAIResponse] returns the fields of the object, each with
    its own default: a missing or falsy field does not cost the others, and
    an empty list of corrections is left out. *)
Theorem wrapped_object_is_read (JSON_parse : jsstring -> option value)
  (StringToNumber : jsstring -> number) (ObjectToNumber : value -> completion number)
  (pre mid post : jsstring) (props : list (jsstring * value)) :
  ~ In 123 pre -> ~ In 125 post ->
  JSON_parse (123 :: mid ++ [125]) = Some (VObject props) ->
  own (lit "corrections") props = VUndefined
  \/ (exists xs, own (lit "corrections") props = VArray xs) ->
  generateVictorAIResponse JSON_parse StringToNumber ObjectToNumber
    (Some (Return (pre ++ 123 :: mid ++ 125 :: post)))
  = Return {| response := if truthy (own (lit "response") props)
                          then own (lit "response") props
                          else VString (lit "I'm here to help you learn Russian!");
              corrections := match own (lit "corrections") props with
                             | VArray (x :: xs) => VArray (x :: xs)
                             | _ => VUndefined
                             end;
              vocabularyTip := if truthy (own (lit "vocabularyTip") props)
                               then own (lit "vocabularyTip") props else VUndefined;
              pronunciationTip := if truthy (own (lit "pronunciationTip") props)
                                  then own (lit "pronunciationTip") props else VUndefined;
              followUpQuestion :=
                if truthy (own (lit "followUpQuestion") props)
                then own (lit "followUpQuestion") props
                else VString (lit "What Russian phrase would you like to learn?") |}.
Proof.
  intros Hpre Hpost Hparse Hcorr.
  assert (Hm : jsonMatch (pre ++ 123 :: mid ++ 125 :: post) = Some (123 :: mid ++ [125])).
  { unfold jsonMatch. now rewrite (BraceFacts.strategy1_wrapped pre mid post Hpre Hpost). }
  rewrite (ServiceFacts.generate_parsed _ _ _ _ _ _ Hm Hparse).
  now rewrite (RecordFacts.fields_of_object _ _ props Hcorr).
Qed.

Lemma wrapped_object_is_read_witness :
  ~ In 123 (lit "Sure! ") /\ ~ In 125 (lit " Bye")
  /\ sample_parse (123 :: (quoted "response" ++ lit ":" ++ quoted "Hi") ++ [125])
     = Some (VObject [(lit "response", VString (lit "Hi"))])
  /\ generateVictorAIResponse sample_parse sample_StringToNumber sample_ObjectToNumber
       (Some (Return (lit "Sure! " ++ hi_json ++ lit " Bye")))
     = Return {| response := VString (lit "Hi"); corrections := VUndefined;
                 vocabularyTip := VUndefined; pronunciationTip := VUndefined;
                 followUpQuestion :=
                   VString (lit "What Russian phrase would you like to learn?") |}.
Proof.
  assert (H1 : ~ In 123 (lit "Sure! ")).
  { cbn. intros [H|[H|[H|[H|[H|[H|[]]]]]]]; discriminate H. }
  assert (H2 : ~ In 125 (lit " Bye")).
  { cbn. intros [H|[H|[H|[H|[]]]]]; discriminate H. }
  split; [exact H1|]. split; [exact H2|]. split; [reflexivity|].
  exact (wrapped_object_is_read sample_parse sample_StringToNumber sample_ObjectToNumber
           (lit "Sure! ") (quoted "response" ++ lit ":" ++ quoted "Hi") (lit " Bye")
           [(lit "response", VString (lit "Hi"))] H1 H2 eq_refl (or_introl eq_refl)).
Defined.

(** X20 (a word object wrapped in prose).  When the completion is an
    object between a text without an opening brace and a text without a
    closing one, and the object parses, [fetchWordData] returns its
    phonetic, examples and translation, each replaced by the empty string or
    the empty list when it is missing or falsy: it does not fall back to the
    empty record as a whole. *)
Theorem wrapped_word_is_read (JSON_parse : jsstring -> option value)
  (pre mid post : jsstring) (props : list (jsstring * value)) :
  ~ In 123 pre -> ~ In 125 post ->
  JSON_parse (123 :: mid ++ [125]) = Some (VObject props) ->
  fetchWordData JSON_parse (Some (Return (pre ++ 123 :: mid ++ 125 :: post)))
  = Return {| phonetic := if truthy (own (lit "phonetic") props)
                          then own (lit "phonetic") props else VString [];
              examples := if truthy (own (lit "examples") props)
                          then own (lit "examples") props else VArray [];
              translation := if truthy (own (lit "translation") props)
                             then own (lit "translation") props else VString [] |}.
Proof.
  intros Hpre Hpost Hparse.
  assert (Hm : jsonMatch (pre ++ 123 :: mid ++ 125 :: post) = Some (123 :: mid ++ [125])).
  { unfold jsonMatch. now rewrite (BraceFacts.strategy1_wrapped pre mid post Hpre Hpost). }
  unfold fetchWordData, parse. cbn [bind]. now rewrite Hm, Hparse.
Qed.

Lemma wrapped_word_is_read_witness :
  ~ In 123 (lit "Sure! ") /\ ~ In 125 (lit " Bye")
  /\ house_parse (123 :: (quoted "translation" ++ lit ":" ++ quoted "house") ++ [125])
     = Some (VObject [(lit "translation", VString (lit "house"))])
  /\ fetchWordData house_parse (Some (Return (lit "Sure! " ++ house_json ++ lit " Bye")))
     = Return {| phonetic := VString []; examples := VArray [];
                 translation := VString (lit "house") |}.
Proof.
  assert (H1 : ~ In 123 (lit "Sure! ")).
  { cbn. intros [H|[H|[H|[H|[H|[H|[]]]]]]]; discriminate H. }
  assert (H2 : ~ In 125 (lit " Bye")).
  { cbn. intros [H|[H|[H|[H|[]]]]]; discriminate H. }
  split; [exact H1|]. split; [exact H2|]. split; [reflexivity|].
  exact (wrapped_word_is_read house_parse
           (lit "Sure! ") (quoted "translation" ++ lit ":" ++ quoted "house") (lit " Bye")
           [(lit "translation", VString (lit "house"))] H1 H2 eq_refl).
Defined.
